(** * The Cox-Ingersoll-Ross path generator of pfhedge ([generate_cir])

    A shallow embedding of [src/pfhedge/stochastic/cir.py] and the proofs of
    the properties its specification states.

    - The element type of the tensors (the [dtype]) is abstract: a type [F]
      with the arithmetic the source uses ([Elem]).  The program and every
      structural property are stated for any such [F].
    - Tensors are the ranks the source handles: a rank-0 or rank-1 tensor
      ([Tensor]) for the parameters and the columns, a rank-2 tensor
      ([Tensor2]) for the grid and the two arrays of draws.  Broadcasting and
      its failure are written out.
    - Python exceptions are the [Raise] results of an error monad; torch's
      random generator is a state threaded through [generate_cir], and the
      memory [torch.empty] returns holds arbitrary elements.
    - The formulas of the specification are a second set of definitions
      ([spec_next] and those it is made of), on the elements of one path,
      compared with the tensor program.
    - Numbers are [xreal]: the reals with the IEEE special values nan, +inf
      and -inf.  Where special values alone decide (sigma = 0, nan,
      kappa = 0, psi <= 0) the arithmetic is the exact one ([xreal_elem]),
      which computes there what every floating-point format computes.  The
      sign of the entries depends on rounding and is settled in the rounded
      arithmetic of an arbitrary format ([float_elem]), of which the exact
      arithmetic is the member without rounding.
    - The last part goes beyond the specification: every outcome of a call,
      the grid in closed form and what an entry depends on, nan, kappa = 0
      and psi <= 0, and the continuation of a simulation from one of its
      columns. *)

From Stdlib Require Import ZArith QArith Reals Lia Lra.
From Stdlib Require Import Qreals FunctionalExtensionality.
From stdpp Require Import base option list.

Set Default Proof Using "Type".

(** ** Errors *)

(** The exceptions the function can raise: [IndexError] (a subscript out of
    range), and torch's [RuntimeError] in its two forms, a failed broadcast
    ([ShapeMismatch]) and a negative size given to [torch.empty]. *)
Inductive PyError : Type :=
  | IndexError
  | ShapeMismatch
  | NegativeDimension.

Inductive result (A : Type) : Type :=
  | Ok (a : A)
  | Raise (e : PyError).
Arguments Ok {A} a.
Arguments Raise {A} e.

#[export] Instance result_ret : MRet result := fun A a => Ok a.
#[export] Instance result_bind : MBind result := fun A B k r =>
  match r with
  | Ok a => k a
  | Raise e => Raise e
  end.

(** ** The element type *)

(** What the source asks of the elements of a tensor of the chosen dtype.
    [f_lit q] is the Python literal [q] converted to the dtype. *)
Class Elem (F : Type) : Type := {
  f_lit : Q -> F;
  f_add : F -> F -> F;
  f_sub : F -> F -> F;
  f_mul : F -> F -> F;
  f_div : F -> F -> F;
  f_neg : F -> F;
  f_sqr : F -> F;          (* x ** 2 *)
  f_exp : F -> F;
  f_log : F -> F;
  f_sqrt : F -> F;
  f_le : F -> F -> bool;   (* x <= y *)
  f_gt : F -> F -> bool    (* x > y *)
}.

(** The one law of comparisons the regime split relies on: an element that is
    [>] another is not [<=] it (IEEE comparisons satisfy it, nan included). *)
Class ElemOrder (F : Type) `{Elem F} : Prop :=
  f_gt_not_le : forall x y : F, f_gt x y = true -> f_le x y = false.

(** ** Tensors of rank 0 and 1, with broadcasting *)

Inductive Tensor (A : Type) : Type :=
  | T0 (x : A)             (* shape () *)
  | T1 (l : list A).       (* shape (length l,) *)
Arguments T0 {A} x.
Arguments T1 {A} l.

Definition tmap {A B} (f : A -> B) (t : Tensor A) : Tensor B :=
  match t with
  | T0 x => T0 (f x)
  | T1 l => T1 (f <$> l)
  end.

(** An elementwise binary operation.  Shapes () broadcast against anything;
    two rank-1 shapes must be equal, or one of them must be (1,). *)
Definition map2 {A B C} (f : A -> B -> C) (a : Tensor A) (b : Tensor B)
  : result (Tensor C) :=
  match a, b with
  | T0 x, T0 y => Ok (T0 (f x y))
  | T0 x, T1 l => Ok (T1 (f x <$> l))
  | T1 l, T0 y => Ok (T1 ((fun x => f x y) <$> l))
  | T1 l1, T1 l2 =>
      if decide (length l1 = length l2) then Ok (T1 (zip_with f l1 l2))
      else match l1, l2 with
           | [x], _ => Ok (T1 (f x <$> l2))
           | _, [y] => Ok (T1 ((fun x => f x y) <$> l1))
           | _, _ => Raise ShapeMismatch
           end
  end.

(** The value a tensor contributes to path [j] once broadcast against the
    path dimension. *)
Definition at_path {A} (t : Tensor A) (j : nat) : option A :=
  match t with
  | T0 x => Some x
  | T1 [x] => Some x
  | T1 l => l !! j
  end.

(** A shape that broadcasts against (n,) without changing it. *)
Definition broadcastable {A} (n : nat) (t : Tensor A) : Prop :=
  match t with
  | T0 _ => True
  | T1 l => length l = n \/ length l = 1
  end.

#[export] Instance broadcastable_dec {A} n (t : Tensor A) :
  Decision (broadcastable n t).
Proof. destruct t; simpl; apply _. Defined.

(** ** Tensors of rank 2 *)

Record Tensor2 (A : Type) : Type := mkTensor2 {
  t2_shape : nat * nat;          (* (rows, columns) *)
  t2_rows : list (list A)
}.
Arguments mkTensor2 {A} _ _.
Arguments t2_shape {A} _.
Arguments t2_rows {A} _.

Definition tabulate2 {A} (n t : nat) (f : nat -> nat -> A) : Tensor2 A :=
  mkTensor2 (n, t) ((fun j => f j <$> seq 0 t) <$> seq 0 n).

(** [x[:, i]] *)
Definition col_get {A} (x : Tensor2 A) (i : nat) : result (Tensor A) :=
  if decide (i < (t2_shape x).2) then
    match mapM (fun row : list A => row !! i) (t2_rows x) with
    | Some l => Ok (T1 l)
    | None => Raise IndexError
    end
  else Raise IndexError.

(** [x[:, i] = val]: the index is checked first, then [val] is broadcast to
    the column. *)
Definition col_set {A} (x : Tensor2 A) (i : nat) (val : Tensor A)
  : result (Tensor2 A) :=
  if decide (i < (t2_shape x).2) then
    match val with
    | T0 a => Ok (mkTensor2 (t2_shape x) (<[i:=a]> <$> t2_rows x))
    | T1 l =>
        if decide (length l = (t2_shape x).1) then
          Ok (mkTensor2 (t2_shape x)
                (zip_with (fun row a => <[i:=a]> row) (t2_rows x) l))
        else match l with
             | [a] => Ok (mkTensor2 (t2_shape x) (<[i:=a]> <$> t2_rows x))
             | _ => Raise ShapeMismatch
             end
    end
  else Raise IndexError.

(** The entry at row [j], column [i]. *)
Definition cell {A} (x : Tensor2 A) (j i : nat) : option A :=
  t2_rows x !! j ≫= fun row => row !! i.

(** ** [for i in xs: s = body(s, i)] with exceptions *)

Fixpoint for_each {S} (body : S -> nat -> result S) (xs : list nat) (s : S)
  : result S :=
  match xs with
  | [] => Ok s
  | i :: xs => s' ← body s i; for_each body xs s'
  end.

(** ** torch's random generator *)

(** [randn_like g (n, t)] and [rand_like g (n, t)] are the samples of an
    n x t array of standard normal, resp. uniform [0,1), draws taken from the
    generator in state [g] (the sample of row [j], column [i], as a function
    of [j] and [i]), with the state of the generator afterwards. *)
Class Generator (F G : Type) : Type := {
  randn_like : G -> nat * nat -> (nat -> nat -> F) * G;
  rand_like : G -> nat * nat -> (nat -> nat -> F) * G
}.

(** ** Tensor expressions *)

(** The operators of the source on tensors.  An operand is the result of the
    expression that computes it, so that an exception raised inside an
    expression propagates, operands being evaluated from left to right. *)
Definition lift1 {A B} (f : A -> B) (a : result (Tensor A))
  : result (Tensor B) :=
  a ← a; mret (tmap f a).

Definition lift2 {A B C} (f : A -> B -> C)
  (a : result (Tensor A)) (b : result (Tensor B)) : result (Tensor C) :=
  a ← a; b ← b; map2 f a b.

(** [torch.where(c, a, b)] *)
Definition torch_where {A} (c : result (Tensor bool))
  (a b : result (Tensor A)) : result (Tensor A) :=
  lift2 (fun (ca : bool * A) y => if ca.1 then ca.2 else y) (lift2 pair c a) b.

Definition ok_tensor {A} (t : Tensor A) : result (Tensor A) := Ok t.
Coercion ok_tensor : Tensor >-> result.

Declare Scope tensor_scope.
Delimit Scope tensor_scope with T.

Section Program.
Context {F : Type} `{Elem F}.

(** A Python scalar used as an operand. *)
Definition scalar (q : Q) : result (Tensor F) := Ok (T0 (f_lit q)).

Definition tadd := lift2 f_add.
Definition tsub := lift2 f_sub.
Definition tmul := lift2 f_mul.
Definition tdiv := lift2 f_div.
Definition tneg := lift1 f_neg.
Definition tsqr := lift1 f_sqr.
Definition texp := lift1 f_exp.
Definition tlog := lift1 f_log.
Definition tsqrt := lift1 f_sqrt.
Definition tle := lift2 f_le.
Definition tgt := lift2 f_gt.
Definition zeros_like := lift1 (fun _ : F => f_lit 0).

Local Notation "a + b" := (tadd a b) : tensor_scope.
Local Notation "a - b" := (tsub a b) : tensor_scope.
Local Notation "a * b" := (tmul a b) : tensor_scope.
Local Notation "a / b" := (tdiv a b) : tensor_scope.
Local Notation "- a" := (tneg a) : tensor_scope.
Local Notation "a <= b" := (tle a b) : tensor_scope.
Local Notation "a > b" := (tgt a b) : tensor_scope.
Local Notation "a '^2'" := (tsqr a) (at level 1, format "a '^2'") : tensor_scope.
Local Notation "'#1'" := (scalar 1) : tensor_scope.
Local Notation "'#2'" := (scalar 2) : tensor_scope.

(** [PSI_CRIT = 1.5] and [EPSILON = 1e-8]. *)
Definition PSI_CRIT : result (Tensor F) := scalar (3 # 2).
Definition EPSILON : result (Tensor F) := scalar (1 # 100000000).

Local Open Scope tensor_scope.

(** *** The body of the loop, one definition per local variable *)

Section Step.
Variables kappa theta sigma dt : Tensor F.

(* exp = (-kappa * dt).exp() *)
Definition exp_ : result (Tensor F) := texp (- kappa * dt).

Section Moments.
(** [v = output[:, i_step]] *)
Variable v : result (Tensor F).

(* m = theta + (v - theta) * exp *)
Definition m_ : result (Tensor F) := theta + (v - theta) * exp_.

(* s2 = v * (sigma ** 2) * exp * (1 - exp) / kappa
        + theta * (sigma ** 2) * ((1 - exp) ** 2) / (2 * kappa) *)
Definition s2_ : result (Tensor F) :=
  v * sigma^2 * exp_ * (#1 - exp_) / kappa
  + theta * sigma^2 * (#1 - exp_)^2 / (#2 * kappa).

(* psi = s2 / (m ** 2 + EPSILON) *)
Definition psi_ : result (Tensor F) := s2_ / (m_^2 + EPSILON).

(* b = ((2 / psi) - 1 + (2 / psi).sqrt() * (2 / psi - 1).sqrt()).sqrt() *)
Definition b_ : result (Tensor F) :=
  tsqrt ((#2 / psi_) - #1 + tsqrt (#2 / psi_) * tsqrt (#2 / psi_ - #1)).

(* a = m / (1 + b ** 2) *)
Definition a_ : result (Tensor F) := m_ / (#1 + b_^2).

(* next_0 = a * (b + randn[:, i_step]) ** 2 *)
Definition next_0_ (z : result (Tensor F)) : result (Tensor F) :=
  a_ * (b_ + z)^2.

(* p = (psi - 1) / (psi + 1) *)
Definition p_ : result (Tensor F) := (psi_ - #1) / (psi_ + #1).

(* beta = (1 - p) / (m + EPSILON) *)
Definition beta_ : result (Tensor F) := (#1 - p_) / (m_ + EPSILON).

(* pinv = ((1 - p) / (1 - u + EPSILON)).log() / beta *)
Definition pinv_ (u : result (Tensor F)) : result (Tensor F) :=
  tlog ((#1 - p_) / (#1 - u + EPSILON)) / beta_.

(* next_1 = torch.where(u > p, pinv, torch.zeros_like(u)) *)
Definition next_1_ (u : result (Tensor F)) : result (Tensor F) :=
  torch_where (u > p_) (pinv_ u) (zeros_like u).

(* torch.where(psi <= PSI_CRIT, next_0, next_1) *)
Definition next_ (z u : result (Tensor F)) : result (Tensor F) :=
  torch_where (psi_ <= PSI_CRIT) (next_0_ z) (next_1_ u).
End Moments.

(** One iteration of the loop on the grid [output]. *)
Definition qe_step (randn rand : Tensor2 F) (output : Tensor2 F)
  (i_step : nat) : result (Tensor2 F) :=
  let v := col_get output i_step in
  val ← next_ v (col_get randn i_step) (col_get rand i_step);
  col_set output (i_step + 1) val.
End Step.

(** *** The arguments *)

(** [TensorOrFloat = Union[Tensor, float]].  The elements are taken in the
    dtype of the output: [torch.as_tensor] makes a float a rank-0 tensor,
    and the casts [t.to(...)] leave the shape as it is. *)
Inductive TensorOrFloat : Type :=
  | PyFloat (x : F)
  | PyTensor (t : Tensor F).

Definition as_tensor (x : TensorOrFloat) : Tensor F :=
  match x with
  | PyFloat x => T0 x
  | PyTensor t => t
  end.

(** The argument [init_state]: a tuple, or a bare float or tensor. *)
Inductive InitState : Type :=
  | Bare (x : TensorOrFloat)
  | Tuple (xs : list TensorOrFloat).

(** [t[i]] on a tuple. *)
Definition tuple_get {A} (t : list A) (i : nat) : result A :=
  match t !! i with
  | Some x => Ok x
  | None => Raise IndexError
  end.

(** [torch.empty((n_paths, n_steps))]: the fresh memory holds whatever
    [mem] says it holds. *)
Definition torch_empty (mem : nat -> nat -> F) (n_paths n_steps : Z)
  : result (Tensor2 F) :=
  if decide (0 <= n_paths /\ 0 <= n_steps)%Z
  then Ok (tabulate2 (Z.to_nat n_paths) (Z.to_nat n_steps) mem)
  else Raise NegativeDimension.

(** [range(n)] *)
Definition range (n : Z) : list nat := seq 0 (Z.to_nat n).

(** The argument [init_state] as the function normalizes it: a bare float or
    tensor becomes a 1-tuple, and every element becomes a tensor. *)
Definition init_tuple (init_state : InitState) : list (Tensor F) :=
  let init_state :=
    match init_state with
    | Bare x => [x]
    | Tuple xs => xs
    end in
  as_tensor <$> init_state.

(** *** [generate_cir] *)

Context {G : Type} `{Generator F G}.

Definition generate_cir (mem : nat -> nat -> F) (n_paths n_steps : Z)
  (init_state : InitState) (kappa theta sigma dt : TensorOrFloat) (g : G)
  : G * result (Tensor2 F) :=
  let init_state := init_tuple init_state in
  let started :=
    output ← torch_empty mem n_paths n_steps;
    x0 ← tuple_get init_state 0;
    col_set output 0 x0 in
  match started with
  | Raise e => (g, Raise e)
  | Ok output =>
      let '(zs, g) := randn_like g (t2_shape output) in
      let randn := tabulate2 (t2_shape output).1 (t2_shape output).2 zs in
      let '(us, g) := rand_like g (t2_shape output) in
      let rand := tabulate2 (t2_shape output).1 (t2_shape output).2 us in
      let kappa := as_tensor kappa in
      let theta := as_tensor theta in
      let sigma := as_tensor sigma in
      let dt := as_tensor dt in
      (g, for_each (qe_step kappa theta sigma dt randn rand)
            (range (n_steps - 1)) output)
  end.

(** The two arrays of draws of a call that starts with the generator in state
    [g], and the state it leaves the generator in. *)
Definition draws_randn (g : G) (shape : nat * nat) : nat -> nat -> F :=
  (randn_like g shape).1.
Definition draws_rand (g : G) (shape : nat * nat) : nat -> nat -> F :=
  (rand_like (randn_like g shape).2 shape).1.
Definition state_after_draws (g : G) (shape : nat * nat) : G :=
  (rand_like (randn_like g shape).2 shape).2.
End Program.

Arguments TensorOrFloat F : clear implicits.
Arguments InitState F : clear implicits.

(** ** The transition law as the specification words it *)

(** One step of one path, on elements: the formulas of the specification's
    algorithm (steps 1 to 6), to be compared with the tensor program above. *)
Section Spec.
Context {F : Type} `{Elem F}.

Definition spec_one : F := f_lit 1.
Definition spec_two : F := f_lit 2.
Definition spec_psi_crit : F := f_lit (3 # 2).
Definition spec_epsilon : F := f_lit (1 # 100000000).

(* exp_term = exp(-kappa * dt) *)
Definition spec_exp_term (kappa dt : F) : F :=
  f_exp (f_mul (f_neg kappa) dt).

(* m = theta + (v - theta) * exp_term *)
Definition spec_m (theta v e : F) : F :=
  f_add theta (f_mul (f_sub v theta) e).

(* s2 = v sigma^2 exp_term (1 - exp_term) / kappa
        + theta sigma^2 (1 - exp_term)^2 / (2 kappa) *)
Definition spec_s2 (kappa theta sigma v e : F) : F :=
  f_add
    (f_div (f_mul (f_mul (f_mul v (f_sqr sigma)) e) (f_sub spec_one e)) kappa)
    (f_div (f_mul (f_mul theta (f_sqr sigma)) (f_sqr (f_sub spec_one e)))
       (f_mul spec_two kappa)).

(* psi = s2 / (m^2 + epsilon) *)
Definition spec_psi (s2 m : F) : F :=
  f_div s2 (f_add (f_sqr m) spec_epsilon).

(** The moments of a path whose current value is [v]. *)
Definition spec_m_of (kappa theta dt v : F) : F :=
  spec_m theta v (spec_exp_term kappa dt).
Definition spec_s2_of (kappa theta sigma dt v : F) : F :=
  spec_s2 kappa theta sigma v (spec_exp_term kappa dt).
Definition spec_psi_of (kappa theta sigma dt v : F) : F :=
  spec_psi (spec_s2_of kappa theta sigma dt v) (spec_m_of kappa theta dt v).

(* b^2 = 2/psi - 1 + sqrt(2/psi) sqrt(2/psi - 1), b = sqrt(b^2) *)
Definition spec_b2 (psi : F) : F :=
  f_add (f_sub (f_div spec_two psi) spec_one)
    (f_mul (f_sqrt (f_div spec_two psi))
       (f_sqrt (f_sub (f_div spec_two psi) spec_one))).
Definition spec_b (psi : F) : F := f_sqrt (spec_b2 psi).

(* a = m / (1 + b^2) *)
Definition spec_a (m psi : F) : F :=
  f_div m (f_add spec_one (f_sqr (spec_b psi))).

(** Low-variance regime: a (b + Z)^2. *)
Definition spec_low (m psi z : F) : F :=
  f_mul (spec_a m psi) (f_sqr (f_add (spec_b psi) z)).

(* p = (psi - 1) / (psi + 1) *)
Definition spec_p (psi : F) : F :=
  f_div (f_sub psi spec_one) (f_add psi spec_one).

(* beta = (1 - p) / (m + epsilon) *)
Definition spec_beta (m psi : F) : F :=
  f_div (f_sub spec_one (spec_p psi)) (f_add m spec_epsilon).

(* pinv = ln((1 - p) / (1 - U + epsilon)) / beta *)
Definition spec_pinv (m psi u : F) : F :=
  f_div
    (f_log (f_div (f_sub spec_one (spec_p psi))
              (f_add (f_sub spec_one u) spec_epsilon)))
    (spec_beta m psi).

(** High-variance regime: pinv if U > p, else 0. *)
Definition spec_high (m psi u : F) : F :=
  if f_gt u (spec_p psi) then spec_pinv m psi u else f_lit 0.

(** The regime split on psi <= 1.5. *)
Definition spec_select (m psi z u : F) : F :=
  if f_le psi spec_psi_crit then spec_low m psi z else spec_high m psi u.

(** X(t + dt) from X(t) = v and the step's draws [z] and [u]. *)
Definition spec_next (kappa theta sigma dt v z u : F) : F :=
  spec_select (spec_m_of kappa theta dt v)
    (spec_psi_of kappa theta sigma dt v) z u.

End Spec.

(** ** Exact arithmetic with the IEEE special values *)

(** A real number, or one of +inf, -inf and nan, with the IEEE 754 rules for
    the operations on them and no rounding, overflow or underflow.  Zero has
    no sign: a division of a nonzero number by zero is taken at +0.

    This is the arithmetic of no dtype.  It computes what every floating-point
    dtype computes where special values alone decide (nan propagates, a
    comparison with nan is false, x / 0, 0 * inf, inf / inf, the square root
    of a negative number), and it is the member without rounding of the
    family [float_elem] below, on which the properties that rounding can
    change are stated. *)
Inductive xreal : Type :=
  | Fin (r : R)
  | PInf
  | NInf
  | NaN.

(** The sign of a real number. *)
Definition Rsign (r : R) : comparison :=
  if Rlt_dec r 0 then Lt else if Rlt_dec 0 r then Gt else Eq.

Definition xinf (positive : bool) : xreal := if positive then PInf else NInf.

Definition xneg (x : xreal) : xreal :=
  match x with
  | Fin r => Fin (- r)
  | PInf => NInf
  | NInf => PInf
  | NaN => NaN
  end.

Definition xadd (x y : xreal) : xreal :=
  match x, y with
  | NaN, _ | _, NaN => NaN
  | Fin a, Fin b => Fin (a + b)
  | PInf, NInf | NInf, PInf => NaN
  | PInf, _ | _, PInf => PInf
  | NInf, _ | _, NInf => NInf
  end.

Definition xsub (x y : xreal) : xreal := xadd x (xneg y).

(** inf * r and inf / r for a real r: the sign of r decides, and inf * 0 is
    nan. *)
Definition xinf_scaled (positive : bool) (r : R) (at_zero : xreal) : xreal :=
  match Rsign r with
  | Gt => xinf positive
  | Lt => xinf (negb positive)
  | Eq => at_zero
  end.

Definition xmul (x y : xreal) : xreal :=
  match x, y with
  | NaN, _ | _, NaN => NaN
  | Fin a, Fin b => Fin (a * b)
  | PInf, Fin r | Fin r, PInf => xinf_scaled true r NaN
  | NInf, Fin r | Fin r, NInf => xinf_scaled false r NaN
  | PInf, PInf | NInf, NInf => PInf
  | PInf, NInf | NInf, PInf => NInf
  end.

Definition xdiv (x y : xreal) : xreal :=
  match x, y with
  | NaN, _ | _, NaN => NaN
  | Fin a, Fin b =>
      match Rsign b with
      | Eq => match Rsign a with Gt => PInf | Lt => NInf | Eq => NaN end
      | _ => Fin (a / b)
      end
  | Fin _, (PInf | NInf) => Fin 0
  | PInf, Fin r => xinf_scaled true r PInf
  | NInf, Fin r => xinf_scaled false r NInf
  | (PInf | NInf), (PInf | NInf) => NaN
  end.

Definition xexp (x : xreal) : xreal :=
  match x with
  | Fin r => Fin (exp r)
  | PInf => PInf
  | NInf => Fin 0
  | NaN => NaN
  end.

Definition xlog (x : xreal) : xreal :=
  match x with
  | Fin r => match Rsign r with Gt => Fin (ln r) | Eq => NInf | Lt => NaN end
  | PInf => PInf
  | NInf | NaN => NaN
  end.

Definition xsqrt (x : xreal) : xreal :=
  match x with
  | Fin r => match Rsign r with Lt => NaN | _ => Fin (sqrt r) end
  | PInf => PInf
  | NInf | NaN => NaN
  end.

Definition xle (x y : xreal) : bool :=
  match x, y with
  | NaN, _ | _, NaN => false
  | Fin a, Fin b => if Rle_dec a b then true else false
  | NInf, _ | _, PInf => true
  | _, _ => false
  end.

Definition xgt (x y : xreal) : bool :=
  match x, y with
  | NaN, _ | _, NaN => false
  | Fin a, Fin b => if Rlt_dec b a then true else false
  | PInf, PInf | NInf, _ | _, PInf => false
  | _, _ => true
  end.

#[export] Instance xreal_elem : Elem xreal := {|
  f_lit q := Fin (Q2R q);
  f_add := xadd;
  f_sub := xsub;
  f_mul := xmul;
  f_div := xdiv;
  f_neg := xneg;
  f_sqr x := xmul x x;
  f_exp := xexp;
  f_log := xlog;
  f_sqrt := xsqrt;
  f_le := xle;
  f_gt := xgt
|}.

(** ** Rounded arithmetic *)

(** A floating-point format, as far as this development needs it: how the
    exact result of an operation is rounded to an element (a number of the
    format, or an infinity by overflow), and what the library functions exp
    and log return on a finite argument (positive, for log). *)
Class Format : Type := {
  round : R -> xreal;
  exp_fl : R -> xreal;
  log_fl : R -> xreal
}.

Definition xround `{Format} (x : xreal) : xreal :=
  match x with Fin r => round r | _ => x end.

(** The arithmetic of the format: every operation is the exact one followed
    by the rounding of its result; special values are handled as in the exact
    arithmetic.  [f_lit q] is the literal [q] rounded to the format. *)
Definition float_elem (fm : Format) : Elem xreal := {|
  f_lit q := round (Q2R q);
  f_add x y := xround (xadd x y);
  f_sub x y := xround (xsub x y);
  f_mul x y := xround (xmul x y);
  f_div x y := xround (xdiv x y);
  f_neg := xneg;
  f_sqr x := xround (xmul x x);
  f_exp x := match x with Fin r => exp_fl r | _ => xexp x end;
  f_log x := match x with
             | Fin r => match Rsign r with
                        | Gt => log_fl r
                        | Eq => NInf
                        | Lt => NaN
                        end
             | _ => xlog x
             end;
  f_sqrt x := xround (xsqrt x);
  f_le := xle;
  f_gt := xgt
|}.

(** What is asked of a format.  The rounding never gives nan, is monotone
    and odd, leaves the numbers of the format, 0 and 1 among them, as they
    are, and rounds the literal 1e-8 to a positive number; exp of a number
    <= 0 is a number of [0, 1]; log of a number >= 1 is >= 0 or +inf.
    Rounding to nearest in binary32 and binary64 (with overflow to the
    infinities and gradual underflow) is such a rounding, and so is no
    rounding at all; the two conditions on exp and log hold of a library
    that returns one of the two numbers of the format next to the exact
    value. *)
Class Rounding (fm : Format) : Prop := {
  round_not_nan r : round r <> NaN;
  round_mono a b : (a <= b)%R -> xle (round a) (round b) = true;
  round_opp r : round (- r) = xneg (round r);
  round_idem r r' : round r = Fin r' -> round r' = Fin r';
  round_0 : round 0 = Fin 0;
  round_1 : round 1 = Fin 1;
  round_epsilon :
    exists eps, round (1 / 100000000) = Fin eps /\ (0 < eps)%R;
  exp_fl_unit r :
    (r <= 0)%R -> exists e, exp_fl r = Fin e /\ (0 <= e <= 1)%R;
  log_fl_sign r :
    (1 <= r)%R -> log_fl r <> NaN /\ xle (Fin 0) (log_fl r) = true
}.

(** No rounding: the exact arithmetic. *)
Definition exact_format : Format := {|
  round := Fin;
  exp_fl r := Fin (exp r);
  log_fl r := Fin (ln r)
|}.

(** No rounding but in exp, which returns 1 on [-2^-25, 0] (and on nothing
    else): there the exact value lies within half a unit in the last place
    of 1 in binary32, and the binary32 exp returns 1. *)
Definition flat_exp_format : Format := {|
  round := Fin;
  exp_fl r :=
    Fin (if Rle_dec (- (1 / 33554432)) r
         then if Rle_dec r 0 then 1 else exp r
         else exp r);
  log_fl r := Fin (ln r)
|}.

(** A generator that replays a tape of recorded draws: an n x t array takes
    the next n * t values of the tape, row after row (zeros once the tape is
    exhausted). *)
Definition tape_fill {F} `{Elem F} (tape : list F) (shape : nat * nat)
  : (nat -> nat -> F) * list F :=
  (fun j i => default (f_lit 0) (tape !! (j * shape.2 + i))%nat,
   drop (shape.1 * shape.2) tape).

#[export] Instance tape_generator {F} `{Elem F} : Generator F (list F) := {|
  randn_like := tape_fill;
  rand_like := tape_fill
|}.

(** * Predicates of the statements and proofs *)

(** [denotes n r phi]: the expression [r] evaluates to a tensor that
    broadcasts against the [n] paths and whose value on path [j] is [phi j]. *)
Definition denotes {A} (n : nat) (r : result (Tensor A)) (phi : nat -> A)
  : Prop :=
  exists t, r = Ok t /\ broadcastable n t /\
            forall j, j < n -> at_path t j = Some (phi j).

(** The rows of a rank-2 tensor are as many and as long as its shape says. *)
Definition wf2 {A} (x : Tensor2 A) : Prop :=
  length (t2_rows x) = (t2_shape x).1 /\
  Forall (fun row => length row = (t2_shape x).2) (t2_rows x).

(** The shape of [a] broadcasts to the shape of [c] without changing it. *)
Definition dominated {A B} (a : Tensor A) (c : Tensor B) : Prop :=
  match a, c with
  | T0 _, _ => True
  | T1 _, T0 _ => False
  | T1 l, T1 l' => length l = length l' \/ length l = 1
  end.

(** If the expression [r] returns a tensor, the shape of [a] broadcasts to
    it: [a] is an operand of [r]. *)
Definition reaches {A B} (a : Tensor A) (r : result (Tensor B)) : Prop :=
  forall c, r = Ok c -> dominated a c.

(** The expression [r] raises nothing but a failed broadcast. *)
Definition only_mismatch {A} (r : result A) : Prop :=
  forall e, r = Raise e -> e = ShapeMismatch.

Section Predicates.
Context {F : Type} `{Elem F}.

(** The value of a broadcast parameter on path [j]. *)
Definition path_val (t : Tensor F) (j : nat) : F :=
  default (f_lit 0) (at_path t j).

Definition cell_val (x : Tensor2 F) (j i : nat) : F :=
  default (f_lit 0) (cell x j i).

(** The entry the transition law gives path [j] at step [i + 1] from the
    entry [v] at step [i]. *)
Definition spec_cell (kappa theta sigma dt : Tensor F)
  (randn rand : Tensor2 F) (j i : nat) (v : F) : F :=
  spec_next (path_val kappa j) (path_val theta j) (path_val sigma j)
    (path_val dt j) v (cell_val randn j i) (cell_val rand j i).

(** The statements of [generate_cir] up to the first assignment. *)
Definition started (mem : nat -> nat -> F) (n_paths n_steps : Z)
  (init_state : InitState F) : result (Tensor2 F) :=
  output ← torch_empty mem n_paths n_steps;
  x0 ← tuple_get (init_tuple init_state) 0;
  col_set output 0 x0.

(** The loop of [generate_cir] on the draws [zs] and [us]. *)
Definition stepped (kappa theta sigma dt : TensorOrFloat F)
  (zs us : nat -> nat -> F) (n_steps : Z) (output : Tensor2 F)
  : result (Tensor2 F) :=
  for_each
    (qe_step (as_tensor kappa) (as_tensor theta) (as_tensor sigma)
       (as_tensor dt)
       (tabulate2 (t2_shape output).1 (t2_shape output).2 zs)
       (tabulate2 (t2_shape output).1 (t2_shape output).2 us))
    (range (n_steps - 1)) output.

(** The grid when iteration [i] of the loop of [generate_cir] begins: the
    statements up to the loop, then the iterations 0, ..., i - 1 on the two
    arrays of draws taken from the generator in state [g]. *)
Definition loop_state {G : Type} `{Generator F G} (mem : nat -> nat -> F)
  (n_paths n_steps : Z) (init_state : InitState F)
  (kappa theta sigma dt : TensorOrFloat F) (g : G) (i : nat)
  : result (Tensor2 F) :=
  output ← started mem n_paths n_steps init_state;
  for_each
    (qe_step (as_tensor kappa) (as_tensor theta) (as_tensor sigma)
       (as_tensor dt)
       (tabulate2 (t2_shape output).1 (t2_shape output).2
          (draws_randn g (t2_shape output)))
       (tabulate2 (t2_shape output).1 (t2_shape output).2
          (draws_rand g (t2_shape output))))
    (seq 0 i) output.

(** What a call must satisfy for the first assignment to succeed, and for
    every broadcast of the loop to succeed. *)
Definition valid_start (n_paths n_steps : Z) (init_state : InitState F)
  (x0 : Tensor F) : Prop :=
  (0 <= n_paths)%Z /\ (1 <= n_steps)%Z /\
  init_tuple init_state !! 0 = Some x0 /\
  broadcastable (Z.to_nat n_paths) x0.

Definition valid_params (n_paths : Z) (kappa theta sigma dt : TensorOrFloat F)
  : Prop :=
  broadcastable (Z.to_nat n_paths) (as_tensor kappa) /\
  broadcastable (Z.to_nat n_paths) (as_tensor theta) /\
  broadcastable (Z.to_nat n_paths) (as_tensor sigma) /\
  broadcastable (Z.to_nat n_paths) (as_tensor dt).

(** Two grids of the same shape with the same columns [0 .. k-1]. *)
Definition agree_below (k : nat) (x y : Tensor2 F) : Prop :=
  t2_shape x = t2_shape y /\ wf2 x /\ wf2 y /\
  forall j i, i < k -> cell x j i = cell y j i.

(** Two runs that raise the same exception, or return grids with the same
    columns [0 .. k-1]. *)
Definition same_result (k : nat) (r1 r2 : result (Tensor2 F)) : Prop :=
  match r1, r2 with
  | Ok x, Ok y => agree_below k x y
  | Raise e1, Raise e2 => e1 = e2
  | _, _ => False
  end.

End Predicates.

(** The uniform draw [u] of a path in the high-variance regime falls just
    above p: p < u < p + epsilon. *)
Definition in_epsilon_window {F} `{Elem F} (kappa theta sigma dt v u : F)
  : Prop :=
  let psi := spec_psi_of kappa theta sigma dt v in
  f_gt psi spec_psi_crit = true /\
  f_gt u (spec_p psi) = true /\
  f_gt (f_add (spec_p psi) spec_epsilon) u = true.

(** A high-variance step (the test [psi <= PSI_CRIT] fails) whose uniform
    draw [u] is above p and whose ratio (1 - p) / (1 - u + EPSILON) comes out
    below 1: [pinv] is then the logarithm of a number below 1 over beta.  In
    exact arithmetic this is p < u < p + epsilon. *)
Definition below_guard {F} `{Elem F} (kappa theta sigma dt v u : F) : Prop :=
  let psi := spec_psi_of kappa theta sigma dt v in
  f_le psi spec_psi_crit = false /\
  f_gt u (spec_p psi) = true /\
  f_gt spec_one
    (f_div (f_sub spec_one (spec_p psi))
       (f_add (f_sub spec_one u) spec_epsilon)) = true.

(** Not negative: nan, +inf or a number >= 0. *)
Definition xnot_negative (x : xreal) : Prop :=
  match x with
  | Fin r => (0 <= r)%R
  | PInf | NaN => True
  | NInf => False
  end.

(** +inf or a number >= 0. *)
Definition xnonneg (x : xreal) : Prop :=
  match x with
  | Fin r => (0 <= r)%R
  | PInf => True
  | NInf | NaN => False
  end.

Definition xfinite (x : xreal) : Prop :=
  match x with Fin _ => True | _ => False end.

Definition xnonnegative (x : xreal) : Prop :=
  match x with Fin r => (0 <= r)%R | _ => False end.

(** A uniform draw: a number of [0, 1). *)
Definition xunit (x : xreal) : Prop :=
  match x with Fin r => (0 <= r < 1)%R | _ => False end.

(** The moments in real numbers. *)
Definition R_exp_term (kappa dt : R) : R := exp (- kappa * dt).
Definition R_m (kappa theta dt v : R) : R :=
  (theta + (v - theta) * R_exp_term kappa dt)%R.
Definition R_s2 (kappa theta sigma dt v : R) : R :=
  (v * (sigma * sigma) * R_exp_term kappa dt * (1 - R_exp_term kappa dt)
   / kappa
   + theta * (sigma * sigma)
     * ((1 - R_exp_term kappa dt) * (1 - R_exp_term kappa dt))
     / (2 * kappa))%R.
Definition R_psi (kappa theta sigma dt v : R) : R :=
  (R_s2 kappa theta sigma dt v
   / (R_m kappa theta dt v * R_m kappa theta dt v + 1 / 100000000))%R.
Definition R_p (psi : R) : R := ((psi - 1) / (psi + 1))%R.

(** The column [i] of a grid generated with sigma = 0 from X0 = [x0]. *)
Definition sigma_zero_column (x0 : R) (i : nat) : xreal :=
  match i with
  | O => Fin x0
  | S _ => if Nat.odd i then NaN else Fin 0
  end.

(** * Example calls *)

(** [generate_cir(2, 3)] with the default parameters of the source, on a
    tape of recorded draws; the fresh memory holds nan. *)
Definition ex_mem : nat -> nat -> xreal := fun _ _ => NaN.
Definition ex_init : InitState xreal := Tuple [PyFloat (Fin 0.04)].
Definition ex_kappa : TensorOrFloat xreal := PyFloat (Fin 1).
Definition ex_theta : TensorOrFloat xreal := PyFloat (Fin 0.04).
Definition ex_sigma : TensorOrFloat xreal := PyFloat (Fin 0.2).
Definition ex_dt : TensorOrFloat xreal := PyFloat (Fin (1 / 250)).
Definition ex_tape : list xreal :=
  Fin <$> [0.3; -1.2; 0.5; 0.1; 0.7; -0.4; 0.25; 0.5; 0.75; 0.125; 0.625;
           0.875]%R.

(** Two tapes with the same first twelve draws, the twelve that two 2 x 3
    arrays take, and a different draw after them. *)
Definition ex_tape_longer : list xreal := ex_tape ++ [Fin 0.5].

(** The tape [ex_tape] with other draws in the last column (column 2) of
    both arrays. *)
Definition ex_tape_last : list xreal :=
  Fin <$> [0.3; -1.2; 9; 0.1; 0.7; 8; 0.25; 0.5; 0.99; 0.125; 0.625; 0]%R.

(** A kappa of shape (3,): it does not broadcast against 2 paths. *)
Definition ex_kappa3 : TensorOrFloat xreal :=
  PyTensor (T1 [Fin 1; Fin 1; Fin 1]).

(** One path, two steps, X0 = theta = 1, kappa = 1, sigma = 4, dt = 1: the
    mean m of the step is 1 and psi = 8 (1 - exp(-2)) / (1 + 1e-8), about
    6.9.  The uniform draw of the step is p + 5e-9 for the p of that path,
    about 0.747. *)
Definition ce_psi : R := R_psi 1 1 4 1 1.
Definition ce_u : R := (R_p ce_psi + 1 / 200000000)%R.
Definition ce_tape : list xreal := [Fin 0; Fin 0; Fin ce_u; Fin 0].

(** Two paths that differ in sigma only (4 and 0.2; X0 = theta = kappa =
    dt = 1): in the same step the first is in the high-variance regime and
    the second in the low-variance regime. *)
Definition mixed_sigma : TensorOrFloat xreal :=
  PyTensor (T1 [Fin 4; Fin (1 / 5)]).
Definition mixed_tape : list xreal :=
  [Fin 0; Fin 0; Fin 0; Fin 0; Fin (1 / 2); Fin 0; Fin (1 / 2); Fin 0].

(** * Definitions for the properties beyond the claims *)

(** The value of one path after [t] steps, the draws of its step [i] being
    [zs i] and [us i]: the transition law iterated from [x0]. *)
Fixpoint spec_path {F} `{Elem F} (kappa theta sigma dt x0 : F)
  (zs us : nat -> F) (t : nat) : F :=
  match t with
  | O => x0
  | S t' =>
      spec_next kappa theta sigma dt
        (spec_path kappa theta sigma dt x0 zs us t') (zs t') (us t')
  end.

(** Entry (j, t) of the grid as the iterated transition law gives it from
    the broadcast arguments and the arrays of draws [zs] and [us]. *)
Definition trajectory {F} `{Elem F} (kappa theta sigma dt x0 : Tensor F)
  (zs us : nat -> nat -> F) (j t : nat) : F :=
  spec_path (path_val kappa j) (path_val theta j) (path_val sigma j)
    (path_val dt j) (path_val x0 j) (zs j) (us j) t.

(** Two tensors that broadcast against [n] paths to the same values. *)
Definition same_on_paths {A} (n : nat) (t t' : Tensor A) : Prop :=
  broadcastable n t /\ broadcastable n t' /\
  forall j, j < n -> at_path t j = at_path t' j.

(** The psi that the step from column [i] computes on path [j]. *)
Definition psi_at {F} `{Elem F} (kappa theta sigma dt : Tensor F)
  (output : Tensor2 F) (j i : nat) : F :=
  spec_psi_of (path_val kappa j) (path_val theta j) (path_val sigma j)
    (path_val dt j) (cell_val output j i).

(** One path, two steps, on a tape that replays the draws of path 1 of
    [ex_tape] at step 0. *)
Definition ex_tape_path1 : list xreal := Fin <$> [0.1; 0; 0.125; 0]%R.

(** A tape for two paths and two steps that replays, at step 0, the draws
    that [ex_tape] gives the two paths at step 1. *)
Definition ex_tape_shifted : list xreal :=
  Fin <$> [-1.2; 0; 0.7; 0; 0.5; 0; 0.625; 0]%R.

(** The default kappa as a tensor of shape (2,). *)
Definition ex_kappa_filled : TensorOrFloat xreal :=
  PyTensor (T1 [Fin 1; Fin 1]).

(** * Properties *)

(** ** The model at work on small inputs *)

Example broadcast_equal_shapes :
  map2 Nat.add (T1 [1; 2; 3]) (T1 [10; 20; 30]) = Ok (T1 [11; 22; 33]).
Proof. reflexivity. Qed.

Example broadcast_length_one :
  map2 Nat.add (T1 [1; 2; 3]) (T1 [10]) = Ok (T1 [11; 12; 13]).
Proof. reflexivity. Qed.

Example broadcast_rank_zero :
  map2 Nat.add (T0 1) (T1 [10; 20]) = Ok (T1 [11; 21]).
Proof. reflexivity. Qed.

Example broadcast_mismatch :
  map2 Nat.add (T1 [1; 2; 3]) (T1 [10; 20]) = Raise ShapeMismatch.
Proof. reflexivity. Qed.

Example where_selects_elementwise :
  torch_where (Ok (T1 [true; false; true])) (Ok (T1 [1; 2; 3])) (Ok (T0 0))
  = Ok (T1 [1; 0; 3]).
Proof. reflexivity. Qed.

Example read_column :
  col_get (mkTensor2 (2, 2) [[1; 2]; [3; 4]]) 1 = Ok (T1 [2; 4]).
Proof. reflexivity. Qed.

Example assign_column :
  col_set (mkTensor2 (2, 2) [[1; 2]; [3; 4]]) 1 (T1 [5; 6])
  = Ok (mkTensor2 (2, 2) [[1; 5]; [3; 6]]).
Proof. reflexivity. Qed.

Example assign_column_broadcast :
  col_set (mkTensor2 (2, 2) [[1; 2]; [3; 4]]) 0 (T0 7)
  = Ok (mkTensor2 (2, 2) [[7; 2]; [7; 4]]).
Proof. reflexivity. Qed.

Example assign_column_mismatch :
  col_set (mkTensor2 (2, 2) [[1; 2]; [3; 4]]) 1 (T1 [5; 6; 7])
  = Raise ShapeMismatch.
Proof. reflexivity. Qed.

Example assign_column_out_of_range :
  col_set (mkTensor2 (2, 2) [[1; 2]; [3; 4]]) 2 (T0 7) = Raise IndexError.
Proof. reflexivity. Qed.

(** [generate_cir(2, 0)]: the first assignment finds no column 0. *)
Example no_column :
  generate_cir ex_mem 2 0 ex_init ex_kappa ex_theta ex_sigma ex_dt ex_tape
  = (ex_tape, Raise IndexError).
Proof. reflexivity. Qed.

(** [generate_cir(-1, 3)]: [torch.empty] refuses the shape. *)
Example negative_size :
  generate_cir ex_mem (-1) 3 ex_init ex_kappa ex_theta ex_sigma ex_dt ex_tape
  = (ex_tape, Raise NegativeDimension).
Proof. reflexivity. Qed.

(** [generate_cir(2, 3, init_state=())]: [init_state[0]] does not exist. *)
Example empty_init_state :
  generate_cir ex_mem 2 3 (Tuple []) ex_kappa ex_theta ex_sigma ex_dt ex_tape
  = (ex_tape, Raise IndexError).
Proof. reflexivity. Qed.

(** An initial state of shape (3,) on 2 paths: the first assignment fails,
    and the tape is untouched. *)
Example init_state_mismatch :
  generate_cir ex_mem 2 3 (Bare ex_kappa3) ex_kappa ex_theta ex_sigma ex_dt
    ex_tape
  = (ex_tape, Raise ShapeMismatch).
Proof. reflexivity. Qed.

(** A kappa of shape (3,) on 2 paths and 3 steps: the first step fails, after
    the twelve draws of the two arrays were taken. *)
Example kappa_mismatch :
  generate_cir ex_mem 2 3 ex_init ex_kappa3 ex_theta ex_sigma ex_dt ex_tape
  = (drop 12 ex_tape, Raise ShapeMismatch).
Proof. reflexivity. Qed.

(** ** Broadcast tensors as functions of the path *)

Lemma at_path_T1 {A} (l : list A) (j : nat) :
  at_path (T1 l) j = l !! (if decide (length l = 1) then 0 else j).
Proof. destruct l as [|x [|y l]]; reflexivity. Qed.

Lemma denotes_ext {A} n (r : result (Tensor A)) phi psi :
  (forall j, j < n -> phi j = psi j) -> denotes n r phi -> denotes n r psi.
Proof.
  intros E (t & -> & Hb & Hv). exists t. repeat split; [done|].
  intros j Hj. rewrite Hv, E; done.
Qed.

Lemma denotes_T0 {A} n (x : A) : denotes n (Ok (T0 x)) (fun _ => x).
Proof. exists (T0 x). repeat split; done. Qed.

Lemma denotes_lift1 {A B} (f : A -> B) n a phi :
  denotes n a phi -> denotes n (lift1 f a) (fun j => f (phi j)).
Proof.
  intros (t & -> & Hb & Hv). exists (tmap f t). split; [done|].
  destruct t as [x|l]; cbn [tmap broadcastable] in *.
  - split; [done|]. intros j Hj. specialize (Hv j Hj).
    cbn in *. by simplify_eq.
  - rewrite length_fmap. split; [done|]. intros j Hj.
    specialize (Hv j Hj).
    rewrite at_path_T1 in Hv; rewrite at_path_T1. rewrite length_fmap, list_lookup_fmap, Hv.
    done.
Qed.

Lemma denotes_lift2 {A B C} (f : A -> B -> C) n a b phi psi :
  denotes n a phi -> denotes n b psi ->
  denotes n (lift2 f a b) (fun j => f (phi j) (psi j)).
Proof.
  intros (ta & -> & Ba & Ha) (tb & -> & Bb & Hb).
  unfold lift2; cbn [mbind result_bind].
  destruct ta as [x|l1], tb as [y|l2]; cbn [map2 broadcastable] in *.
  - eexists; split; [done|]. split; [done|]. intros j Hj.
    specialize (Ha j Hj); specialize (Hb j Hj). cbn in *. by simplify_eq.
  - eexists; split; [done|]. cbn [broadcastable]. rewrite length_fmap.
    split; [done|].
    intros j Hj. specialize (Ha j Hj); specialize (Hb j Hj).
    rewrite at_path_T1 in Hb; rewrite at_path_T1.
    rewrite length_fmap, list_lookup_fmap, Hb. cbn in *. by simplify_eq.
  - eexists; split; [done|]. cbn [broadcastable]. rewrite length_fmap.
    split; [done|].
    intros j Hj. specialize (Ha j Hj); specialize (Hb j Hj).
    rewrite at_path_T1 in Ha; rewrite at_path_T1.
    rewrite length_fmap, list_lookup_fmap, Ha. cbn in *. by simplify_eq.
  - destruct (decide (length l1 = length l2)) as [E|NE].
    + eexists; split; [done|]. cbn [broadcastable]. rewrite length_zip_with.
      split; [lia|]. intros j Hj. specialize (Ha j Hj); specialize (Hb j Hj).
      rewrite at_path_T1 in Ha; rewrite at_path_T1 in Hb; rewrite at_path_T1.
      rewrite length_zip_with, lookup_zip_with.
      replace (length l1 `min` length l2) with (length l1) by lia.
      rewrite Ha. rewrite <- E in Hb. rewrite Hb. done.
    + destruct l1 as [|x [|x' l1]], l2 as [|y [|y' l2]]; cbn in Ba, Bb, NE;
        try lia.
      all: eexists; (split; [done|]); cbn [broadcastable];
        rewrite ?length_fmap; cbn [length].
      all: split; [lia|]; intros j Hj.
      all: specialize (Ha j Hj); specialize (Hb j Hj).
      all: rewrite at_path_T1 in Ha; rewrite at_path_T1 in Hb; rewrite at_path_T1.
      all: rewrite ?length_fmap, ?list_lookup_fmap in *; cbn [length] in *.
      all: repeat case_decide; try lia.
      all: cbn in *; simplify_eq; rewrite ?Ha, ?Hb; done.
Qed.

Lemma denotes_where {A} n c (a b : result (Tensor A)) chi phi psi :
  denotes n c chi -> denotes n a phi -> denotes n b psi ->
  denotes n (torch_where c a b) (fun j => if chi j then phi j else psi j).
Proof.
  intros Hc Ha Hb. unfold torch_where.
  exact (denotes_lift2 _ n _ _ _ _ (denotes_lift2 pair n _ _ _ _ Hc Ha) Hb).
Qed.

(** ** Grids *)

Lemma cell_lt {A} (x : Tensor2 A) j i :
  wf2 x -> j < (t2_shape x).1 -> i < (t2_shape x).2 -> is_Some (cell x j i).
Proof.
  intros [Hn Hr] Hj Hi. unfold cell.
  destruct (lookup_lt_is_Some_2 (t2_rows x) j) as [row Hrow]; [lia|].
  rewrite Hrow; simpl. apply lookup_lt_is_Some_2.
  rewrite Forall_lookup in Hr. rewrite (Hr _ _ Hrow). done.
Qed.

Lemma wf2_tabulate2 {A} n t (f : nat -> nat -> A) : wf2 (tabulate2 n t f).
Proof.
  split; simpl.
  - by rewrite length_fmap, length_seq.
  - apply Forall_fmap, Forall_forall. intros j _. simpl.
    by rewrite length_fmap, length_seq.
Qed.

Lemma cell_tabulate2 {A} n t (f : nat -> nat -> A) j i :
  j < n -> i < t -> cell (tabulate2 n t f) j i = Some (f j i).
Proof.
  intros Hj Hi. unfold cell, tabulate2; simpl.
  rewrite list_lookup_fmap, lookup_seq_lt by done. simpl.
  rewrite list_lookup_fmap, lookup_seq_lt by done. done.
Qed.

Lemma col_get_ok {A} (x : Tensor2 A) i :
  wf2 x -> i < (t2_shape x).2 ->
  exists l, col_get x i = Ok (T1 l) /\ length l = (t2_shape x).1 /\
            forall j, l !! j = cell x j i.
Proof.
  intros [Hn Hr] Hi. unfold col_get. rewrite decide_True by done.
  destruct (mapM (fun row : list A => row !! i) (t2_rows x)) as [l|] eqn:E.
  - apply mapM_Some in E. exists l. split; [done|].
    split; [by rewrite <- (Forall2_length _ _ _ E)|].
    intros j. unfold cell.
    destruct (t2_rows x !! j) as [row|] eqn:Hrow; simpl.
    + destruct (Forall2_lookup_l _ _ _ _ _ E Hrow) as (y & -> & Hy). done.
    + apply lookup_ge_None. apply lookup_ge_None in Hrow.
      rewrite <- (Forall2_length _ _ _ E). done.
  - exfalso. apply eq_None_not_Some in E. apply E, mapM_is_Some.
    eapply Forall_impl; [exact Hr|]. intros row Hrow. cbv beta in Hrow.
    apply lookup_lt_is_Some_2. by rewrite Hrow.
Qed.

Lemma denotes_col_get {A} (x : Tensor2 A) i phi :
  wf2 x -> i < (t2_shape x).2 ->
  (forall j, j < (t2_shape x).1 -> cell x j i = Some (phi j)) ->
  denotes (t2_shape x).1 (col_get x i) phi.
Proof.
  intros Hw Hi Hc. destruct (col_get_ok x i Hw Hi) as (l & -> & Hl & Hv).
  exists (T1 l). split; [done|]. split; [by left|].
  intros j Hj. rewrite at_path_T1. case_decide.
  - assert (j = 0) as -> by lia. rewrite Hv. auto.
  - rewrite Hv. auto.
Qed.

Lemma col_get_index_error {A} (x : Tensor2 A) i :
  ~ i < (t2_shape x).2 -> col_get x i = Raise IndexError.
Proof. intros Hi. unfold col_get. by rewrite decide_False. Qed.

(** The assignment [x[:, i] = val] on a well-formed grid: it succeeds exactly
    when [val] broadcasts to the column, writes column [i] and nothing else. *)
Lemma col_set_ok {A} (x : Tensor2 A) i val :
  wf2 x -> i < (t2_shape x).2 -> broadcastable (t2_shape x).1 val ->
  exists x', col_set x i val = Ok x' /\ wf2 x' /\ t2_shape x' = t2_shape x /\
    (forall j, j < (t2_shape x).1 -> cell x' j i = at_path val j) /\
    (forall j i', i' <> i -> cell x' j i' = cell x j i').
Proof.
  intros [Hn Hr] Hi Hb. unfold col_set. rewrite decide_True by done.
  assert (forall a, let x' := mkTensor2 (t2_shape x) (<[i:=a]> <$> t2_rows x) in
     wf2 x' /\ t2_shape x' = t2_shape x /\
     (forall j, j < (t2_shape x).1 -> cell x' j i = Some a) /\
     (forall j i', i' <> i -> cell x' j i' = cell x j i')) as Hfill.
  { intros a x'. subst x'. unfold wf2, cell; simpl. repeat split.
    - by rewrite length_fmap.
    - apply Forall_fmap. eapply Forall_impl; [exact Hr|].
      intros row Hrow. simpl. by rewrite length_insert.
    - intros j Hj. rewrite list_lookup_fmap.
      destruct (lookup_lt_is_Some_2 (t2_rows x) j) as [row Hrow]; [lia|].
      rewrite Hrow. simpl. apply list_lookup_insert_eq.
      rewrite Forall_lookup in Hr. rewrite (Hr _ _ Hrow). done.
    - intros j i' Hne. rewrite list_lookup_fmap.
      destruct (t2_rows x !! j) as [row|]; simpl; [|done].
      by apply list_lookup_insert_ne. }
  destruct val as [a|l].
  - eexists. split; [done|]. apply Hfill.
  - destruct (decide (length l = (t2_shape x).1)) as [El|NEl].
    + eexists. split; [done|]. unfold wf2, cell; cbn [t2_rows t2_shape].
      repeat split.
      * rewrite length_zip_with. lia.
      * apply Forall_forall. intros row Hin.
        apply list_elem_of_lookup in Hin as [j Hj].
        rewrite lookup_zip_with in Hj.
        destruct (t2_rows x !! j) as [row0|] eqn:Hrow; simpl in Hj; [|done].
        destruct (l !! j); simpl in Hj; [|done]. simplify_eq.
        rewrite length_insert. rewrite Forall_lookup in Hr. eauto.
      * intros j Hj. rewrite at_path_T1, lookup_zip_with.
        destruct (lookup_lt_is_Some_2 (t2_rows x) j) as [row Hrow]; [lia|].
        destruct (lookup_lt_is_Some_2 l j) as [a Ha]; [lia|].
        rewrite Hrow; simpl. rewrite Ha; simpl.
        case_decide.
        -- assert (j = 0) as -> by lia. rewrite Ha.
           apply list_lookup_insert_eq.
           rewrite Forall_lookup in Hr. rewrite (Hr _ _ Hrow). done.
        -- rewrite Ha. apply list_lookup_insert_eq.
           rewrite Forall_lookup in Hr. rewrite (Hr _ _ Hrow). done.
      * intros j i' Hne. rewrite lookup_zip_with.
        destruct (t2_rows x !! j) as [row|] eqn:Hrow; simpl; [|done].
        destruct (l !! j) as [a|] eqn:Ha; simpl.
        -- by apply list_lookup_insert_ne.
        -- apply lookup_ge_None in Ha. apply lookup_lt_Some in Hrow. lia.
    + simpl in Hb. destruct l as [|a [|a' l]]; simpl in *; try lia.
      eexists. split; [done|]. apply Hfill.
Qed.

Lemma col_set_mismatch {A} (x : Tensor2 A) i val :
  i < (t2_shape x).2 -> ~ broadcastable (t2_shape x).1 val ->
  col_set x i val = Raise ShapeMismatch.
Proof.
  intros Hi Hb. unfold col_set. rewrite decide_True by done.
  destruct val as [a|l]; simpl in Hb; [tauto|].
  rewrite decide_False by tauto.
  destruct l as [|a [|a' l]]; simpl in *; try done. tauto.
Qed.

Lemma col_set_index_error {A} (x : Tensor2 A) i val :
  ~ i < (t2_shape x).2 -> col_set x i val = Raise IndexError.
Proof. intros Hi. unfold col_set. by rewrite decide_False. Qed.

(** ** One step, path by path *)

Section StepSpec.
Context {F : Type} `{Elem F}.

Lemma broadcastable_at_path (n : nat) (t : Tensor F) j :
  broadcastable n t -> j < n -> at_path t j = Some (path_val t j).
Proof.
  intros Hb Hj. unfold path_val.
  destruct t as [x|l]; [done|]. rewrite at_path_T1. simpl in Hb.
  destruct (lookup_lt_is_Some_2 l (if decide (length l = 1) then 0 else j))
    as [y Hy]; [case_decide; lia|].
  by rewrite Hy.
Qed.

Lemma denotes_param n (t : Tensor F) :
  broadcastable n t -> denotes n (ok_tensor t) (path_val t).
Proof.
  intros Hb. exists t. split; [done|]. split; [done|].
  intros j Hj. by apply (broadcastable_at_path n).
Qed.

Lemma denotes_scalar n q : denotes n (scalar q) (fun _ => f_lit q).
Proof. apply denotes_T0. Qed.

Lemma denotes_column (x : Tensor2 F) i :
  wf2 x -> i < (t2_shape x).2 ->
  denotes (t2_shape x).1 (col_get x i) (fun j => cell_val x j i).
Proof.
  intros Hw Hi. apply denotes_col_get; [done..|].
  intros j Hj. unfold cell_val.
  destruct (cell_lt x j i Hw Hj Hi) as [y ->]. done.
Qed.

(** Solves [denotes n e ?phi] for a tensor expression [e] by following its
    structure. *)
Ltac denote :=
  repeat first
    [ eassumption
    | apply denotes_scalar
    | eapply denotes_where
    | eapply denotes_lift2
    | eapply denotes_lift1 ].

Ltac denote_ext :=
  eapply denotes_ext; [ | solve [denote] ]; intros; reflexivity.

Section Params.
Variable n : nat.
Variables kappa theta sigma dt : Tensor F.
Hypothesis Hkappa : broadcastable n kappa.
Hypothesis Htheta : broadcastable n theta.
Hypothesis Hsigma : broadcastable n sigma.
Hypothesis Hdt : broadcastable n dt.

Let K := path_val kappa.
Let Th := path_val theta.
Let Sg := path_val sigma.
Let D := path_val dt.

Lemma exp_denotes :
  denotes n (exp_ kappa dt) (fun j => spec_exp_term (K j) (D j)).
Proof using Hkappa Hdt.
  pose proof (denotes_param n kappa Hkappa).
  pose proof (denotes_param n dt Hdt).
  unfold exp_, texp, tmul, tneg. denote_ext.
Qed.

Lemma m_denotes v V :
  denotes n v V ->
  denotes n (m_ kappa theta dt v) (fun j => spec_m_of (K j) (Th j) (D j) (V j)).
Proof using Hkappa Htheta Hdt.
  intros Hv. pose proof exp_denotes.
  pose proof (denotes_param n theta Htheta).
  unfold m_, tadd, tmul, tsub. denote_ext.
Qed.

Lemma s2_denotes v V :
  denotes n v V ->
  denotes n (s2_ kappa theta sigma dt v)
    (fun j => spec_s2_of (K j) (Th j) (Sg j) (D j) (V j)).
Proof using Hkappa Htheta Hsigma Hdt.
  intros Hv. pose proof exp_denotes.
  pose proof (denotes_param n kappa Hkappa).
  pose proof (denotes_param n theta Htheta).
  pose proof (denotes_param n sigma Hsigma).
  unfold s2_, tadd, tmul, tsub, tdiv, tsqr. denote_ext.
Qed.

Lemma psi_denotes v V :
  denotes n v V ->
  denotes n (psi_ kappa theta sigma dt v)
    (fun j => spec_psi_of (K j) (Th j) (Sg j) (D j) (V j)).
Proof using Hkappa Htheta Hsigma Hdt.
  intros Hv. pose proof (m_denotes v V Hv). pose proof (s2_denotes v V Hv).
  unfold psi_, EPSILON, tadd, tdiv, tsqr. denote_ext.
Qed.

Lemma next_denotes v z u V Z U :
  denotes n v V -> denotes n z Z -> denotes n u U ->
  denotes n (next_ kappa theta sigma dt v z u)
    (fun j => spec_next (K j) (Th j) (Sg j) (D j) (V j) (Z j) (U j)).
Proof using Hkappa Htheta Hsigma Hdt.
  intros Hv Hz Hu.
  pose proof (m_denotes v V Hv). pose proof (psi_denotes v V Hv).
  unfold next_, next_0_, next_1_, pinv_, beta_, p_, a_, b_, PSI_CRIT, EPSILON,
    zeros_like, tadd, tsub, tmul, tdiv, tsqr, tsqrt, tlog, tle, tgt.
  denote_ext.
Qed.
End Params.
End StepSpec.

(** ** The loop *)

Section Loop.
Context {F : Type} `{Elem F}.
Variables n T : nat.
Variables kappa theta sigma dt : Tensor F.
Hypothesis Hkappa : broadcastable n kappa.
Hypothesis Htheta : broadcastable n theta.
Hypothesis Hsigma : broadcastable n sigma.
Hypothesis Hdt : broadcastable n dt.
Variables randn rand : Tensor2 F.
Hypothesis Hrandn : wf2 randn /\ t2_shape randn = (n, T).
Hypothesis Hrand : wf2 rand /\ t2_shape rand = (n, T).

Lemma qe_step_ok (output : Tensor2 F) (i : nat) :
  wf2 output -> t2_shape output = (n, T) -> i + 1 < T ->
  exists output',
    qe_step kappa theta sigma dt randn rand output i = Ok output' /\
    wf2 output' /\ t2_shape output' = (n, T) /\
    (forall j i', i' <> i + 1 -> cell output' j i' = cell output j i') /\
    (forall j, j < n ->
       cell output' j (i + 1) = Some (spec_cell kappa theta sigma dt randn rand j i
                      (cell_val output j i))).
Proof using Hkappa Htheta Hsigma Hdt Hrandn Hrand.
  intros Hw Hs Hi. destruct Hrandn as [Hwz Hsz], Hrand as [Hwu Hsu].
  assert (denotes n (col_get output i) (fun j => cell_val output j i)) as Hv.
  { replace n with (t2_shape output).1 by (by rewrite Hs).
    apply denotes_column; [done|]. rewrite Hs. simpl. lia. }
  assert (denotes n (col_get randn i) (fun j => cell_val randn j i)) as Hz.
  { replace n with (t2_shape randn).1 by (by rewrite Hsz).
    apply denotes_column; [done|]. rewrite Hsz. simpl. lia. }
  assert (denotes n (col_get rand i) (fun j => cell_val rand j i)) as Hu.
  { replace n with (t2_shape rand).1 by (by rewrite Hsu).
    apply denotes_column; [done|]. rewrite Hsu. simpl. lia. }
  destruct (next_denotes n kappa theta sigma dt Hkappa Htheta Hsigma Hdt
              _ _ _ _ _ _ Hv Hz Hu) as (val & Hval & Hb & Hat).
  unfold qe_step. rewrite Hval. cbn [mbind result_bind].
  destruct (col_set_ok output (i + 1) val) as (output' & -> & Hw' & Hs' & Hc & Hf);
    [done|rewrite Hs; done|by rewrite Hs|].
  exists output'. split; [done|]. split; [done|]. split; [congruence|].
  split; [done|]. intros j Hj. rewrite Hc by (by rewrite Hs).
  by rewrite Hat.
Qed.

Lemma loop_ok (m k : nat) (output : Tensor2 F) :
  wf2 output -> t2_shape output = (n, T) -> k + m < T ->
  exists output',
    for_each (qe_step kappa theta sigma dt randn rand) (seq k m) output
      = Ok output' /\
    wf2 output' /\ t2_shape output' = (n, T) /\
    (forall j i', i' <= k -> cell output' j i' = cell output j i') /\
    (forall i j, k <= i < k + m -> j < n ->
       cell output' j (i + 1)
       = Some (spec_cell kappa theta sigma dt randn rand j i
                 (cell_val output' j i))).
Proof using Hkappa Htheta Hsigma Hdt Hrandn Hrand.
  revert k output. induction m as [|m IH]; intros k output Hw Hs Hk.
  - exists output. split; [done|]. split; [done|]. split; [done|].
    split; [done|]. intros; lia.
  - cbn [seq for_each].
    destruct (qe_step_ok output k Hw Hs) as (o1 & -> & Hw1 & Hs1 & Hf1 & Hn1);
      [lia|].
    cbn [mbind result_bind].
    destruct (IH (S k) o1 Hw1 Hs1) as (o2 & -> & Hw2 & Hs2 & Hf2 & Hn2);
      [lia|].
    exists o2. split; [done|]. split; [done|]. split; [done|]. split.
    + intros j i' Hi'. rewrite Hf2 by lia. apply Hf1. lia.
    + intros i j Hi Hj. destruct (decide (i = k)) as [->|Hne].
      * unfold cell_val. rewrite !Hf2 by lia. rewrite Hn1 by done.
        rewrite Hf1 by lia. done.
      * apply Hn2; [lia|done].
Qed.
End Loop.

(** ** The whole call *)

Section Generate.
Context {F : Type} `{Elem F} {G : Type} `{Generator F G}.

Lemma generate_cir_unfold (mem : nat -> nat -> F) n_paths n_steps
  (init_state : InitState F) (kappa theta sigma dt : TensorOrFloat F)
  (g : G) :
  generate_cir mem n_paths n_steps init_state kappa theta sigma dt g =
  match started mem n_paths n_steps init_state with
  | Raise e => (g, Raise e)
  | Ok output =>
      (state_after_draws g (t2_shape output),
       stepped kappa theta sigma dt (draws_randn g (t2_shape output))
         (draws_rand g (t2_shape output)) n_steps output)
  end.
Proof.
  unfold generate_cir, started, stepped, state_after_draws, draws_randn,
    draws_rand.
  destruct (_ ≫= _) as [output|e]; [|done].
  destruct (randn_like g (t2_shape output)) as [zs g1]. simpl.
  destruct (rand_like g1 (t2_shape output)) as [us g2]. done.
Qed.

Lemma started_ok (mem : nat -> nat -> F) n_paths n_steps
  (init_state : InitState F) (x0 : Tensor F) :
  valid_start n_paths n_steps init_state x0 ->
  exists output,
    started mem n_paths n_steps init_state = Ok output /\
    wf2 output /\ t2_shape output = (Z.to_nat n_paths, Z.to_nat n_steps) /\
    (forall j, j < Z.to_nat n_paths -> cell output j 0 = at_path x0 j) /\
    (forall j i, i <> 0 ->
       cell output j i
       = cell (tabulate2 (Z.to_nat n_paths) (Z.to_nat n_steps) mem) j i).
Proof.
  intros (Hn & Ht & Hx & Hb). unfold started, torch_empty, tuple_get.
  rewrite decide_True by lia. rewrite Hx. cbn [mbind result_bind].
  destruct (col_set_ok
              (tabulate2 (Z.to_nat n_paths) (Z.to_nat n_steps) mem) 0 x0)
    as (output & -> & Hw & Hs & Hc & Hf).
  - apply wf2_tabulate2.
  - simpl. lia.
  - done.
  - exists output. done.
Qed.

Lemma generate_cir_ok (mem : nat -> nat -> F) n_paths n_steps
  (init_state : InitState F) (kappa theta sigma dt : TensorOrFloat F)
  (g : G) (x0 : Tensor F) :
  valid_start n_paths n_steps init_state x0 ->
  valid_params n_paths kappa theta sigma dt ->
  let shape := (Z.to_nat n_paths, Z.to_nat n_steps) in
  exists output,
    generate_cir mem n_paths n_steps init_state kappa theta sigma dt g
      = (state_after_draws g shape, Ok output) /\
    wf2 output /\ t2_shape output = shape /\
    (forall j, j < shape.1 -> cell output j 0 = at_path x0 j) /\
    (forall i j, i + 1 < shape.2 -> j < shape.1 ->
       cell output j (i + 1)
       = Some (spec_next (path_val (as_tensor kappa) j)
                 (path_val (as_tensor theta) j)
                 (path_val (as_tensor sigma) j)
                 (path_val (as_tensor dt) j)
                 (cell_val output j i)
                 (draws_randn g shape j i) (draws_rand g shape j i))).
Proof.
  intros Hstart (Hk & Hth & Hsg & Hdt) shape.
  rewrite generate_cir_unfold.
  destruct (started_ok mem _ _ _ _ Hstart) as (o0 & -> & Hw0 & Hs0 & Hc0 & _).
  destruct Hstart as (Hn & Ht & _ & _).
  unfold stepped, range. rewrite Hs0. cbn [fst snd].
  set (randn := tabulate2 _ _ (draws_randn _ _)).
  set (rand := tabulate2 _ _ (draws_rand _ _)).
  destruct (loop_ok (Z.to_nat n_paths) (Z.to_nat n_steps) _ _ _ _
              Hk Hth Hsg Hdt randn rand
              (conj (wf2_tabulate2 _ _ _) eq_refl)
              (conj (wf2_tabulate2 _ _ _) eq_refl)
              (Z.to_nat (n_steps - 1)) 0 o0 Hw0 Hs0)
    as (output & -> & Hw & Hs & Hf & Hn').
  { lia. }
  exists output. split; [done|]. split; [done|]. split; [done|]. split.
  - intros j Hj. rewrite Hf by lia. by apply Hc0.
  - intros i j Hi Hj. simpl in Hi, Hj. rewrite Hn' by (done || lia).
    unfold spec_cell, cell_val at 2 3. subst randn rand.
    rewrite !cell_tabulate2 by lia. done.
Qed.
End Generate.

(** ** What the result depends on *)

Section Dependence.
Context {F : Type} `{Elem F}.

Lemma cell_ge (x : Tensor2 F) j i :
  wf2 x -> (t2_shape x).1 <= j -> cell x j i = None.
Proof.
  intros [Hn _] Hj. unfold cell.
  rewrite (proj2 (lookup_ge_None (t2_rows x) j)) by lia. done.
Qed.

Lemma cell_col_ge (x : Tensor2 F) j i :
  wf2 x -> (t2_shape x).2 <= i -> cell x j i = None.
Proof.
  intros [_ Hr] Hi. unfold cell.
  destruct (t2_rows x !! j) as [row|] eqn:Hrow; [|done]. simpl.
  apply lookup_ge_None. rewrite Forall_lookup in Hr.
  rewrite (Hr _ _ Hrow). done.
Qed.

Lemma col_get_agree k (x y : Tensor2 F) i :
  agree_below k x y -> i < k -> col_get x i = col_get y i.
Proof.
  intros (Hs & Hwx & Hwy & Hc) Hi.
  destruct (decide (i < (t2_shape x).2)) as [Hlt|Hge].
  - destruct (col_get_ok x i Hwx Hlt) as (l1 & -> & _ & H1).
    destruct (col_get_ok y i Hwy) as (l2 & -> & _ & H2); [by rewrite <- Hs|].
    do 2 f_equal. apply list_eq. intros j. rewrite H1, H2. by apply Hc.
  - rewrite !col_get_index_error; [done|by rewrite <- Hs|done].
Qed.

Lemma col_set_agree k (x y : Tensor2 F) val :
  agree_below k x y ->
  same_result (S k) (col_set x k val) (col_set y k val).
Proof.
  intros (Hs & Hwx & Hwy & Hc).
  destruct (decide (k < (t2_shape x).2)) as [Hlt|Hge].
  - destruct (decide (broadcastable (t2_shape x).1 val)) as [Hb|Hnb].
    + destruct (col_set_ok x k val Hwx Hlt Hb)
        as (x' & -> & Hwx' & Hsx' & Hcx & Hfx).
      destruct (col_set_ok y k val Hwy)
        as (y' & -> & Hwy' & Hsy' & Hcy & Hfy);
        [by rewrite <- Hs|by rewrite <- Hs|].
      split; [congruence|]. split; [done|]. split; [done|].
      intros j i Hi. destruct (decide (i = k)) as [->|Hne].
      * destruct (decide (j < (t2_shape x).1)) as [Hj|Hj].
        -- rewrite Hcx, Hcy; [done|by rewrite <- Hs|done].
        -- rewrite !cell_ge; [done|done|rewrite Hsy', <- Hs; lia|done|
             rewrite Hsx'; lia].
      * rewrite Hfx, Hfy by done. apply Hc. lia.
    + rewrite !col_set_mismatch; [done|by rewrite <- Hs..|done|done].
  - rewrite !col_set_index_error; [done|by rewrite <- Hs|done].
Qed.

Section Runs.
Variables kappa theta sigma dt : Tensor F.
Variables randn1 rand1 randn2 rand2 : Tensor2 F.

Lemma qe_step_agree k (x y : Tensor2 F) :
  agree_below (S k) x y ->
  col_get randn1 k = col_get randn2 k ->
  col_get rand1 k = col_get rand2 k ->
  same_result (S (S k))
    (qe_step kappa theta sigma dt randn1 rand1 x k)
    (qe_step kappa theta sigma dt randn2 rand2 y k).
Proof.
  intros Ha Hz Hu. unfold qe_step.
  rewrite (col_get_agree (S k) x y k Ha) by lia. rewrite Hz, Hu.
  destruct (next_ _ _ _ _ _ _ _) as [val|e]; [|done].
  cbn [mbind result_bind]. replace (k + 1) with (S k) by lia.
  by apply col_set_agree.
Qed.

Lemma loop_agree m k (x y : Tensor2 F) :
  agree_below (S k) x y ->
  (forall i, k <= i < k + m ->
     col_get randn1 i = col_get randn2 i /\
     col_get rand1 i = col_get rand2 i) ->
  same_result (S (k + m))
    (for_each (qe_step kappa theta sigma dt randn1 rand1) (seq k m) x)
    (for_each (qe_step kappa theta sigma dt randn2 rand2) (seq k m) y).
Proof.
  revert k x y. induction m as [|m IH]; intros k x y Ha Hd.
  - cbn [seq for_each same_result]. by rewrite Nat.add_0_r.
  - cbn [seq for_each].
    destruct (Hd k) as [Hz Hu]; [lia|].
    pose proof (qe_step_agree k x y Ha Hz Hu) as Hstep.
    destruct (qe_step _ _ _ _ randn1 _ _ _) as [x'|e1],
             (qe_step _ _ _ _ randn2 _ _ _) as [y'|e2];
      cbn [mbind result_bind same_result] in *; try done.
    replace (S (k + S m)) with (S (S k + m)) by lia.
    apply IH; [done|]. intros i Hi. apply Hd. lia.
Qed.
End Runs.

(** Grids with the same columns throughout are the same grid. *)
Lemma agree_below_eq k (x y : Tensor2 F) :
  agree_below k x y -> (t2_shape x).2 <= k -> x = y.
Proof.
  intros (Hs & Hwx & Hwy & Hc) Hk.
  assert (forall j i, cell x j i = cell y j i) as Hall.
  { intros j i. destruct (decide (i < k)); [by apply Hc|].
    rewrite !cell_col_ge; [done|done|rewrite <- Hs; lia|done|lia]. }
  destruct x as [sx rx], y as [sy ry]. simpl in *. subst sy. f_equal.
  destruct Hwx as [Hnx Hrx], Hwy as [Hny Hry]. simpl in *.
  apply list_eq. intros j. specialize (Hall j). unfold cell in Hall.
  simpl in Hall. rewrite Forall_lookup in Hrx. rewrite Forall_lookup in Hry.
  destruct (rx !! j) as [r1|] eqn:E1, (ry !! j) as [r2|] eqn:E2.
  - f_equal. apply list_eq. intros i. apply (Hall i).
  - apply lookup_lt_Some in E1. apply lookup_ge_None in E2. lia.
  - apply lookup_lt_Some in E2. apply lookup_ge_None in E1. lia.
  - done.
Qed.

Lemma col_get_tabulate2_ext n t (f1 f2 : nat -> nat -> F) i :
  (forall j, j < n -> f1 j i = f2 j i) ->
  col_get (tabulate2 n t f1) i = col_get (tabulate2 n t f2) i.
Proof.
  intros Hf.
  destruct (decide (i < t)) as [Hi|Hi].
  - destruct (col_get_ok (tabulate2 n t f1) i (wf2_tabulate2 _ _ _) Hi)
      as (l1 & -> & Hl1 & H1).
    destruct (col_get_ok (tabulate2 n t f2) i (wf2_tabulate2 _ _ _) Hi)
      as (l2 & -> & Hl2 & H2).
    do 2 f_equal. apply list_eq. intros j. rewrite H1, H2.
    destruct (decide (j < n)) as [Hj|Hj].
    + rewrite !cell_tabulate2 by done. by rewrite Hf.
    + rewrite !cell_ge; [done|apply wf2_tabulate2|simpl; lia
                        |apply wf2_tabulate2|simpl; lia].
  - rewrite !col_get_index_error; done.
Qed.

(** The grid before the loop does not depend on the fresh memory beyond
    column 0, which the first assignment fills. *)
Lemma started_agree mem1 mem2 n_paths n_steps (init_state : InitState F) :
  same_result 1 (started mem1 n_paths n_steps init_state)
    (started mem2 n_paths n_steps init_state).
Proof.
  unfold started, torch_empty.
  destruct (decide (0 <= n_paths /\ 0 <= n_steps)%Z); [|done].
  cbn [mbind result_bind].
  destruct (tuple_get (init_tuple init_state) 0) as [x0|e]; [|done].
  cbn [mbind result_bind]. apply col_set_agree.
  split; [done|]. split; [apply wf2_tabulate2|].
  split; [apply wf2_tabulate2|]. intros; lia.
Qed.

Lemma col_set_shape (x x' : Tensor2 F) i val :
  col_set x i val = Ok x' -> t2_shape x' = t2_shape x.
Proof.
  unfold col_set. intros Hx.
  repeat (case_decide || case_match); by simplify_eq.
Qed.

Lemma loop_shape body_z body_u kappa theta sigma dt xs (x x' : Tensor2 F) :
  for_each (qe_step kappa theta sigma dt body_z body_u) xs x = Ok x' ->
  t2_shape x' = t2_shape x.
Proof.
  revert x. induction xs as [|i xs IH]; intros x Hx; cbn [for_each] in Hx.
  - by simplify_eq.
  - destruct (qe_step _ _ _ _ _ _ x i) as [x1|e] eqn:E; [|done].
    cbn [mbind result_bind] in Hx. rewrite (IH _ Hx).
    unfold qe_step in E. destruct (next_ _ _ _ _ _ _ _) as [val|e]; [|done].
    cbn [mbind result_bind] in E. by apply col_set_shape in E.
Qed.

(** The result of the loop is the same for two grids that agree on column 0
    and two pairs of draw arrays that agree on every column but the last. *)
Lemma stepped_agree kappa theta sigma dt zs1 us1 zs2 us2 n_steps
  (x y : Tensor2 F) :
  agree_below 1 x y ->
  (t2_shape x).2 = Z.to_nat n_steps ->
  (forall j i, j < (t2_shape x).1 -> i + 1 < (t2_shape x).2 ->
     zs1 j i = zs2 j i /\ us1 j i = us2 j i) ->
  stepped kappa theta sigma dt zs1 us1 n_steps x
  = stepped kappa theta sigma dt zs2 us2 n_steps y.
Proof.
  intros Ha Ht Hd. unfold stepped, range.
  pose proof Ha as (Hs & Hwx & Hwy & _). rewrite <- Hs.
  pose proof (loop_agree (as_tensor kappa) (as_tensor theta)
    (as_tensor sigma) (as_tensor dt)
    (tabulate2 (t2_shape x).1 (t2_shape x).2 zs1)
    (tabulate2 (t2_shape x).1 (t2_shape x).2 us1)
    (tabulate2 (t2_shape x).1 (t2_shape x).2 zs2)
    (tabulate2 (t2_shape x).1 (t2_shape x).2 us2)
    (Z.to_nat (n_steps - 1)) 0 x y Ha) as Hloop.
  assert (forall i, 0 <= i < 0 + Z.to_nat (n_steps - 1) ->
    col_get (tabulate2 (t2_shape x).1 (t2_shape x).2 zs1) i
    = col_get (tabulate2 (t2_shape x).1 (t2_shape x).2 zs2) i /\
    col_get (tabulate2 (t2_shape x).1 (t2_shape x).2 us1) i
    = col_get (tabulate2 (t2_shape x).1 (t2_shape x).2 us2) i) as Hcols.
  { intros i Hi. split; apply col_get_tabulate2_ext; intros j Hj;
      apply Hd; (done || lia). }
  specialize (Hloop Hcols).
  destruct (for_each _ _ x) as [x'|e1] eqn:E1,
           (for_each _ _ y) as [y'|e2] eqn:E2;
    cbn [same_result] in Hloop; try done.
  - f_equal. eapply agree_below_eq; [apply Hloop|].
    rewrite (loop_shape _ _ _ _ _ _ _ _ _ E1). lia.
  - by f_equal.
Qed.

(** The result of a call depends on the draws only, and only on those of
    the columns before the last: not on the fresh memory, and not on the
    generator otherwise. *)
Lemma generate_cir_depends {G1 G2 : Type} `{Generator F G1} `{Generator F G2}
  mem1 mem2 n_paths n_steps (init_state : InitState F)
  (kappa theta sigma dt : TensorOrFloat F) (g1 : G1) (g2 : G2) :
  let shape := (Z.to_nat n_paths, Z.to_nat n_steps) in
  (forall j i, j < shape.1 -> i + 1 < shape.2 ->
     draws_randn g1 shape j i = draws_randn g2 shape j i /\
     draws_rand g1 shape j i = draws_rand g2 shape j i) ->
  (generate_cir mem1 n_paths n_steps init_state kappa theta sigma dt g1).2
  = (generate_cir mem2 n_paths n_steps init_state kappa theta sigma dt g2).2.
Proof.
  intros shape Hd. rewrite !generate_cir_unfold.
  pose proof (started_agree mem1 mem2 n_paths n_steps init_state) as Hst.
  assert (forall o, started mem1 n_paths n_steps init_state = Ok o ->
            t2_shape o = shape) as Hshape.
  { intros o. unfold started, torch_empty.
    case_decide; [|done]. cbn [mbind result_bind].
    destruct (tuple_get _ _); [|done]. cbn [mbind result_bind].
    intros Ho. by apply col_set_shape in Ho. }
  destruct (started mem1 _ _ _) as [x|e1], (started mem2 _ _ _) as [y|e2];
    cbn [same_result] in Hst; try done; [|by simplify_eq].
  cbn [snd]. specialize (Hshape x eq_refl).
  pose proof Hst as (Hs & _). rewrite <- Hs, Hshape.
  apply stepped_agree; [done|by rewrite Hshape|].
  rewrite Hshape. apply Hd.
Qed.
End Dependence.

(** ** Shapes that do not broadcast *)

Lemma dominated_refl {A} (a : Tensor A) : dominated a a.
Proof. destruct a; simpl; auto. Qed.

Lemma dominated_trans {A B C} (a : Tensor A) (b : Tensor B) (c : Tensor C) :
  dominated a b -> dominated b c -> dominated a c.
Proof. destruct a, b, c; simpl; try tauto. lia. Qed.

Lemma dominated_tmap {A B} (f : A -> B) (a : Tensor A) :
  dominated a (tmap f a).
Proof. destruct a; simpl; [done|]. rewrite length_fmap. auto. Qed.

Lemma map2_dominates {A B C} (f : A -> B -> C) a b c :
  map2 f a b = Ok c -> dominated a c /\ dominated b c.
Proof.
  destruct a as [x|l1], b as [y|l2]; cbn [map2]; intros Hc.
  - simplify_eq. done.
  - simplify_eq. simpl. rewrite length_fmap. auto.
  - simplify_eq. simpl. rewrite length_fmap. auto.
  - case_decide as E.
    + simplify_eq. simpl. rewrite length_zip_with. lia.
    + destruct l1 as [|x [|x' l1]], l2 as [|y [|y' l2]]; simplify_eq;
        simpl; rewrite ?length_fmap; simpl; auto.
Qed.

Lemma map2_only_mismatch {A B C} (f : A -> B -> C) a b :
  only_mismatch (map2 f a b).
Proof.
  intros e. destruct a as [x|l1], b as [y|l2]; cbn [map2]; try done.
  case_decide; [done|].
  destruct l1 as [|x [|x' l1]], l2 as [|y [|y' l2]]; congruence.
Qed.

Lemma dominated_broadcastable {A B} n (a : Tensor A) (c : Tensor B) :
  dominated a c -> broadcastable n c -> broadcastable n a.
Proof. destruct a, c; simpl; try tauto. lia. Qed.

Lemma reaches_refl {A} (a : Tensor A) : reaches a (ok_tensor a).
Proof. intros c [= <-]. apply dominated_refl. Qed.

Lemma reaches_lift1 {A B C} (f : B -> C) (a : Tensor A) r :
  reaches a r -> reaches a (lift1 f r).
Proof.
  intros Hr c. destruct r as [t|e]; [|done]. intros [= <-].
  eapply dominated_trans; [by apply Hr|]. apply dominated_tmap.
Qed.

Lemma reaches_lift2_l {A B C D} (f : B -> C -> D) (a : Tensor A) r1 r2 :
  reaches a r1 -> reaches a (lift2 f r1 r2).
Proof.
  intros Hr c. destruct r1 as [t1|e]; [|done]. destruct r2 as [t2|e]; [|done].
  cbn. intros Hc. apply map2_dominates in Hc as [H1 _].
  eapply dominated_trans; [by apply Hr|done].
Qed.

Lemma reaches_lift2_r {A B C D} (f : B -> C -> D) (a : Tensor A) r1 r2 :
  reaches a r2 -> reaches a (lift2 f r1 r2).
Proof.
  intros Hr c. destruct r1 as [t1|e]; [|done]. destruct r2 as [t2|e]; [|done].
  cbn. intros Hc. apply map2_dominates in Hc as [_ H2].
  eapply dominated_trans; [by apply Hr|done].
Qed.

Lemma only_mismatch_ok {A} (a : A) : only_mismatch (Ok a).
Proof. intros e. done. Qed.

Lemma only_mismatch_lift1 {A B} (f : A -> B) r :
  only_mismatch r -> only_mismatch (lift1 f r).
Proof. intros Hr e. destruct r as [t|e']; [done|]. intros [= <-]. auto. Qed.

Lemma only_mismatch_lift2 {A B C} (f : A -> B -> C) r1 r2 :
  only_mismatch r1 -> only_mismatch r2 -> only_mismatch (lift2 f r1 r2).
Proof.
  intros H1 H2 e. destruct r1 as [t1|e1]; [|intros [= <-]; auto].
  destruct r2 as [t2|e2]; [|intros [= <-]; auto].
  apply map2_only_mismatch.
Qed.

Section Mismatch.
Context {F : Type} `{Elem F}.
Variables kappa theta sigma dt : Tensor F.

Ltac unfold_step :=
  unfold next_, next_0_, next_1_, pinv_, beta_, p_, a_, b_, psi_, s2_, m_,
    exp_, torch_where, PSI_CRIT, EPSILON, scalar, zeros_like, tadd, tsub,
    tmul, tdiv, tneg, tsqr, tsqrt, texp, tlog, tle, tgt.

Ltac find_operand :=
  solve
    [ apply reaches_refl
    | apply reaches_lift1; find_operand
    | apply reaches_lift2_l; find_operand
    | apply reaches_lift2_r; find_operand ].

Lemma next_only_mismatch v z u :
  only_mismatch v -> only_mismatch z -> only_mismatch u ->
  only_mismatch (next_ kappa theta sigma dt v z u).
Proof.
  intros Hv Hz Hu. unfold_step.
  repeat first
    [ assumption
    | apply only_mismatch_ok
    | apply only_mismatch_lift2
    | apply only_mismatch_lift1 ].
Qed.

(** Every parameter, and the column read, is an operand of the value
    written. *)
Lemma next_reaches (v : Tensor F) z u :
  let r := next_ kappa theta sigma dt (ok_tensor v) z u in
  reaches kappa r /\ reaches theta r /\ reaches sigma r /\ reaches dt r /\
  reaches v r.
Proof.
  intros r. subst r. unfold_step.
  repeat split.
  all: do 4 apply reaches_lift2_l.
  all: find_operand.
Qed.
End Mismatch.

Section MismatchRuns.
Context {F : Type} `{Elem F}.

Lemma qe_step_mismatch n T (kappa theta sigma dt : Tensor F)
  (randn rand output : Tensor2 F) i :
  wf2 output -> t2_shape output = (n, T) ->
  wf2 randn -> t2_shape randn = (n, T) ->
  wf2 rand -> t2_shape rand = (n, T) ->
  i + 1 < T ->
  ~ (broadcastable n kappa /\ broadcastable n theta /\
     broadcastable n sigma /\ broadcastable n dt) ->
  qe_step kappa theta sigma dt randn rand output i = Raise ShapeMismatch.
Proof.
  intros Hw Hs Hwz Hsz Hwu Hsu Hi Hbad. unfold qe_step.
  destruct (col_get_ok output i Hw) as (lv & -> & _ & _);
    [rewrite Hs; simpl; lia|].
  destruct (col_get_ok randn i Hwz) as (lz & -> & _ & _);
    [rewrite Hsz; simpl; lia|].
  destruct (col_get_ok rand i Hwu) as (lu & -> & _ & _);
    [rewrite Hsu; simpl; lia|].
  pose proof (next_reaches kappa theta sigma dt (T1 lv) (Ok (T1 lz))
                (Ok (T1 lu))) as (Hk & Hth & Hsg & Hdt & _).
  pose proof (next_only_mismatch kappa theta sigma dt (Ok (T1 lv))
                (Ok (T1 lz)) (Ok (T1 lu)) (only_mismatch_ok _)
                (only_mismatch_ok _) (only_mismatch_ok _)) as Hom.
  change (Ok (T1 lv)) with (ok_tensor (T1 lv)) in *.
  destruct (next_ _ _ _ _ _ _ _) as [val|e].
  - cbn [mbind result_bind]. apply col_set_mismatch.
    + rewrite Hs. done.
    + rewrite Hs. cbn [fst]. intros Hb. apply Hbad.
      repeat split; eapply dominated_broadcastable; eauto.
  - cbn [mbind result_bind]. f_equal. by apply Hom.
Qed.
End MismatchRuns.

(** ** The states of the loop *)

Lemma for_each_app {S} (body : S -> nat -> result S) (xs ys : list nat)
  (s : S) :
  for_each body (xs ++ ys) s = (s' ← for_each body xs s; for_each body ys s').
Proof.
  revert s. induction xs as [|i xs IH]; intros s; cbn [for_each app].
  - done.
  - destruct (body s i) as [s1|e]; cbn [mbind result_bind]; [apply IH|done].
Qed.

Section LoopStates.
Context {F : Type} `{Elem F} {G : Type} `{Generator F G}.

(** The call returns the state of the loop after its n_steps - 1
    iterations. *)
Lemma generate_cir_loop_state (mem : nat -> nat -> F) n_paths n_steps
  (init_state : InitState F) (kappa theta sigma dt : TensorOrFloat F)
  (g : G) :
  (generate_cir mem n_paths n_steps init_state kappa theta sigma dt g).2
  = loop_state mem n_paths n_steps init_state kappa theta sigma dt g
      (Z.to_nat (n_steps - 1)).
Proof.
  rewrite generate_cir_unfold. unfold loop_state.
  destruct (started mem n_paths n_steps init_state) as [output|e]; done.
Qed.

(** One more iteration. *)
Lemma loop_state_S (mem : nat -> nat -> F) n_paths n_steps
  (init_state : InitState F) (kappa theta sigma dt : TensorOrFloat F)
  (g : G) (i : nat) (before : Tensor2 F) :
  loop_state mem n_paths n_steps init_state kappa theta sigma dt g i
    = Ok before ->
  loop_state mem n_paths n_steps init_state kappa theta sigma dt g (S i)
  = qe_step (as_tensor kappa) (as_tensor theta) (as_tensor sigma)
      (as_tensor dt)
      (tabulate2 (t2_shape before).1 (t2_shape before).2
         (draws_randn g (t2_shape before)))
      (tabulate2 (t2_shape before).1 (t2_shape before).2
         (draws_rand g (t2_shape before)))
      before i.
Proof.
  unfold loop_state.
  destruct (started mem n_paths n_steps init_state) as [output|e]; [|done].
  cbn [mbind result_bind]. intros E.
  rewrite seq_S, for_each_app, E. cbn [mbind result_bind for_each plus].
  rewrite (loop_shape _ _ _ _ _ _ _ _ _ E).
  by destruct (qe_step _ _ _ _ _ _ before i).
Qed.

(** The state of the loop when iteration [i] begins, in a call that returns:
    a grid of the shape of the result whose columns 0, ..., i are those of
    the result. *)
Lemma loop_state_ok (mem : nat -> nat -> F) n_paths n_steps
  (init_state : InitState F) (kappa theta sigma dt : TensorOrFloat F)
  (g : G) (x0 : Tensor F) (i : nat) :
  valid_start n_paths n_steps init_state x0 ->
  valid_params n_paths kappa theta sigma dt ->
  i < Z.to_nat n_steps ->
  exists before,
    loop_state mem n_paths n_steps init_state kappa theta sigma dt g i
      = Ok before /\
    wf2 before /\ t2_shape before = (Z.to_nat n_paths, Z.to_nat n_steps) /\
    forall output,
      (generate_cir mem n_paths n_steps init_state kappa theta sigma dt g).2
        = Ok output ->
      forall j i', i' <= i -> cell output j i' = cell before j i'.
Proof.
  intros Hstart (Hk & Hth & Hsg & Hdt) Hi.
  rewrite generate_cir_loop_state. unfold loop_state.
  destruct (started_ok mem _ _ _ _ Hstart) as (o0 & -> & Hw0 & Hs0 & _ & _).
  destruct Hstart as (Hn & Ht & _ & _).
  cbn [mbind result_bind]. rewrite Hs0. cbn [fst snd].
  set (randn := tabulate2 _ _ (draws_randn _ _)).
  set (rand := tabulate2 _ _ (draws_rand _ _)).
  destruct (loop_ok (Z.to_nat n_paths) (Z.to_nat n_steps) _ _ _ _
              Hk Hth Hsg Hdt randn rand
              (conj (wf2_tabulate2 _ _ _) eq_refl)
              (conj (wf2_tabulate2 _ _ _) eq_refl)
              i 0 o0 Hw0 Hs0) as (before & E & Hw & Hs & _ & _); [lia|].
  exists before. split; [done|]. split; [done|]. split; [done|].
  intros output.
  replace (Z.to_nat (n_steps - 1)) with (i + (Z.to_nat n_steps - 1 - i))
    by lia.
  rewrite seq_app, for_each_app, E. cbn [mbind result_bind plus].
  destruct (loop_ok (Z.to_nat n_paths) (Z.to_nat n_steps) _ _ _ _
              Hk Hth Hsg Hdt randn rand
              (conj (wf2_tabulate2 _ _ _) eq_refl)
              (conj (wf2_tabulate2 _ _ _) eq_refl)
              (Z.to_nat n_steps - 1 - i) i before Hw Hs)
    as (final & -> & _ & _ & Hf & _); [lia|].
  intros [= <-]. done.
Qed.
End LoopStates.

(** * The claims *)

Section Claims.
Context {F : Type} `{Elem F} {G : Type} `{Generator F G}.

(** C3.  For every valid call the function returns a grid of shape
    (n_paths, n_steps), with n_paths rows of n_steps entries each, whose
    column 0 is the initial state broadcast to the paths: entry (j, 0) is the
    value of [init_state[0]] on path j, for every row j. *)
Theorem output_shape_and_initial_column mem n_paths n_steps
  (init_state : InitState F) (kappa theta sigma dt : TensorOrFloat F) (g : G)
  (x0 : Tensor F) :
  valid_start n_paths n_steps init_state x0 ->
  valid_params n_paths kappa theta sigma dt ->
  exists output,
    (generate_cir mem n_paths n_steps init_state kappa theta sigma dt g).2
      = Ok output /\
    t2_shape output = (Z.to_nat n_paths, Z.to_nat n_steps) /\
    length (t2_rows output) = Z.to_nat n_paths /\
    Forall (fun row => length row = Z.to_nat n_steps) (t2_rows output) /\
    forall j, j < Z.to_nat n_paths ->
      exists x, at_path x0 j = Some x /\ cell output j 0 = Some x.
Proof.
  intros Hstart Hparams.
  destruct (generate_cir_ok mem _ _ _ _ _ _ _ g x0 Hstart Hparams)
    as (output & -> & [Hrows Hcols] & Hs & Hc0 & _).
  exists output. rewrite Hs in Hrows, Hcols. cbn [fst snd] in *.
  split; [done|]. split; [done|]. split; [done|]. split; [done|].
  intros j Hj. exists (path_val x0 j).
  destruct Hstart as (_ & _ & _ & Hb).
  rewrite Hc0 by done. split; by eapply broadcastable_at_path.
Qed.

(** C2.  At every step i of a valid call, the iteration of the loop reads
    v = output[:, i] off the grid as the iterations before left it (the
    column written by iteration i - 1, or [init_state[0]] when i = 0, and
    the column i of the result), and the tensors it computes from v are, on
    every path j: exp = exp(-kappa dt), m = theta + (v - theta) exp,
    s2 = v sigma^2 exp (1 - exp) / kappa
         + theta sigma^2 (1 - exp)^2 / (2 kappa),
    and psi = s2 / (m^2 + epsilon) with epsilon the literal 1e-8.  The test
    [psi <= PSI_CRIT] on this psi selects the column the iteration writes,
    which is the grid the next iteration begins with and column i + 1 of the
    result. *)
Theorem step_moments mem n_paths n_steps
  (init_state : InitState F) (kappa theta sigma dt : TensorOrFloat F) (g : G)
  (x0 : Tensor F) :
  valid_start n_paths n_steps init_state x0 ->
  valid_params n_paths kappa theta sigma dt ->
  let shape := (Z.to_nat n_paths, Z.to_nat n_steps) in
  let randn := tabulate2 shape.1 shape.2 (draws_randn g shape) in
  let rand := tabulate2 shape.1 shape.2 (draws_rand g shape) in
  let state := loop_state mem n_paths n_steps init_state kappa theta sigma dt
                 g in
  exists output,
    (generate_cir mem n_paths n_steps init_state kappa theta sigma dt g).2
      = Ok output /\
    spec_epsilon = f_lit (1 # 100000000) /\
    forall i, i + 1 < shape.2 ->
      exists (before after : Tensor2 F) (v e m s2 psi next : Tensor F),
        state i = Ok before /\
        col_get before i = Ok v /\
        exp_ (as_tensor kappa) (as_tensor dt) = Ok e /\
        m_ (as_tensor kappa) (as_tensor theta) (as_tensor dt) (Ok v) = Ok m /\
        s2_ (as_tensor kappa) (as_tensor theta) (as_tensor sigma)
          (as_tensor dt) (Ok v) = Ok s2 /\
        psi_ (as_tensor kappa) (as_tensor theta) (as_tensor sigma)
          (as_tensor dt) (Ok v) = Ok psi /\
        torch_where (tle (Ok psi) PSI_CRIT)
          (next_0_ (as_tensor kappa) (as_tensor theta) (as_tensor sigma)
             (as_tensor dt) (Ok v) (col_get randn i))
          (next_1_ (as_tensor kappa) (as_tensor theta) (as_tensor sigma)
             (as_tensor dt) (Ok v) (col_get rand i)) = Ok next /\
        col_set before (i + 1) next = Ok after /\
        state (i + 1) = Ok after /\
        forall j, j < shape.1 ->
          exists k th sg d x y : F,
            at_path (as_tensor kappa) j = Some k /\
            at_path (as_tensor theta) j = Some th /\
            at_path (as_tensor sigma) j = Some sg /\
            at_path (as_tensor dt) j = Some d /\
            at_path v j = Some x /\
            cell before j i = Some x /\
            cell output j i = Some x /\
            let exp_term := spec_exp_term k d in
            let mean := spec_m th x exp_term in
            let var := spec_s2 k th sg x exp_term in
            at_path e j = Some exp_term /\
            at_path m j = Some mean /\
            at_path s2 j = Some var /\
            at_path psi j = Some (spec_psi var mean) /\
            at_path next j = Some y /\
            cell after j (i + 1) = Some y /\
            cell output j (i + 1) = Some y.
Proof.
  intros Hstart Hparams shape randn rand state.
  destruct (generate_cir_ok mem _ _ _ _ _ _ _ g x0 Hstart Hparams)
    as (output & Eout & _ & _ & _ & _).
  rewrite Eout. cbn [snd].
  exists output. split; [done|]. split; [done|]. intros i Hi.
  subst shape state. cbn [fst snd] in *.
  destruct (loop_state_ok mem _ _ _ kappa theta sigma dt g x0 i Hstart
              Hparams ltac:(lia)) as (before & Eb & Hwb & Hsb & Hcb).
  destruct (loop_state_ok mem _ _ _ kappa theta sigma dt g x0 (i + 1) Hstart
              Hparams ltac:(lia)) as (after & Ea & Hwa & Hsa & Hca).
  pose proof (loop_state_S mem _ _ _ kappa theta sigma dt g i before Eb)
    as Estep.
  replace (S i) with (i + 1) in Estep by lia.
  rewrite Ea, Hsb in Estep. cbn [fst snd] in Estep. fold randn rand in Estep.
  specialize (Hcb output ltac:(by rewrite Eout)).
  specialize (Hca output ltac:(by rewrite Eout)).
  destruct Hparams as (Hk & Hth & Hsg & Hdt).
  assert (denotes (Z.to_nat n_paths) (col_get before i)
            (fun j => cell_val before j i)) as Hv.
  { replace (Z.to_nat n_paths) with (t2_shape before).1 by (by rewrite Hsb).
    apply denotes_column; [done|]. rewrite Hsb. simpl. lia. }
  assert (denotes (Z.to_nat n_paths) (col_get randn i)
            (fun j => cell_val randn j i)) as Hz.
  { apply (denotes_column randn i); [apply wf2_tabulate2|simpl; lia]. }
  assert (denotes (Z.to_nat n_paths) (col_get rand i)
            (fun j => cell_val rand j i)) as Hu.
  { apply (denotes_column rand i); [apply wf2_tabulate2|simpl; lia]. }
  destruct Hv as (v & Ev & Hbv & Hv).
  assert (denotes (Z.to_nat n_paths) (Ok v) (fun j => cell_val before j i))
    as Hv' by (by exists v).
  destruct (exp_denotes _ _ _ Hk Hdt) as (e & Ee & _ & He).
  destruct (m_denotes _ _ _ _ Hk Hth Hdt _ _ Hv') as (m & Em & _ & Hm).
  destruct (s2_denotes _ _ _ _ _ Hk Hth Hsg Hdt _ _ Hv') as (s2 & Es & _ & H2).
  destruct (psi_denotes _ _ _ _ _ Hk Hth Hsg Hdt _ _ Hv')
    as (psi & Ep & _ & Hp).
  destruct (next_denotes _ _ _ _ _ Hk Hth Hsg Hdt _ _ _ _ _ _ Hv' Hz Hu)
    as (next & En & Hbn & Hn).
  unfold qe_step in Estep. rewrite Ev, En in Estep.
  cbn [mbind result_bind] in Estep.
  destruct (col_set_ok before (i + 1) next Hwb) as (after' & Eset & _ & _
                                                    & Hset & _);
    [rewrite Hsb; simpl; lia|by rewrite Hsb|].
  rewrite Hsb in Hset. cbn [fst] in Hset.
  assert (after' = after) as -> by congruence.
  exists before, after, v, e, m, s2, psi, next.
  split; [done|]. split; [done|]. split; [done|]. split; [done|].
  split; [done|]. split; [done|]. split.
  { unfold next_ in En. by rewrite Ep in En. }
  split; [done|]. split; [done|].
  intros j Hj.
  exists (path_val (as_tensor kappa) j), (path_val (as_tensor theta) j),
    (path_val (as_tensor sigma) j), (path_val (as_tensor dt) j),
    (cell_val before j i),
    (spec_next (path_val (as_tensor kappa) j) (path_val (as_tensor theta) j)
       (path_val (as_tensor sigma) j) (path_val (as_tensor dt) j)
       (cell_val before j i) (cell_val randn j i) (cell_val rand j i)).
  do 4 (split; [by eapply broadcastable_at_path|]).
  split; [by apply Hv|].
  assert (cell before j i = Some (cell_val before j i)) as Hcell.
  { unfold cell_val. destruct (cell_lt before j i Hwb) as [y ->];
      rewrite ?Hsb; simpl; (done || lia). }
  split; [done|]. split; [by rewrite Hcb|]. cbv zeta.
  rewrite He, Hm, H2, Hp, Hn by done.
  do 5 (split; [done|]).
  rewrite Hca by done. rewrite Hset by done. by rewrite Hn.
Qed.

(** C1.  For every step index i from 0 to n_steps - 2 and every path j of a
    valid call, entry (j, i + 1) of the grid is selected by the regime test
    on that path's psi (computed from entry (j, i)): where psi <= 1.5 it is
    the low-variance value a (b + Z)^2 for the path's normal draw Z of step i;
    where psi > 1.5 it is the high-variance value for the path's uniform draw
    U of step i, namely pinv where U > p and the literal 0 where U <= p.
    The selection is per path: nothing relates the branch of one path to
    that of another. *)
Theorem regime_selection `{!ElemOrder F} mem n_paths n_steps
  (init_state : InitState F) (kappa theta sigma dt : TensorOrFloat F) (g : G)
  (x0 : Tensor F) :
  valid_start n_paths n_steps init_state x0 ->
  valid_params n_paths kappa theta sigma dt ->
  let shape := (Z.to_nat n_paths, Z.to_nat n_steps) in
  exists output,
    (generate_cir mem n_paths n_steps init_state kappa theta sigma dt g).2
      = Ok output /\
    forall i j, i + 1 < shape.2 -> j < shape.1 ->
      exists k th sg d v : F,
        at_path (as_tensor kappa) j = Some k /\
        at_path (as_tensor theta) j = Some th /\
        at_path (as_tensor sigma) j = Some sg /\
        at_path (as_tensor dt) j = Some d /\
        cell output j i = Some v /\
        let m := spec_m_of k th d v in
        let psi := spec_psi_of k th sg d v in
        let z := draws_randn g shape j i in
        let u := draws_rand g shape j i in
        (f_le psi spec_psi_crit = true ->
           cell output j (i + 1) = Some (spec_low m psi z)) /\
        (f_gt psi spec_psi_crit = true -> f_gt u (spec_p psi) = true ->
           cell output j (i + 1) = Some (spec_pinv m psi u)) /\
        (f_gt psi spec_psi_crit = true -> f_le u (spec_p psi) = true ->
           cell output j (i + 1) = Some (f_lit 0)).
Proof.
  intros Hstart Hparams shape. subst shape. cbn [fst snd].
  destruct (generate_cir_ok mem _ _ _ _ _ _ _ g x0 Hstart Hparams)
    as (output & -> & Hw & Hs & _ & Hnext).
  destruct Hparams as (Hk & Hth & Hsg & Hdt).
  exists output. split; [done|]. intros i j Hi Hj.
  exists (path_val (as_tensor kappa) j), (path_val (as_tensor theta) j),
    (path_val (as_tensor sigma) j), (path_val (as_tensor dt) j),
    (cell_val output j i).
  do 4 (split; [by eapply broadcastable_at_path|]).
  split.
  { unfold cell_val. destruct (cell_lt output j i Hw) as [y ->];
      rewrite ?Hs; simpl in *; (done || lia). }
  cbv zeta. rewrite (Hnext i j Hi Hj). unfold spec_next, spec_select.
  split; [by intros ->|]. unfold spec_high. split.
  - intros Hpsi Hu. by rewrite (f_gt_not_le _ _ Hpsi), Hu.
  - intros Hpsi Hu. rewrite (f_gt_not_le _ _ Hpsi).
    destruct (f_gt (draws_rand g _ j i) _) eqn:Hgt; [|done].
    apply f_gt_not_le in Hgt. congruence.
Qed.

(** C4.  Determinism: two invocations with the same parameters and the same
    two arrays of draws return the same result, entry for entry, whatever
    the fresh memory of each holds and whatever else differs between the
    states of the generator. *)
Theorem determinism mem1 mem2 n_paths n_steps
  (init_state : InitState F) (kappa theta sigma dt : TensorOrFloat F)
  (g1 g2 : G) :
  let shape := (Z.to_nat n_paths, Z.to_nat n_steps) in
  (forall j i, j < shape.1 -> i < shape.2 ->
     draws_randn g1 shape j i = draws_randn g2 shape j i) ->
  (forall j i, j < shape.1 -> i < shape.2 ->
     draws_rand g1 shape j i = draws_rand g2 shape j i) ->
  (generate_cir mem1 n_paths n_steps init_state kappa theta sigma dt g1).2
  = (generate_cir mem2 n_paths n_steps init_state kappa theta sigma dt g2).2.
Proof.
  intros shape Hz Hu. subst shape. apply generate_cir_depends.
  intros j i Hj Hi. cbn [fst snd] in *.
  split; [apply Hz|apply Hu]; cbn [fst snd]; lia.
Qed.

(** C8.  The two arrays of draws are taken from the generator once each,
    with the shape (n_paths, n_steps) of the grid, before the loop; and the
    last column of either is never used: two calls whose draws agree on
    every column but the last return the same result. *)
Theorem last_draw_column_unused mem n_paths n_steps
  (init_state : InitState F) (kappa theta sigma dt : TensorOrFloat F)
  (g1 g2 : G) (x0 : Tensor F) :
  valid_start n_paths n_steps init_state x0 ->
  let shape := (Z.to_nat n_paths, Z.to_nat n_steps) in
  (forall j i, j < shape.1 -> i + 1 < shape.2 ->
     draws_randn g1 shape j i = draws_randn g2 shape j i /\
     draws_rand g1 shape j i = draws_rand g2 shape j i) ->
  (generate_cir mem n_paths n_steps init_state kappa theta sigma dt g1).1
    = (rand_like (randn_like g1 shape).2 shape).2 /\
  (generate_cir mem n_paths n_steps init_state kappa theta sigma dt g1).2
  = (generate_cir mem n_paths n_steps init_state kappa theta sigma dt g2).2.
Proof.
  intros Hstart shape Hd. split.
  - rewrite generate_cir_unfold.
    destruct (started_ok mem _ _ _ _ Hstart) as (o0 & -> & _ & -> & _).
    done.
  - by apply generate_cir_depends.
Qed.

(** C10.  A bare float or tensor given as [init_state] is treated as the
    1-tuple that holds it, and of a tuple only element 0 matters: trailing
    elements change nothing. *)
Theorem init_state_normalization mem n_paths n_steps
  (x : TensorOrFloat F) (kappa theta sigma dt : TensorOrFloat F) (g : G) :
  generate_cir mem n_paths n_steps (Bare x) kappa theta sigma dt g
  = generate_cir mem n_paths n_steps (Tuple [x]) kappa theta sigma dt g /\
  forall rest : list (TensorOrFloat F),
    generate_cir mem n_paths n_steps (Tuple (x :: rest)) kappa theta sigma dt g
    = generate_cir mem n_paths n_steps (Tuple [x]) kappa theta sigma dt g.
Proof. split; [|intros rest]; reflexivity. Qed.

(** C7, amended.  When n_steps is 1 the function returns the one-column grid
    of the broadcast initial state, whatever the parameters, the fresh memory
    and the draws are: no step is taken and no draw is used.  The two
    n_paths x 1 arrays of draws are still taken from the generator, which is
    left in the state that follows them. *)
Theorem single_step_grid mem n_paths
  (init_state : InitState F) (kappa theta sigma dt : TensorOrFloat F) (g : G)
  (x0 : Tensor F) :
  valid_start n_paths 1 init_state x0 ->
  generate_cir mem n_paths 1 init_state kappa theta sigma dt g
  = ((rand_like (randn_like g (Z.to_nat n_paths, 1)).2
        (Z.to_nat n_paths, 1)).2,
     Ok (tabulate2 (Z.to_nat n_paths) 1 (fun j _ => path_val x0 j))).
Proof.
  intros Hstart. rewrite generate_cir_unfold.
  destruct (started_ok mem _ _ _ _ Hstart) as (o0 & -> & Hw & Hs & Hc & _).
  rewrite Hs. unfold stepped, state_after_draws. cbn [range for_each].
  change (Z.to_nat 1) with 1. cbn [Z.sub Z.add Z.to_nat Z.opp seq for_each].
  do 2 f_equal. apply (agree_below_eq 1); [|by rewrite Hs].
  split; [by rewrite Hs|]. split; [done|]. split; [apply wf2_tabulate2|].
  intros j i Hi. assert (i = 0) as -> by lia.
  destruct Hstart as (_ & _ & _ & Hb).
  destruct (decide (j < Z.to_nat n_paths)) as [Hj|Hj].
  - rewrite Hc by done. rewrite cell_tabulate2 by lia.
    by eapply broadcastable_at_path.
  - rewrite !cell_ge; [done|apply wf2_tabulate2|simpl; lia|done
                      |rewrite Hs; simpl; lia].
Qed.

(** C9, amended.  On a call with n_paths >= 0 and n_steps >= 1: if
    init_state[0] does not broadcast against the path dimension the call
    fails with ShapeMismatch at the first assignment, before any draw is
    taken; if it does, n_steps >= 2 and one of kappa, theta, sigma, dt does
    not broadcast, the call fails with ShapeMismatch in the first step,
    after the draws were taken; in both cases no grid is returned.  With
    n_steps = 1 the shapes of kappa, theta, sigma and dt are never looked
    at.  In every other case the function returns a grid of shape
    (n_paths, n_steps). *)
Theorem shape_mismatch_policy mem n_paths n_steps
  (init_state : InitState F) (kappa theta sigma dt : TensorOrFloat F) (g : G)
  (x0 : Tensor F) :
  (0 <= n_paths)%Z -> (1 <= n_steps)%Z ->
  init_tuple init_state !! 0 = Some x0 ->
  let shape := (Z.to_nat n_paths, Z.to_nat n_steps) in
  let call :=
    generate_cir mem n_paths n_steps init_state kappa theta sigma dt g in
  (~ broadcastable shape.1 x0 -> call = (g, Raise ShapeMismatch)) /\
  (broadcastable shape.1 x0 -> (2 <= n_steps)%Z ->
   ~ valid_params n_paths kappa theta sigma dt ->
   call = (state_after_draws g shape, Raise ShapeMismatch)) /\
  (broadcastable shape.1 x0 ->
   n_steps = 1%Z \/ valid_params n_paths kappa theta sigma dt ->
   exists output,
     call = (state_after_draws g shape, Ok output) /\
     wf2 output /\ t2_shape output = shape).
Proof.
  intros Hn Ht Hx shape call. subst call. rewrite generate_cir_unfold.
  split; [|split].
  - intros Hb. unfold started, torch_empty, tuple_get.
    rewrite decide_True by lia. rewrite Hx. cbn [mbind result_bind].
    rewrite col_set_mismatch; [done|simpl; lia|done].
  - intros Hb Ht2 Hbad.
    destruct (started_ok mem n_paths n_steps init_state x0)
      as (o0 & -> & Hw & Hs & _); [done|].
    rewrite Hs. f_equal. unfold stepped, range. rewrite Hs. cbn [fst snd].
    replace (Z.to_nat (n_steps - 1)) with (S (Z.to_nat (n_steps - 2)))
      by lia.
    cbn [seq for_each].
    rewrite (qe_step_mismatch (Z.to_nat n_paths) (Z.to_nat n_steps));
      [done|done|done|apply wf2_tabulate2|done|apply wf2_tabulate2|done| |done].
    lia.
  - intros Hb [->|Hparams].
    + destruct (started_ok mem n_paths 1 init_state x0)
        as (o0 & -> & Hw & Hs & _); [done|].
      exists o0. rewrite Hs. done.
    + destruct (generate_cir_ok mem n_paths n_steps init_state kappa theta
                  sigma dt g x0) as (output & Hcall & Hw & Hs & _);
        [done|done|].
      rewrite generate_cir_unfold in Hcall. exists output. done.
Qed.
End Claims.

(** * The claims at work on exact arithmetic *)

#[export] Instance xreal_order : ElemOrder xreal.
Proof.
  intros x y. destruct x as [a| | |], y as [b| | |]; simpl; try done.
  destruct (Rlt_dec b a), (Rle_dec a b); try done. lra.
Qed.

(** [generate_cir(2, 3)] with the default parameters is a valid call. *)
Lemma ex_valid_start :
  valid_start 2 3 ex_init (T0 (Fin 0.04)).
Proof. repeat split; (lia || done). Defined.

Lemma ex_valid_params :
  valid_params 2 ex_kappa ex_theta ex_sigma ex_dt.
Proof. repeat split. Defined.

(** C3 on [generate_cir(2, 3)] with the default parameters. *)
Lemma output_shape_and_initial_column_witness :
  exists output,
    (generate_cir ex_mem 2 3 ex_init ex_kappa ex_theta ex_sigma ex_dt
       ex_tape).2 = Ok output /\
    t2_shape output = (2, 3) /\
    length (t2_rows output) = 2 /\
    Forall (fun row => length row = 3) (t2_rows output) /\
    forall j, j < 2 ->
      exists x, at_path (T0 (Fin 0.04)) j = Some x /\
                cell output j 0 = Some x.
Proof.
  exact (output_shape_and_initial_column ex_mem 2 3 ex_init ex_kappa ex_theta
           ex_sigma ex_dt ex_tape (T0 (Fin 0.04)) ex_valid_start
           ex_valid_params).
Defined.

(** C2 on [generate_cir(2, 3)] with the default parameters. *)
Lemma step_moments_witness :
  let randn := tabulate2 2 3 (draws_randn ex_tape (2, 3)) in
  let rand := tabulate2 2 3 (draws_rand ex_tape (2, 3)) in
  let state :=
    loop_state ex_mem 2 3 ex_init ex_kappa ex_theta ex_sigma ex_dt ex_tape in
  exists output,
    (generate_cir ex_mem 2 3 ex_init ex_kappa ex_theta ex_sigma ex_dt
       ex_tape).2 = Ok output /\
    spec_epsilon = f_lit (1 # 100000000) /\
    forall i, i + 1 < 3 ->
      exists (before after : Tensor2 xreal) (v e m s2 psi next : Tensor xreal),
        state i = Ok before /\
        col_get before i = Ok v /\
        exp_ (as_tensor ex_kappa) (as_tensor ex_dt) = Ok e /\
        m_ (as_tensor ex_kappa) (as_tensor ex_theta) (as_tensor ex_dt) (Ok v)
          = Ok m /\
        s2_ (as_tensor ex_kappa) (as_tensor ex_theta) (as_tensor ex_sigma)
          (as_tensor ex_dt) (Ok v) = Ok s2 /\
        psi_ (as_tensor ex_kappa) (as_tensor ex_theta) (as_tensor ex_sigma)
          (as_tensor ex_dt) (Ok v) = Ok psi /\
        torch_where (tle (Ok psi) PSI_CRIT)
          (next_0_ (as_tensor ex_kappa) (as_tensor ex_theta)
             (as_tensor ex_sigma) (as_tensor ex_dt) (Ok v) (col_get randn i))
          (next_1_ (as_tensor ex_kappa) (as_tensor ex_theta)
             (as_tensor ex_sigma) (as_tensor ex_dt) (Ok v) (col_get rand i))
        = Ok next /\
        col_set before (i + 1) next = Ok after /\
        state (i + 1) = Ok after /\
        forall j, j < 2 ->
          exists k th sg d x y : xreal,
            at_path (as_tensor ex_kappa) j = Some k /\
            at_path (as_tensor ex_theta) j = Some th /\
            at_path (as_tensor ex_sigma) j = Some sg /\
            at_path (as_tensor ex_dt) j = Some d /\
            at_path v j = Some x /\
            cell before j i = Some x /\
            cell output j i = Some x /\
            at_path e j = Some (spec_exp_term k d) /\
            at_path m j = Some (spec_m th x (spec_exp_term k d)) /\
            at_path s2 j = Some (spec_s2 k th sg x (spec_exp_term k d)) /\
            at_path psi j
            = Some (spec_psi (spec_s2 k th sg x (spec_exp_term k d))
                      (spec_m th x (spec_exp_term k d))) /\
            at_path next j = Some y /\
            cell after j (i + 1) = Some y /\
            cell output j (i + 1) = Some y.
Proof.
  exact (step_moments ex_mem 2 3 ex_init ex_kappa ex_theta ex_sigma ex_dt
           ex_tape (T0 (Fin 0.04)) ex_valid_start ex_valid_params).
Defined.

(** C1 on [generate_cir(2, 3)] with the default parameters. *)
Lemma regime_selection_witness :
  exists output,
    (generate_cir ex_mem 2 3 ex_init ex_kappa ex_theta ex_sigma ex_dt
       ex_tape).2 = Ok output /\
    forall i j, i + 1 < 3 -> j < 2 ->
      exists k th sg d v : xreal,
        at_path (as_tensor ex_kappa) j = Some k /\
        at_path (as_tensor ex_theta) j = Some th /\
        at_path (as_tensor ex_sigma) j = Some sg /\
        at_path (as_tensor ex_dt) j = Some d /\
        cell output j i = Some v /\
        let m := spec_m_of k th d v in
        let psi := spec_psi_of k th sg d v in
        let z := draws_randn ex_tape (2, 3) j i in
        let u := draws_rand ex_tape (2, 3) j i in
        (f_le psi spec_psi_crit = true ->
           cell output j (i + 1) = Some (spec_low m psi z)) /\
        (f_gt psi spec_psi_crit = true -> f_gt u (spec_p psi) = true ->
           cell output j (i + 1) = Some (spec_pinv m psi u)) /\
        (f_gt psi spec_psi_crit = true -> f_le u (spec_p psi) = true ->
           cell output j (i + 1) = Some (f_lit 0)).
Proof.
  exact (regime_selection ex_mem 2 3 ex_init ex_kappa ex_theta ex_sigma ex_dt
           ex_tape (T0 (Fin 0.04)) ex_valid_start ex_valid_params).
Defined.

Lemma ex_same_draws j i :
  j < 2 -> i < 3 ->
  draws_randn ex_tape (2, 3) j i = draws_randn ex_tape_longer (2, 3) j i /\
  draws_rand ex_tape (2, 3) j i = draws_rand ex_tape_longer (2, 3) j i.
Proof.
  intros Hj Hi.
  destruct j as [|[|j]]; [| |lia]; (destruct i as [|[|[|i]]]; [| | |lia]);
    split; reflexivity.
Defined.

(** C4 on two calls that differ in the fresh memory and in the tape beyond
    the twelve draws taken. *)
Lemma determinism_witness :
  (generate_cir ex_mem 2 3 ex_init ex_kappa ex_theta ex_sigma ex_dt ex_tape).2
  = (generate_cir (fun _ _ => PInf) 2 3 ex_init ex_kappa ex_theta ex_sigma
       ex_dt ex_tape_longer).2.
Proof.
  exact (determinism ex_mem (fun _ _ => PInf) 2 3 ex_init ex_kappa ex_theta
           ex_sigma ex_dt ex_tape ex_tape_longer
           (fun j i Hj Hi => proj1 (ex_same_draws j i Hj Hi))
           (fun j i Hj Hi => proj2 (ex_same_draws j i Hj Hi))).
Defined.

Lemma ex_same_draws_but_last j i :
  j < 2 -> i + 1 < 3 ->
  draws_randn ex_tape (2, 3) j i = draws_randn ex_tape_last (2, 3) j i /\
  draws_rand ex_tape (2, 3) j i = draws_rand ex_tape_last (2, 3) j i.
Proof.
  intros Hj Hi.
  destruct j as [|[|j]]; [| |lia]; (destruct i as [|[|i]]; [| |lia]);
    split; reflexivity.
Defined.

(** C8 on two tapes that differ in the last column of both arrays. *)
Lemma last_draw_column_unused_witness :
  (generate_cir ex_mem 2 3 ex_init ex_kappa ex_theta ex_sigma ex_dt ex_tape).1
    = (rand_like (randn_like ex_tape (2, 3)).2 (2, 3)).2 /\
  (generate_cir ex_mem 2 3 ex_init ex_kappa ex_theta ex_sigma ex_dt ex_tape).2
  = (generate_cir ex_mem 2 3 ex_init ex_kappa ex_theta ex_sigma ex_dt
       ex_tape_last).2.
Proof.
  exact (last_draw_column_unused ex_mem 2 3 ex_init ex_kappa ex_theta ex_sigma
           ex_dt ex_tape ex_tape_last (T0 (Fin 0.04)) ex_valid_start
           ex_same_draws_but_last).
Defined.

(** C7 as stated fails: a call with n_steps = 1 takes its two arrays of
    draws all the same.  On two paths the tape has lost four draws when the
    call returns. *)
Lemma single_step_takes_draws :
  (generate_cir ex_mem 2 1 ex_init ex_kappa ex_theta ex_sigma ex_dt
     ex_tape).1 = drop 4 ex_tape /\
  length (drop 4 ex_tape) = 8 /\ length ex_tape = 12.
Proof. repeat split. Qed.

Lemma ex_valid_single : valid_start 2 1 ex_init (T0 (Fin 0.04)).
Proof. repeat split; (lia || done). Defined.

(** C7, amended, on [generate_cir(2, 1)] with the default parameters. *)
Lemma single_step_grid_witness :
  generate_cir ex_mem 2 1 ex_init ex_kappa ex_theta ex_sigma ex_dt ex_tape
  = ((rand_like (randn_like ex_tape (2, 1)).2 (2, 1)).2,
     Ok (tabulate2 2 1 (fun j _ => path_val (T0 (Fin 0.04)) j))).
Proof.
  exact (single_step_grid ex_mem 2 ex_init ex_kappa ex_theta ex_sigma ex_dt
           ex_tape (T0 (Fin 0.04)) ex_valid_single).
Defined.

(** C9 as stated fails: with n_steps = 1 a kappa of shape (3,), which does
    not broadcast against 2 paths, goes unnoticed and the grid is returned. *)
Lemma single_step_ignores_shapes :
  generate_cir ex_mem 2 1 ex_init ex_kappa3 ex_theta ex_sigma ex_dt ex_tape
  = (drop 4 ex_tape, Ok (mkTensor2 (2, 1) [[Fin 0.04]; [Fin 0.04]])) /\
  ~ broadcastable 2 (as_tensor ex_kappa3).
Proof. split; [reflexivity|]. simpl. lia. Qed.

(** C9, amended, on a call with a kappa of shape (3,) on 2 paths. *)
Lemma shape_mismatch_policy_witness :
  let shape := (2, 3) in
  let call :=
    generate_cir ex_mem 2 3 ex_init ex_kappa3 ex_theta ex_sigma ex_dt
      ex_tape in
  (~ broadcastable shape.1 (T0 (Fin 0.04)) ->
   call = (ex_tape, Raise ShapeMismatch)) /\
  (broadcastable shape.1 (T0 (Fin 0.04)) -> (2 <= 3)%Z ->
   ~ valid_params 2 ex_kappa3 ex_theta ex_sigma ex_dt ->
   call = (state_after_draws ex_tape shape, Raise ShapeMismatch)) /\
  (broadcastable shape.1 (T0 (Fin 0.04)) ->
   3%Z = 1%Z \/ valid_params 2 ex_kappa3 ex_theta ex_sigma ex_dt ->
   exists output,
     call = (state_after_draws ex_tape shape, Ok output) /\
     wf2 output /\ t2_shape output = shape).
Proof.
  exact (shape_mismatch_policy ex_mem 2 3 ex_init ex_kappa3 ex_theta ex_sigma
           ex_dt ex_tape (T0 (Fin 0.04)) ltac:(lia) ltac:(lia) eq_refl).
Defined.

(** * The numeric claims *)

(** ** The operations on finite operands *)

Section ExactArithmetic.
Local Open Scope R_scope.

Lemma Rsign_pos r : 0 < r -> Rsign r = Gt.
Proof.
  intros Hr. unfold Rsign.
  destruct (Rlt_dec r 0); [lra|]. destruct (Rlt_dec 0 r); [done|lra].
Qed.

Lemma Rsign_neg r : r < 0 -> Rsign r = Lt.
Proof. intros Hr. unfold Rsign. destruct (Rlt_dec r 0); [done|lra]. Qed.

Lemma Rsign_zero : Rsign 0 = Eq.
Proof.
  unfold Rsign. destruct (Rlt_dec 0 0); [lra|]. done.
Qed.

Lemma xdiv_fin a b : 0 < b -> xdiv (Fin a) (Fin b) = Fin (a / b).
Proof. intros Hb. unfold xdiv. by rewrite (Rsign_pos b Hb). Qed.

Lemma xdiv_pos_zero a : 0 < a -> xdiv (Fin a) (Fin 0) = PInf.
Proof. intros Ha. unfold xdiv. by rewrite Rsign_zero, (Rsign_pos a Ha). Qed.

Lemma xsqrt_fin a : 0 <= a -> xsqrt (Fin a) = Fin (sqrt a).
Proof.
  intros Ha. unfold xsqrt, Rsign.
  destruct (Rlt_dec a 0); [lra|]. by destruct (Rlt_dec 0 a).
Qed.

Lemma xlog_fin a : 0 < a -> xlog (Fin a) = Fin (ln a).
Proof. intros Ha. unfold xlog. by rewrite (Rsign_pos a Ha). Qed.

Lemma xle_fin a b : xle (Fin a) (Fin b) = true <-> a <= b.
Proof. unfold xle. destruct (Rle_dec a b); split; (done || lra). Qed.

Lemma xgt_fin a b : xgt (Fin a) (Fin b) = true <-> b < a.
Proof. unfold xgt. destruct (Rlt_dec b a); split; (done || lra). Qed.

Lemma xmul_zero_inf : xmul (Fin 0) PInf = NaN.
Proof. unfold xmul, xinf_scaled. by rewrite Rsign_zero. Qed.

Lemma lit_0 : Q2R 0 = 0.
Proof. unfold Q2R. simpl. lra. Qed.

Lemma lit_1 : Q2R 1 = 1.
Proof. unfold Q2R. simpl. lra. Qed.

Lemma lit_2 : Q2R 2 = 2.
Proof. unfold Q2R. simpl. lra. Qed.

Lemma lit_psi_crit : Q2R (3 # 2) = 3 / 2.
Proof. unfold Q2R. simpl. lra. Qed.

Lemma lit_epsilon : Q2R (1 # 100000000) = 1 / 100000000.
Proof. unfold Q2R. simpl. lra. Qed.
End ExactArithmetic.

Arguments xdiv : simpl never.
Arguments xsqrt : simpl never.
Arguments xlog : simpl never.
Arguments xle : simpl never.
Arguments xgt : simpl never.

(** ** sigma = 0 *)

Section SigmaZero.
Local Open Scope R_scope.

Lemma xadd_nan_r x : xadd x NaN = NaN.
Proof. by destruct x. Qed.

Lemma xmul_nan_r x : xmul x NaN = NaN.
Proof. by destruct x. Qed.

Lemma xgt_nan_r x : xgt x NaN = false.
Proof. by destruct x. Qed.

(** With sigma = 0 the variance s2 is 0, and so is psi. *)
Lemma sigma_zero_psi kappa theta dt v :
  0 < kappa ->
  spec_psi_of (Fin kappa) (Fin theta) (Fin 0) (Fin dt) (Fin v) = Fin 0.
Proof.
  intros Hk.
  unfold spec_psi_of, spec_psi, spec_s2_of, spec_s2, spec_m_of, spec_m,
    spec_exp_term, spec_one, spec_two, spec_epsilon.
  cbn [f_lit f_add f_sub f_mul f_div f_neg f_sqr f_exp xreal_elem
       xadd xsub xmul xneg xexp].
  rewrite lit_1, lit_2, lit_epsilon.
  rewrite !xdiv_fin by lra. cbn [xadd].
  rewrite xdiv_fin.
  - f_equal. unfold Rdiv. ring.
  - set (m := theta + (v + - theta) * exp (- kappa * dt)).
    pose proof (Rle_0_sqr m) as Hm. unfold Rsqr in Hm. lra.
Qed.

(** At psi = 0 the low-variance formula is 0 * inf: 2 / psi is +inf, so are
    b and 1 + b^2, a = m / inf is 0, and (b + Z)^2 is +inf or nan. *)
Lemma low_at_zero_psi m z : spec_low (Fin m) (Fin 0) z = NaN.
Proof.
  unfold spec_low, spec_a, spec_b, spec_b2, spec_one, spec_two.
  cbn [f_lit f_add f_sub f_mul f_div f_sqr f_sqrt xreal_elem].
  rewrite lit_1, lit_2. rewrite xdiv_pos_zero by lra.
  change (xsub PInf (Fin 1)) with PInf.
  change (xsqrt PInf) with PInf. cbn [xmul xadd].
  change (xsqrt PInf) with PInf. cbn [xmul xadd].
  change (xdiv (Fin m) PInf) with (Fin 0).
  destruct z as [r| | |]; cbn [xadd xmul]; try done; apply xmul_zero_inf.
Qed.

Lemma sigma_zero_next kappa theta dt v z u :
  0 < kappa ->
  spec_next (Fin kappa) (Fin theta) (Fin 0) (Fin dt) (Fin v) z u = NaN.
Proof.
  intros Hk. unfold spec_next, spec_select.
  rewrite (sigma_zero_psi kappa theta dt v Hk).
  unfold spec_psi_crit. cbn [f_le f_lit xreal_elem].
  rewrite (proj2 (xle_fin 0 (Q2R (3 # 2)))) by (rewrite lit_psi_crit; lra).
  apply low_at_zero_psi.
Qed.

(** From nan the next value is the zero of the high-variance branch: psi and
    p are nan, and neither psi <= 1.5 nor U > p holds. *)
Lemma nan_next kappa theta sigma dt z u :
  spec_next kappa theta sigma dt NaN z u = Fin 0.
Proof.
  unfold spec_next, spec_select, spec_high, spec_p, spec_psi_of, spec_psi,
    spec_s2_of, spec_s2, spec_m_of, spec_m.
  cbn [f_lit f_add f_sub f_mul f_div f_neg f_sqr f_exp f_le f_gt xreal_elem].
  change (xsub NaN theta) with NaN. change (xmul NaN ?x) with NaN.
  rewrite xadd_nan_r. change (xmul NaN ?x) with NaN.
  change (xdiv NaN ?x) with NaN. change (xadd NaN ?x) with NaN.
  change (xdiv NaN ?x) with NaN. change (xle NaN ?x) with false.
  change (xsub NaN ?x) with NaN. change (xdiv NaN ?x) with NaN.
  rewrite xgt_nan_r. by rewrite lit_0.
Qed.

Lemma sigma_zero_column_next kappa theta dt x0 i z u :
  0 < kappa ->
  spec_next (Fin kappa) (Fin theta) (Fin 0) (Fin dt) (sigma_zero_column x0 i)
    z u = sigma_zero_column x0 (S i).
Proof.
  intros Hk. unfold sigma_zero_column at 2. rewrite Nat.odd_succ.
  destruct i as [|i].
  - cbn. by apply sigma_zero_next.
  - cbn [sigma_zero_column]. rewrite <- Nat.negb_odd.
    destruct (Nat.odd (S i)); cbn [negb].
    + apply nan_next.
    + by apply sigma_zero_next.
Qed.
End SigmaZero.

(** C6: the code departs from the claim.  With sigma = 0, kappa > 0 and
    finite theta, dt and X0, the grid is not the mean-reverting trajectory
    theta + (X0 - theta) exp(-kappa t dt): whatever the draws, column 0 is X0,
    every odd column is nan and every even column after 0 is 0. *)
Theorem sigma_zero_grid {G : Type} `{Generator xreal G} mem n_paths n_steps
  (kappa theta dt x0 : R) (g : G) :
  (0 <= n_paths)%Z -> (1 <= n_steps)%Z -> (0 < kappa)%R -> (0 < dt)%R ->
  exists output,
    (generate_cir mem n_paths n_steps (Tuple [PyFloat (Fin x0)])
       (PyFloat (Fin kappa)) (PyFloat (Fin theta)) (PyFloat (Fin 0))
       (PyFloat (Fin dt)) g).2 = Ok output /\
    forall i j, i < Z.to_nat n_steps -> j < Z.to_nat n_paths ->
      cell output j i = Some (sigma_zero_column x0 i).
Proof.
  intros Hn Ht Hk Hdt.
  destruct (generate_cir_ok mem n_paths n_steps (Tuple [PyFloat (Fin x0)])
              (PyFloat (Fin kappa)) (PyFloat (Fin theta)) (PyFloat (Fin 0))
              (PyFloat (Fin dt)) g (T0 (Fin x0)))
    as (output & -> & Hw & Hs & H0 & Hnext).
  { repeat split; (done || lia). }
  { repeat split. }
  exists output. split; [done|]. cbn [fst snd] in *.
  intros i j Hi Hj. induction i as [|i IH].
  - by rewrite H0.
  - replace (S i) with (i + 1)%nat by lia.
    rewrite Hnext by (done || lia).
    unfold cell_val. rewrite IH by lia. cbn [default path_val at_path as_tensor].
    f_equal. replace (i + 1)%nat with (S i) by lia.
    by apply sigma_zero_column_next.
Qed.

Example sigma_zero_row :
  sigma_zero_column 0.04 <$> [0; 1; 2; 3] = [Fin 0.04; NaN; Fin 0; NaN].
Proof. reflexivity. Qed.

(** [generate_cir(1, 4, sigma=0.0)], the other parameters at their defaults:
    the claim gives the constant row 0.04 (X0 = theta), the code gives
    0.04, nan, 0, nan. *)
Lemma sigma_zero_grid_witness :
  exists output,
    (generate_cir ex_mem 1 4 (Tuple [PyFloat (Fin 0.04)])
       (PyFloat (Fin 1)) (PyFloat (Fin 0.04)) (PyFloat (Fin 0))
       (PyFloat (Fin (1 / 250))) ex_tape).2 = Ok output /\
    forall i j, i < 4 -> j < 1 ->
      cell output j i = Some (sigma_zero_column 0.04 i).
Proof.
  refine (sigma_zero_grid ex_mem 1 4 1 0.04 (1 / 250) 0.04 ex_tape
            ltac:(lia) ltac:(lia) ltac:(lra) ltac:(lra)).
Defined.

(** ** The sign of one step without rounding *)

Section Sign.
Local Open Scope R_scope.

Lemma div_mul a b : b <> 0 -> a / b * b = a.
Proof. intros Hb. field. done. Qed.

Lemma div_lt_1 a b : 0 < b -> (a / b < 1 <-> a < b).
Proof.
  intros Hb. pose proof (div_mul a b ltac:(lra)) as E.
  split; intros Hlt; nra.
Qed.

Lemma R_exp_term_bounds kappa dt :
  0 < kappa -> 0 < dt -> 0 < R_exp_term kappa dt < 1.
Proof.
  intros Hk Hd. unfold R_exp_term. split; [apply exp_pos|].
  rewrite <- exp_0. apply exp_increasing. nra.
Qed.

Lemma R_m_pos kappa theta dt v :
  0 < kappa -> 0 < theta -> 0 < dt -> 0 <= v -> 0 < R_m kappa theta dt v.
Proof.
  intros Hk Hth Hd Hv. unfold R_m.
  pose proof (R_exp_term_bounds kappa dt Hk Hd). nra.
Qed.

Lemma R_s2_pos kappa theta sigma dt v :
  0 < kappa -> 0 < theta -> 0 < sigma -> 0 < dt -> 0 <= v ->
  0 < R_s2 kappa theta sigma dt v.
Proof.
  intros Hk Hth Hsg Hd Hv. unfold R_s2.
  pose proof (R_exp_term_bounds kappa dt Hk Hd) as [He0 He1].
  set (e := R_exp_term kappa dt) in *.
  assert (0 <= v * (sigma * sigma) * e * (1 - e) / kappa).
  { apply Rmult_le_pos; [|left; by apply Rinv_0_lt_compat].
    repeat apply Rmult_le_pos; nra. }
  assert (0 < theta * (sigma * sigma) * ((1 - e) * (1 - e)) / (2 * kappa)).
  { apply Rdiv_lt_0_compat; [|lra].
    repeat apply Rmult_lt_0_compat; nra. }
  lra.
Qed.

Lemma R_psi_pos kappa theta sigma dt v :
  0 < kappa -> 0 < theta -> 0 < sigma -> 0 < dt -> 0 <= v ->
  0 < R_psi kappa theta sigma dt v.
Proof.
  intros Hk Hth Hsg Hd Hv. unfold R_psi.
  apply Rdiv_lt_0_compat; [by apply R_s2_pos|].
  pose proof (R_m_pos kappa theta dt v Hk Hth Hd Hv). nra.
Qed.

(** On finite operands with kappa > 0 the program's moments are the real
    ones. *)
Lemma spec_m_of_fin kappa theta dt v :
  spec_m_of (Fin kappa) (Fin theta) (Fin dt) (Fin v)
  = Fin (R_m kappa theta dt v).
Proof. reflexivity. Qed.

Lemma spec_psi_of_fin kappa theta sigma dt v :
  0 < kappa ->
  spec_psi_of (Fin kappa) (Fin theta) (Fin sigma) (Fin dt) (Fin v)
  = Fin (R_psi kappa theta sigma dt v).
Proof.
  intros Hk.
  unfold spec_psi_of, spec_psi, spec_s2_of, spec_s2, spec_m_of, spec_m,
    spec_exp_term, spec_one, spec_two, spec_epsilon.
  cbn [f_lit f_add f_sub f_mul f_div f_neg f_sqr f_exp xreal_elem
       xadd xsub xmul xneg xexp].
  rewrite lit_1, lit_2, lit_epsilon.
  rewrite !xdiv_fin by lra. cbn [xadd].
  rewrite xdiv_fin; [reflexivity|].
  set (m := theta + (v + - theta) * exp (- kappa * dt)).
  pose proof (Rle_0_sqr m) as Hm. unfold Rsqr in Hm. lra.
Qed.

Lemma spec_p_fin psi :
  0 < psi -> spec_p (Fin psi) = Fin (R_p psi).
Proof.
  intros Hpsi. unfold spec_p, spec_one, R_p.
  cbn [f_lit f_add f_sub f_div xreal_elem xadd xsub xneg].
  rewrite lit_1. rewrite xdiv_fin by lra. reflexivity.
Qed.

(** The low-variance value is a nonnegative number. *)
Lemma spec_low_nonneg m psi z :
  0 < m -> 0 < psi <= 3 / 2 ->
  xnonnegative (spec_low (Fin m) (Fin psi) (Fin z)).
Proof.
  intros Hm [Hpsi0 Hpsi].
  unfold spec_low, spec_a, spec_b, spec_b2, spec_one, spec_two.
  cbn [f_lit f_add f_sub f_mul f_div f_sqr f_sqrt xreal_elem].
  rewrite lit_1, lit_2. rewrite xdiv_fin by done.
  cbn [xsub xadd xneg].
  pose proof (div_mul 2 psi ltac:(lra)) as Ex.
  set (x := 2 / psi) in *.
  assert (4 / 3 <= x) as Hx by nra.
  rewrite (xsqrt_fin x) by lra. rewrite (xsqrt_fin (x + - (1))) by lra.
  cbn [xmul xadd].
  pose proof (sqrt_pos x). pose proof (sqrt_pos (x + - (1))).
  assert (0 <= sqrt x * sqrt (x + - (1))) by (by apply Rmult_le_pos).
  rewrite xsqrt_fin by lra.
  set (b := sqrt (x + - (1) + sqrt x * sqrt (x + - (1)))).
  pose proof (Rle_0_sqr b) as Hb. unfold Rsqr in Hb.
  cbn [xmul xadd]. rewrite xdiv_fin by lra. cbn [xmul xnonnegative].
  apply Rmult_le_pos.
  - left. apply Rdiv_lt_0_compat; lra.
  - pose proof (Rle_0_sqr (b + z)) as Hbz. by unfold Rsqr in Hbz.
Qed.

(** The high-variance value is a number, negative exactly when the draw
    falls in the window above p. *)
Lemma spec_high_sign m psi u :
  0 < m -> 3 / 2 < psi -> u < 1 ->
  exists r,
    spec_high (Fin m) (Fin psi) (Fin u) = Fin r /\
    (r < 0 <-> R_p psi < u < R_p psi + 1 / 100000000).
Proof.
  intros Hm Hpsi Hu.
  unfold spec_high, spec_pinv, spec_beta.
  rewrite (spec_p_fin psi) by lra.
  unfold spec_one, spec_epsilon.
  cbn [f_lit f_add f_sub f_mul f_div f_log f_gt xreal_elem xsub xadd xneg].
  rewrite lit_0, lit_1, lit_epsilon.
  set (eps := 1 / 100000000). assert (0 < eps) as Heps by (unfold eps; lra).
  set (p := R_p psi).
  assert (p < 1) as Hp.
  { subst p. unfold R_p. apply div_lt_1; lra. }
  rewrite !xdiv_fin by lra. rewrite xlog_fin by (apply Rdiv_lt_0_compat; lra).
  assert (0 < (1 + - p) / (m + eps)) as Hbeta
    by (apply Rdiv_lt_0_compat; lra).
  rewrite xdiv_fin by done.
  set (ratio := (1 + - p) / (1 + - u + eps)).
  assert (0 < ratio) as Hratio by (apply Rdiv_lt_0_compat; lra).
  assert (ratio < 1 <-> u < p + eps) as Hwin.
  { subst ratio. rewrite div_lt_1 by lra. split; lra. }
  unfold xgt. destruct (Rlt_dec p u) as [Hlt|Hge].
  - eexists. split; [reflexivity|].
    pose proof (div_mul (ln ratio) ((1 + - p) / (m + eps)) ltac:(lra)) as Er.
    set (r := ln ratio / ((1 + - p) / (m + eps))) in *.
    split.
    + intros Hr. split; [done|]. apply Hwin.
      apply ln_lt_inv; [done|lra|]. rewrite ln_1. nra.
    + intros [_ Hw]. apply Hwin in Hw.
      assert (ln ratio < 0) by (rewrite <- ln_1; by apply ln_increasing).
      nra.
  - exists 0. split; [done|]. split; lra.
Qed.
End Sign.

Section SignOfEntries.
Local Open Scope R_scope.

(** One step from a nonnegative value: the next value is a number, negative
    exactly when the path is in the high-variance regime and its uniform
    draw falls in the window p < U < p + epsilon. *)
Lemma spec_next_sign kappa theta sigma dt v z u :
  0 < kappa -> 0 < theta -> 0 < sigma -> 0 < dt -> 0 <= v -> u < 1 ->
  exists r,
    spec_next (Fin kappa) (Fin theta) (Fin sigma) (Fin dt) (Fin v) (Fin z)
      (Fin u) = Fin r /\
    (r < 0 <->
     in_epsilon_window (Fin kappa) (Fin theta) (Fin sigma) (Fin dt) (Fin v)
       (Fin u)).
Proof.
  intros Hk Hth Hsg Hd Hv Hu.
  unfold spec_next, spec_select, in_epsilon_window. cbv zeta.
  rewrite spec_m_of_fin, spec_psi_of_fin by done.
  pose proof (R_m_pos kappa theta dt v Hk Hth Hd Hv) as Hm.
  pose proof (R_psi_pos kappa theta sigma dt v Hk Hth Hsg Hd Hv) as Hpsi.
  set (m := R_m kappa theta dt v) in *.
  set (psi := R_psi kappa theta sigma dt v) in *.
  rewrite (spec_p_fin psi) by done.
  unfold spec_psi_crit, spec_epsilon.
  cbn [f_lit f_le f_gt f_add xreal_elem xadd].
  rewrite lit_psi_crit, lit_epsilon. setoid_rewrite xgt_fin.
  destruct (xle (Fin psi) (Fin (3 / 2))) eqn:Hle.
  - apply xle_fin in Hle.
    pose proof (spec_low_nonneg m psi z Hm (conj Hpsi Hle)) as Hlow.
    destruct (spec_low (Fin m) (Fin psi) (Fin z)) as [r| | |]; try done.
    exists r. split; [done|]. cbn in Hlow. split; lra.
  - assert (3 / 2 < psi) as Hgt.
    { destruct (Rle_dec psi (3 / 2)) as [Hle'|Hnle]; [|lra].
      apply xle_fin in Hle'. congruence. }
    destruct (spec_high_sign m psi u Hm Hgt Hu) as (r & -> & Hr).
    exists r. split; [done|]. rewrite Hr. split; [intros []|intros (_&?&?)];
      (done || lra).
Qed.

(** Without rounding, the steps below the guard are those whose uniform draw
    falls in the window p < u < p + epsilon. *)
Lemma below_guard_exact kappa theta sigma dt v u :
  0 < kappa -> 0 < theta -> 0 < sigma -> 0 < dt -> 0 <= v -> u < 1 ->
  below_guard (Fin kappa) (Fin theta) (Fin sigma) (Fin dt) (Fin v) (Fin u)
  <-> in_epsilon_window (Fin kappa) (Fin theta) (Fin sigma) (Fin dt) (Fin v)
        (Fin u).
Proof.
  intros Hk Hth Hsg Hd Hv Hu.
  unfold below_guard, in_epsilon_window. cbv zeta.
  rewrite spec_psi_of_fin by done.
  pose proof (R_psi_pos kappa theta sigma dt v Hk Hth Hsg Hd Hv) as Hpsi.
  set (psi := R_psi kappa theta sigma dt v) in *.
  rewrite (spec_p_fin psi) by done.
  unfold spec_psi_crit, spec_epsilon, spec_one.
  cbn [f_lit f_le f_gt f_add f_sub f_div xreal_elem xadd xsub xneg].
  rewrite lit_psi_crit, lit_epsilon, lit_1.
  set (p := R_p psi).
  assert (xle (Fin psi) (Fin (3 / 2)) = false
          <-> xgt (Fin psi) (Fin (3 / 2)) = true) as ->.
  { rewrite xgt_fin. destruct (xle _ _) eqn:E.
    - apply xle_fin in E. split; [done|lra].
    - split; [|done]. intros _.
      destruct (Rle_dec psi (3 / 2)) as [Hle|]; [|lra].
      apply xle_fin in Hle. congruence. }
  rewrite !xgt_fin.
  assert (0 < 1 + - u + 1 / 100000000) as Hpos by lra.
  rewrite xdiv_fin by done. rewrite xgt_fin.
  pose proof (div_lt_1 (1 + - p) (1 + - u + 1 / 100000000) Hpos) as Hdiv.
  split; intros (H1 & H2 & H3); (split; [done|]); (split; [done|]).
  - apply Hdiv in H3. lra.
  - apply Hdiv. lra.
Qed.
End SignOfEntries.

(** ** The sign of the entries in rounded arithmetic *)

Section RoundedSigns.
Context {fm : Format} {Hfm : Rounding fm}.
#[local] Existing Instance float_elem | 0.
Local Open Scope R_scope.
Local Set Default Proof Using "All".

Lemma round_nonneg r : 0 <= r -> xnonneg (round r).
Proof.
  intros Hr. pose proof (round_mono 0 r Hr) as Hm. rewrite round_0 in Hm.
  pose proof (round_not_nan r) as Hn.
  destruct (round r) as [r'| | |]; try done. by apply xle_fin.
Qed.

Lemma round_nonpos r :
  r <= 0 -> round r = NInf \/ exists r', round r = Fin r' /\ r' <= 0.
Proof.
  intros Hr. pose proof (round_mono r 0 Hr) as Hm. rewrite round_0 in Hm.
  pose proof (round_not_nan r) as Hn.
  destruct (round r) as [r'| | |]; try done; [|by left].
  right. exists r'. split; [done|]. by apply xle_fin.
Qed.

(** Above a number of the format the rounding stays above it. *)
Lemma round_ge a r :
  round a = Fin a -> a <= r ->
  round r = PInf \/ exists r', round r = Fin r' /\ a <= r'.
Proof.
  intros Ha Hr. pose proof (round_mono a r Hr) as Hm. rewrite Ha in Hm.
  pose proof (round_not_nan r) as Hn.
  destruct (round r) as [r'| | |]; try done; [|by left].
  right. exists r'. split; [done|]. by apply xle_fin.
Qed.

Lemma xnonneg_not_negative x : xnonneg x -> xnot_negative x.
Proof. by destruct x. Qed.

Lemma not_negative_cases x :
  xnot_negative x -> x = NaN \/ xnonneg x.
Proof. destruct x; simpl; auto. Qed.

Lemma xround_nonneg x : xnonneg x -> xnonneg (xround x).
Proof. destruct x as [r| | |]; try done. apply round_nonneg. Qed.

Lemma lit_round_0 : f_lit 0 = Fin 0.
Proof. cbn [f_lit float_elem]. rewrite lit_0. apply round_0. Qed.

Lemma lit_round_1 : spec_one = Fin 1.
Proof. unfold spec_one. cbn [f_lit float_elem]. rewrite lit_1. apply round_1. Qed.

Lemma lit_round_epsilon : exists eps, spec_epsilon = Fin eps /\ 0 < eps.
Proof.
  unfold spec_epsilon. cbn [f_lit float_elem]. rewrite lit_epsilon.
  apply round_epsilon.
Qed.

(** The operations on operands that are not negative. *)
Lemma add_nonneg x y : xnonneg x -> xnonneg y -> xnonneg (f_add x y).
Proof.
  intros Hx Hy. cbn [f_add float_elem]. apply xround_nonneg.
  destruct x as [a| | |], y as [b| | |]; try done. simpl in *. lra.
Qed.

Lemma add_not_negative x y :
  xnot_negative x -> xnot_negative y -> xnot_negative (f_add x y).
Proof.
  intros Hx Hy.
  destruct (not_negative_cases x Hx) as [->|Hx']; [done|].
  destruct (not_negative_cases y Hy) as [->|Hy'].
  { cbn [f_add float_elem]. by rewrite xadd_nan_r. }
  by apply xnonneg_not_negative, add_nonneg.
Qed.

Lemma mul_not_negative x y :
  xnot_negative x -> xnot_negative y -> xnot_negative (f_mul x y).
Proof.
  intros Hx Hy. cbn [f_mul float_elem].
  destruct x as [a| | |], y as [b| | |]; try done; simpl in Hx, Hy.
  - cbn [xmul xround]. apply xnonneg_not_negative, round_nonneg.
    by apply Rmult_le_pos.
  - cbn [xmul]. unfold xinf_scaled, Rsign.
    destruct (Rlt_dec a 0); [lra|]. by destruct (Rlt_dec 0 a).
  - cbn [xmul]. unfold xinf_scaled, Rsign.
    destruct (Rlt_dec b 0); [lra|]. by destruct (Rlt_dec 0 b).
Qed.

Lemma div_not_negative x y :
  xnot_negative x -> xnot_negative y -> xnot_negative (f_div x y).
Proof.
  intros Hx Hy. cbn [f_div float_elem].
  destruct x as [a| | |], y as [b| | |]; try done; simpl in Hx, Hy.
  - unfold xdiv, Rsign.
    destruct (Rlt_dec b 0); [lra|]. destruct (Rlt_dec 0 b).
    + cbn [xround]. apply xnonneg_not_negative, round_nonneg.
      apply Rmult_le_pos; [done|]. left. by apply Rinv_0_lt_compat.
    + destruct (Rlt_dec a 0); [lra|]. by destruct (Rlt_dec 0 a).
  - unfold xdiv. cbn [xround]. rewrite round_0. simpl. lra.
  - unfold xdiv, xinf_scaled, Rsign.
    destruct (Rlt_dec b 0); [lra|]. by destruct (Rlt_dec 0 b).
Qed.

Lemma sqr_not_negative x : xnot_negative (f_sqr x).
Proof.
  cbn [f_sqr float_elem]. destruct x as [a| | |]; try done.
  cbn [xmul xround]. apply xnonneg_not_negative, round_nonneg.
  pose proof (Rle_0_sqr a) as Ha. by unfold Rsqr in Ha.
Qed.

(** exp(-kappa dt) is a number of [0, 1]. *)
Lemma exp_term_unit k d :
  0 < k -> 0 < d ->
  exists e, spec_exp_term (Fin k) (Fin d) = Fin e /\ 0 <= e <= 1.
Proof.
  intros Hk Hd. unfold spec_exp_term.
  cbn [f_exp f_mul f_neg float_elem xneg xmul xround].
  destruct (round_nonpos (- k * d) ltac:(nra)) as [->|(r & -> & Hr)].
  - exists 0. split; [done|lra].
  - by apply exp_fl_unit.
Qed.

(** The mean m of a step from a value that is not negative is not negative:
    v - theta is rounded to -theta or above, its product with exp to -theta
    or above, and theta is added. *)
Lemma mean_not_negative k th d v :
  0 < k -> 0 < th -> 0 < d -> round th = Fin th -> xnot_negative v ->
  xnot_negative (spec_m_of (Fin k) (Fin th) (Fin d) v).
Proof.
  intros Hk Hth Hd Hrth Hv. unfold spec_m_of, spec_m.
  destruct (exp_term_unit k d Hk Hd) as (e & -> & He0 & He1).
  assert (round (- th) = Fin (- th)) as Hopp
    by (by rewrite round_opp, Hrth).
  assert (forall w, w = PInf \/ (exists w0, w = Fin w0 /\ - th <= w0) ->
            xnot_negative (f_add (Fin th) (f_mul w (Fin e)))) as Hsum.
  { intros w [->|(w0 & -> & Hw)]; cbn [f_add f_mul float_elem xmul].
    - unfold xinf_scaled, Rsign.
      destruct (Rlt_dec e 0); [lra|]. by destruct (Rlt_dec 0 e).
    - cbn [xround].
      assert (- th <= w0 * e) as Hp by nra.
      destruct (round_ge (- th) (w0 * e) Hopp Hp) as [->|(t & -> & Ht)];
        [done|].
      cbn [xadd xround]. apply xnonneg_not_negative, round_nonneg. lra. }
  destruct v as [v0| | |]; try done.
  - apply Hsum. cbn [f_sub float_elem xsub xneg xadd xround].
    simpl in Hv.
    destruct (round_ge (- th) (v0 + - th) Hopp ltac:(lra))
      as [->|(w0 & -> & Hw)]; [by left|].
    right. by exists w0.
  - apply Hsum. by left.
Qed.

(** The low-variance value is not negative when m is not: a is m over a sum
    with a square, and it multiplies a square. *)
Lemma low_not_negative m psi z :
  xnot_negative m -> xnot_negative (spec_low m psi z).
Proof.
  intros Hm. unfold spec_low, spec_a.
  apply mul_not_negative; [|apply sqr_not_negative].
  apply div_not_negative; [done|].
  apply add_not_negative; [|apply sqr_not_negative].
  rewrite lit_round_1. simpl. lra.
Qed.

(** The high-variance value is not negative when m is not, the uniform draw
    is a number below 1, and the ratio inside the logarithm is not below
    1. *)
Lemma high_not_negative m psi u :
  xnot_negative m -> u < 1 ->
  f_gt spec_one
    (f_div (f_sub spec_one (spec_p psi))
       (f_add (f_sub spec_one (Fin u)) spec_epsilon)) = false ->
  xnot_negative (spec_high m psi (Fin u)).
Proof.
  intros Hm Hu Hratio. unfold spec_high.
  destruct (f_gt (Fin u) (spec_p psi)) eqn:Hgt;
    [|rewrite lit_round_0; simpl; lra].
  unfold spec_pinv, spec_beta.
  destruct lit_round_epsilon as (eps & Eeps & Heps).
  rewrite lit_round_1, Eeps in *.
  set (p := spec_p psi) in *.
  assert (xnonneg (f_sub (Fin 1) p)) as Hq.
  { cbn [f_gt float_elem] in Hgt. cbn [f_sub float_elem].
    destruct p as [p0| | |]; try done.
    apply xgt_fin in Hgt. cbn [xsub xneg xadd xround].
    apply round_nonneg. lra. }
  assert (xnonneg (f_add (f_sub (Fin 1) (Fin u)) (Fin eps))) as Hd.
  { apply add_nonneg; [|simpl; lra].
    cbn [f_sub float_elem xsub xneg xadd xround]. apply round_nonneg. lra. }
  set (q := f_sub (Fin 1) p) in *.
  set (d := f_add (f_sub (Fin 1) (Fin u)) (Fin eps)) in *.
  pose proof (div_not_negative q d (xnonneg_not_negative _ Hq)
                (xnonneg_not_negative _ Hd)) as Hr.
  apply div_not_negative.
  - cbn [f_gt float_elem] in Hratio. cbn [f_log float_elem].
    destruct (f_div q d) as [r| | |]; try done.
    assert (1 <= r) as Hr1.
    { destruct (Rle_dec 1 r) as [|Hn]; [done|].
      assert (xgt (Fin 1) (Fin r) = true) by (apply xgt_fin; lra).
      congruence. }
    rewrite (Rsign_pos r) by lra.
    destruct (log_fl_sign r Hr1) as [Hnan Hle].
    destruct (log_fl r) as [l| | |]; try done. simpl. by apply xle_fin.
  - apply div_not_negative; [by apply xnonneg_not_negative|].
    apply add_not_negative; [done|]. simpl. lra.
Qed.

(** One step from a value that is not negative: the value written is not
    negative, unless the step is a high-variance step whose ratio inside the
    logarithm is below 1. *)
Lemma next_not_negative k th sg d v z u :
  0 < k -> 0 < th -> 0 < d -> round th = Fin th -> xnot_negative v ->
  u < 1 ->
  xnot_negative (spec_next (Fin k) (Fin th) sg (Fin d) v z (Fin u)) \/
  below_guard (Fin k) (Fin th) sg (Fin d) v (Fin u).
Proof.
  intros Hk Hth Hd Hrth Hv Hu.
  pose proof (mean_not_negative k th d v Hk Hth Hd Hrth Hv) as Hm.
  unfold spec_next, spec_select, below_guard. cbv zeta.
  set (m := spec_m_of _ _ _ _) in *. set (psi := spec_psi_of _ _ _ _ _).
  destruct (f_le psi spec_psi_crit) eqn:Hle.
  { left. by apply low_not_negative. }
  destruct (f_gt (Fin u) (spec_p psi)) eqn:Hgt.
  - destruct (f_gt spec_one _) eqn:Hratio; [by right|].
    left. by apply high_not_negative.
  - left. unfold spec_high. rewrite Hgt, lit_round_0. simpl. lra.
Qed.
End RoundedSigns.

Section RoundedEntries.
Context {fm : Format} {Hfm : Rounding fm} {G : Type} `{Generator xreal G}.
#[local] Existing Instance float_elem | 0.
Local Open Scope R_scope.
Local Set Default Proof Using "All".

End RoundedEntries.

(** The exact arithmetic is the arithmetic of a format. *)
Lemma exact_rounding : Rounding exact_format.
Proof.
  split; cbn [round exp_fl log_fl exact_format].
  - done.
  - intros a b Hab. by apply xle_fin.
  - done.
  - done.
  - done.
  - done.
  - exists (1 / 100000000)%R. split; [done|lra].
  - intros r Hr. exists (exp r). split; [done|].
    split; [left; apply exp_pos|].
    destruct (Rle_lt_or_eq_dec r 0 Hr) as [Hlt| ->]; [|rewrite exp_0; lra].
    left. rewrite <- exp_0. by apply exp_increasing.
  - intros r Hr. split; [done|]. apply xle_fin.
    destruct (Rle_lt_or_eq_dec 1 r Hr) as [Hlt| <-]; [|rewrite ln_1; lra].
    left. rewrite <- ln_1. apply ln_increasing; lra.
Defined.

Lemma flat_exp_rounding : Rounding flat_exp_format.
Proof.
  split; cbn [round exp_fl log_fl flat_exp_format].
  - done.
  - intros a b Hab. by apply xle_fin.
  - done.
  - done.
  - done.
  - done.
  - exists (1 / 100000000)%R. split; [done|lra].
  - intros r Hr. eexists. split; [reflexivity|].
    destruct (Rle_dec (- (1 / 33554432)) r); [by destruct (Rle_dec r 0); lra|].
    split; [left; apply exp_pos|].
    destruct (Rle_lt_or_eq_dec r 0 Hr) as [Hlt| ->]; [|rewrite exp_0; lra].
    left. rewrite <- exp_0. by apply exp_increasing.
  - intros r Hr. split; [done|]. apply xle_fin.
    destruct (Rle_lt_or_eq_dec 1 r Hr) as [Hlt| <-]; [|rewrite ln_1; lra].
    left. rewrite <- ln_1. apply ln_increasing; lra.
Defined.

(** The arithmetic of the format without rounding is the exact
    arithmetic. *)
Lemma xround_exact (x : xreal) : @xround exact_format x = x.
Proof. by destruct x. Qed.

Lemma float_elem_exact : float_elem exact_format = xreal_elem.
Proof.
  unfold float_elem, xreal_elem. f_equal.
  - extensionality x. extensionality y. apply xround_exact.
  - extensionality x. extensionality y. apply xround_exact.
  - extensionality x. extensionality y. apply xround_exact.
  - extensionality x. extensionality y. apply xround_exact.
  - extensionality x. apply xround_exact.
  - extensionality x. by destruct x.
  - extensionality x. by destruct x.
  - extensionality x. apply xround_exact.
Qed.

Section RoundedExample.
#[local] Existing Instance float_elem | 0.
#[local] Existing Instance exact_format.

Lemma ex_uniform_draws j i :
  j < 2 -> i + 1 < 3 -> xunit (draws_rand ex_tape (2, 3) j i).
Proof.
  intros Hj Hi.
  destruct j as [|[|j]]; [| |lia]; (destruct i as [|[|i]]; [| |lia]);
    cbn; lra.
Defined.

End RoundedExample.

(** ** Where exp(-kappa dt) rounds to 1 *)

Section RoundedExp.
Context {fm : Format} {Hfm : Rounding fm}.
#[local] Existing Instance float_elem | 0.
Local Open Scope R_scope.
Local Set Default Proof Using "All".

Lemma round_two : spec_two = PInf \/ exists c, spec_two = Fin c /\ 1 <= c.
Proof.
  unfold spec_two. cbn [f_lit float_elem]. rewrite lit_2.
  apply round_ge; [apply round_1|lra].
Qed.

(** At psi = 0 the low-variance value is nan in every format: 2 / psi is
    +inf, so are b and 1 + b^2, a is 0 (or nan) and (b + Z)^2 is +inf (or
    nan). *)
Lemma rounded_low_at_zero_psi m z : spec_low m (Fin 0) z = NaN.
Proof.
  unfold spec_low, spec_a, spec_b, spec_b2.
  assert (f_div spec_two (Fin 0) = PInf) as ->.
  { cbn [f_div float_elem].
    destruct round_two as [->|(c & -> & Hc)].
    - unfold xdiv, xinf_scaled. by rewrite Rsign_zero.
    - by rewrite xdiv_pos_zero by lra. }
  rewrite lit_round_1.
  cbn [f_sub f_sqrt f_mul f_add f_sqr f_div float_elem].
  change (xsub PInf (Fin 1)) with PInf. cbn [xround].
  change (xsqrt PInf) with PInf. cbn [xround xmul xadd].
  change (xsqrt PInf) with PInf. cbn [xround xmul xadd].
  assert (xround (xdiv m PInf) = Fin 0 \/ xround (xdiv m PInf) = NaN)
    as [->| ->].
  { destruct m as [m0| | |]; [left|right..]; try done.
    change (xdiv (Fin m0) PInf) with (Fin 0). cbn [xround]. apply round_0. }
  - destruct z as [z0| | |]; cbn [xadd xround xmul]; try done;
      unfold xinf_scaled; by rewrite Rsign_zero.
  - done.
Qed.

(** Where exp(-kappa dt) is rounded to 1 the variance s2 is 0 and so is
    psi, provided v sigma^2 and theta sigma^2 do not overflow. *)
Lemma rounded_exp_psi k th sg d v s a b :
  0 < k -> round k = Fin k ->
  spec_exp_term (Fin k) (Fin d) = Fin 1 ->
  f_sqr (Fin sg) = Fin s ->
  f_mul (Fin v) (Fin s) = Fin a -> f_mul (Fin th) (Fin s) = Fin b ->
  spec_psi_of (Fin k) (Fin th) (Fin sg) (Fin d) (Fin v) = Fin 0.
Proof.
  intros Hk Hrk He Hs Ha Hb.
  unfold spec_psi_of, spec_psi, spec_s2_of, spec_s2, spec_m_of, spec_m.
  rewrite He, Hs, Ha, Hb. rewrite lit_round_1.
  destruct lit_round_epsilon as (eps & Eeps & Heps).
  assert (round eps = Fin eps) as Hreps.
  { unfold spec_epsilon in Eeps. cbn [f_lit float_elem] in Eeps.
    by apply round_idem in Eeps. }
  rewrite Eeps.
  assert (round a = Fin a) as Hra.
  { cbn [f_mul float_elem xmul xround] in Ha. by apply round_idem in Ha. }
  assert (f_sub (Fin 1) (Fin 1) = Fin 0) as ->.
  { cbn [f_sub float_elem xsub xneg xadd xround].
    replace (1 + - (1)) with 0 by ring. apply round_0. }
  assert (forall x, f_mul (Fin x) (Fin 0) = Fin 0) as Hz.
  { intros x. cbn [f_mul float_elem xmul xround].
    replace (x * 0) with 0 by ring. apply round_0. }
  assert (f_mul (Fin a) (Fin 1) = Fin a) as ->.
  { cbn [f_mul float_elem xmul xround]. by replace (a * 1) with a by ring. }
  assert (f_sqr (Fin 0) = Fin 0) as ->.
  { cbn [f_sqr float_elem xmul xround].
    replace (0 * 0) with 0 by ring. apply round_0. }
  rewrite !Hz.
  assert (forall y, y = PInf \/ (exists c, y = Fin c /\ 0 < c) ->
            f_div (Fin 0) y = Fin 0) as Hdiv.
  { intros y [->|(c & -> & Hc)]; cbn [f_div float_elem].
    - change (xdiv (Fin 0) PInf) with (Fin 0). apply round_0.
    - rewrite xdiv_fin by done. cbn [xround].
      replace (0 / c) with 0 by (field; lra). apply round_0. }
  rewrite (Hdiv (Fin k)) by (right; by exists k).
  rewrite (Hdiv (f_mul spec_two (Fin k))).
  2:{ cbn [f_mul float_elem].
      destruct round_two as [->|(c & -> & Hc)].
      - left. cbn [xmul]. unfold xinf_scaled. by rewrite Rsign_pos.
      - cbn [xmul xround].
        destruct (round_ge k (c * k) Hrk ltac:(nra)) as [->|(c' & -> & Hc')];
          [by left|].
        right. exists c'. split; [done|lra]. }
  assert (f_add (Fin 0) (Fin 0) = Fin 0) as ->.
  { cbn [f_add float_elem xadd xround].
    replace (0 + 0) with 0 by ring. apply round_0. }
  apply Hdiv.
  set (m := f_add (Fin th) (f_mul (f_sub (Fin v) (Fin th)) (Fin 1))).
  assert (xnot_negative (f_sqr m)) as Hsq by apply sqr_not_negative.
  assert (f_sqr m <> NaN) as Hnan.
  { subst m. cbn [f_sub float_elem xsub xneg xadd xround].
    pose proof (round_not_nan (v + - th)) as Hw.
    destruct (round (v + - th)) as [w| | |]; try done.
    - cbn [f_mul float_elem xmul xround].
      pose proof (round_not_nan (w * 1)) as Ht.
      destruct (round (w * 1)) as [t| | |]; try done.
      + cbn [f_add float_elem xadd xround].
        pose proof (round_not_nan (th + t)) as Hm.
        destruct (round (th + t)) as [m0| | |]; try done.
        cbn [f_sqr float_elem xmul xround]. apply round_not_nan.
    - cbn [f_mul float_elem xmul]. unfold xinf_scaled.
      rewrite Rsign_pos by lra. done.
    - cbn [f_mul float_elem xmul]. unfold xinf_scaled.
      rewrite Rsign_pos by lra. done. }
  destruct (f_sqr m) as [c| | |]; try done; [|by left].
  simpl in Hsq. cbn [f_add float_elem xadd xround].
  destruct (round_ge eps (c + eps) Hreps ltac:(lra)) as [->|(c' & -> & Hc')];
    [by left|].
  right. exists c'. split; [done|lra].
Qed.
End RoundedExp.

Section RoundedExpGrid.
Context {fm : Format} {Hfm : Rounding fm} {G : Type} `{Generator xreal G}.
#[local] Existing Instance float_elem | 0.
Local Open Scope R_scope.
Local Set Default Proof Using "All".

End RoundedExpGrid.

Section RoundedExpExample.
#[local] Existing Instance float_elem | 0.
#[local] Existing Instance flat_exp_format.
Local Open Scope R_scope.

End RoundedExpExample.

(** ** A negative entry far from m = 0 *)

Section NegativeEntry.
Local Open Scope R_scope.

Lemma ce_psi_bounds : 3 / 2 < ce_psi < 8.
Proof.
  unfold ce_psi, R_psi, R_s2, R_m, R_exp_term.
  replace (- (1) * 1) with (- (1)) by lra.
  assert (0 < exp (- (1)) < / 2) as [He0 He1].
  { split; [apply exp_pos|]. rewrite exp_Ropp.
    apply Rinv_lt_contravar.
    - pose proof (exp_pos 1). lra.
    - pose proof (exp_ineq1 1 ltac:(lra)). lra. }
  set (e := exp (- (1))) in *.
  replace (1 + (1 - 1) * e) with 1 by lra.
  replace (1 * (4 * 4) * e * (1 - e) / 1
           + 1 * (4 * 4) * ((1 - e) * (1 - e)) / (2 * 1))
    with (8 * (1 - e * e)) by field.
  assert (6 < 8 * (1 - e * e) < 8) as [Hs0 Hs1] by nra.
  set (s := 8 * (1 - e * e)) in *.
  pose proof (div_mul s (1 * 1 + 1 / 100000000) ltac:(lra)) as Ex.
  set (x := s / (1 * 1 + 1 / 100000000)) in *.
  split; nra.
Qed.

Lemma ce_window :
  R_p ce_psi < ce_u < R_p ce_psi + 1 / 100000000 /\ 0 <= ce_u < 1.
Proof.
  pose proof ce_psi_bounds as [H0 H1]. unfold ce_u.
  assert (0 < R_p ce_psi < 7 / 9) as [Hp0 Hp1].
  { unfold R_p.
    pose proof (div_mul (ce_psi - 1) (ce_psi + 1) ltac:(lra)) as Ex.
    set (x := (ce_psi - 1) / (ce_psi + 1)) in *. split; nra. }
  lra.
Qed.
End NegativeEntry.


(** ** Two regimes in one step *)

Lemma mixed_low_psi : (0 < R_psi 1 1 (1 / 5) 1 1 <= 3 / 2)%R.
Proof.
  split; [apply R_psi_pos; lra|].
  unfold R_psi, R_s2, R_m.
  pose proof (R_exp_term_bounds 1 1 ltac:(lra) ltac:(lra)) as [He0 He1].
  set (e := R_exp_term 1 1) in *.
  replace (1 + (1 - 1) * e)%R with 1%R by lra.
  replace (1 * (1 / 5 * (1 / 5)) * e * (1 - e) / 1
           + 1 * (1 / 5 * (1 / 5)) * ((1 - e) * (1 - e)) / (2 * 1))%R
    with ((1 - e * e) / 50)%R by field.
  pose proof (div_mul ((1 - e * e) / 50) (1 * 1 + 1 / 100000000)
                ltac:(lra)) as Ex.
  set (x := ((1 - e * e) / 50 / (1 * 1 + 1 / 100000000))%R) in *.
  nra.
Qed.

Example mixed_regimes_in_one_step :
  exists output,
    (generate_cir ex_mem 2 2 (Tuple [PyFloat (Fin 1)]) (PyFloat (Fin 1))
       (PyFloat (Fin 1)) mixed_sigma (PyFloat (Fin 1)) mixed_tape).2
      = Ok output /\
    let psi0 := spec_psi_of (Fin 1) (Fin 1) (Fin 4) (Fin 1) (Fin 1) in
    let psi1 := spec_psi_of (Fin 1) (Fin 1) (Fin (1 / 5)) (Fin 1) (Fin 1) in
    f_gt psi0 spec_psi_crit = true /\
    f_le psi1 spec_psi_crit = true /\
    cell output 0 1 = Some (spec_high (Fin 1) psi0 (Fin (1 / 2))) /\
    cell output 1 1 = Some (spec_low (Fin 1) psi1 (Fin 0)).
Proof.
  destruct (generate_cir_ok ex_mem 2 2 (Tuple [PyFloat (Fin 1)])
              (PyFloat (Fin 1)) (PyFloat (Fin 1)) mixed_sigma
              (PyFloat (Fin 1)) mixed_tape (T0 (Fin 1)))
    as (output & -> & Hw & Hs & H0 & Hnext).
  { repeat split; (done || lia). }
  { repeat split; simpl; auto. }
  exists output. split; [done|]. cbv zeta.
  pose proof (Hnext 0%nat 0%nat ltac:(simpl; lia) ltac:(simpl; lia)) as H00.
  pose proof (Hnext 0%nat 1%nat ltac:(simpl; lia) ltac:(simpl; lia)) as H10.
  unfold cell_val in H00, H10.
  rewrite (H0 0%nat) in H00 by (simpl; lia).
  rewrite (H0 1%nat) in H10 by (simpl; lia).
  change (cell output 0 1 =
          Some (spec_next (Fin 1) (Fin 1) (Fin 4) (Fin 1) (Fin 1) (Fin 0)
                  (Fin (1 / 2)))) in H00.
  change (cell output 1 1 =
          Some (spec_next (Fin 1) (Fin 1) (Fin (1 / 5)) (Fin 1) (Fin 1)
                  (Fin 0) (Fin (1 / 2)))) in H10.
  unfold spec_next, spec_select in H00, H10.
  pose proof ce_psi_bounds as [Hpsi0 _]. pose proof mixed_low_psi as [_ Hpsi1].
  assert (f_le (spec_psi_of (Fin 1) (Fin 1) (Fin (1 / 5)) (Fin 1) (Fin 1))
            spec_psi_crit = true) as Hle.
  { rewrite spec_psi_of_fin by lra. unfold spec_psi_crit.
    cbn [f_lit f_le xreal_elem]. rewrite lit_psi_crit. by apply xle_fin. }
  assert (f_gt (spec_psi_of (Fin 1) (Fin 1) (Fin 4) (Fin 1) (Fin 1))
            spec_psi_crit = true) as Hgt.
  { rewrite spec_psi_of_fin by lra. unfold spec_psi_crit.
    cbn [f_lit f_gt xreal_elem]. rewrite lit_psi_crit. by apply xgt_fin. }
  rewrite Hle in H10. rewrite (f_gt_not_le _ _ Hgt) in H00.
  rewrite !spec_m_of_fin in H00, H10.
  replace (R_m 1 1 1 1) with 1%R in H00, H10 by (unfold R_m; ring).
  done.
Qed.

(** ** The two readings of b^2 agree in exact arithmetic *)

(** The radicand b2 is a nonnegative number, +inf or nan. *)
Lemma spec_b2_cases (psi : xreal) :
  xnonnegative (spec_b2 psi) \/ spec_b2 psi = PInf \/ spec_b2 psi = NaN.
Proof.
  unfold spec_b2, spec_one, spec_two.
  cbn [f_lit f_add f_sub f_mul f_div f_sqrt xreal_elem].
  rewrite lit_1, lit_2. unfold xdiv, xsqrt.
  destruct psi as [r| | |].
  - destruct (Rsign r) eqn:Hr.
    + rewrite (Rsign_pos 2) by lra. right; left. reflexivity.
    + generalize (2 / r)%R; intros x. cbn [xsub xadd xneg].
      destruct (Rsign x) eqn:Hx, (Rsign (x + - (1))) eqn:Hx1;
        cbn [xmul xadd]; try (right; right; reflexivity).
      all: left; cbn; unfold Rsign in Hx1;
        destruct (Rlt_dec (x + - (1)) 0); try done;
        pose proof (sqrt_pos x); pose proof (sqrt_pos (x + - (1)));
        assert (0 <= sqrt x * sqrt (x + - (1)))%R
          by (by apply Rmult_le_pos); lra.
    + generalize (2 / r)%R; intros x. cbn [xsub xadd xneg].
      destruct (Rsign x) eqn:Hx, (Rsign (x + - (1))) eqn:Hx1;
        cbn [xmul xadd]; try (right; right; reflexivity).
      all: left; cbn; unfold Rsign in Hx1;
        destruct (Rlt_dec (x + - (1)) 0); try done;
        pose proof (sqrt_pos x); pose proof (sqrt_pos (x + - (1)));
        assert (0 <= sqrt x * sqrt (x + - (1)))%R
          by (by apply Rmult_le_pos); lra.
  - right; right. cbn [xsub xadd xneg].
    rewrite Rsign_zero. rewrite (Rsign_neg (0 + - (1))) by lra. reflexivity.
  - right; right. cbn [xsub xadd xneg].
    rewrite Rsign_zero. rewrite (Rsign_neg (0 + - (1))) by lra. reflexivity.
  - right; right. reflexivity.
Qed.

(** In a = m / (1 + b^2) the program squares b = sqrt(b2), where the
    specification writes the radicand b2 itself.  Without rounding the two
    are the same element, special values included. *)
Lemma spec_b_square (psi : xreal) : f_sqr (spec_b psi) = spec_b2 psi.
Proof.
  unfold spec_b.
  destruct (spec_b2_cases psi) as [Hy|[->| ->]]; [|done..].
  destruct (spec_b2 psi) as [r| | |]; try done. cbn in Hy.
  cbn [f_sqr f_sqrt xreal_elem]. rewrite xsqrt_fin by done.
  cbn [xmul]. by rewrite sqrt_sqrt.
Qed.

(** * Beyond the claims *)

(** ** Every outcome of a call *)

Section Outcomes.
Context {F : Type} `{Elem F} {G : Type} `{Generator F G}.

#[local] Instance valid_params_dec n_paths (kappa theta sigma dt : TensorOrFloat F) :
  Decision (valid_params n_paths kappa theta sigma dt).
Proof. unfold valid_params. apply _. Defined.

Lemma init_tuple_empty (init_state : InitState F) :
  init_tuple init_state !! 0 = None <-> init_tuple init_state = [].
Proof. destruct (init_tuple init_state); split; done. Qed.

(** The seven ways a call can go, each with the state it leaves the
    generator in. *)
Lemma generate_cir_cases (mem : nat -> nat -> F) n_paths n_steps
  (init_state : InitState F) (kappa theta sigma dt : TensorOrFloat F)
  (g : G) :
  let shape := (Z.to_nat n_paths, Z.to_nat n_steps) in
  let call :=
    generate_cir mem n_paths n_steps init_state kappa theta sigma dt g in
  ((n_paths < 0 \/ n_steps < 0)%Z /\ call = (g, Raise NegativeDimension)) \/
  ((0 <= n_paths /\ 0 <= n_steps)%Z /\ init_tuple init_state = [] /\
   call = (g, Raise IndexError)) \/
  (exists x0,
     (0 <= n_paths /\ 0 <= n_steps)%Z /\
     init_tuple init_state !! 0 = Some x0 /\
     ((n_steps = 0%Z /\ call = (g, Raise IndexError)) \/
      ((1 <= n_steps)%Z /\ ~ broadcastable shape.1 x0 /\
       call = (g, Raise ShapeMismatch)) \/
      ((2 <= n_steps)%Z /\ broadcastable shape.1 x0 /\
       ~ valid_params n_paths kappa theta sigma dt /\
       call = (state_after_draws g shape, Raise ShapeMismatch)) \/
      ((1 <= n_steps)%Z /\ broadcastable shape.1 x0 /\
       (n_steps = 1%Z \/ valid_params n_paths kappa theta sigma dt) /\
       exists output,
         call = (state_after_draws g shape, Ok output) /\
         wf2 output /\ t2_shape output = shape))).
Proof.
  intros shape call. subst shape call. cbn [fst snd].
  rewrite generate_cir_unfold.
  destruct (decide (0 <= n_paths /\ 0 <= n_steps)%Z) as [Hsz|Hsz].
  2:{ left. split; [lia|]. unfold started, torch_empty.
      by rewrite decide_False. }
  right.
  destruct (init_tuple init_state !! 0) as [x0|] eqn:Hx.
  2:{ left. split; [done|]. split; [by apply init_tuple_empty|].
      unfold started, torch_empty, tuple_get. rewrite decide_True by done.
      by rewrite Hx. }
  right. exists x0. split; [done|]. split; [done|].
  destruct (decide (n_steps = 0%Z)) as [->|Hnz].
  { left. split; [done|]. unfold started, torch_empty, tuple_get.
    rewrite decide_True by done. rewrite Hx. cbn [mbind result_bind].
    rewrite col_set_index_error; [done|]. simpl. lia. }
  right.
  destruct (decide (broadcastable (Z.to_nat n_paths) x0)) as [Hb|Hb].
  2:{ left. split; [lia|]. split; [done|].
      unfold started, torch_empty, tuple_get.
      rewrite decide_True by done. rewrite Hx. cbn [mbind result_bind].
      rewrite col_set_mismatch; [done|simpl; lia|done]. }
  right.
  assert (valid_start n_paths n_steps init_state x0) as Hstart
    by (repeat split; (done || lia)).
  destruct (started_ok mem _ _ _ _ Hstart) as (o0 & E0 & Hw & Hs & _).
  rewrite E0, Hs.
  destruct (decide (n_steps = 1%Z)) as [->|Hn1].
  { right. split; [lia|]. split; [done|]. split; [by left|].
    exists o0. done. }
  destruct (decide (valid_params n_paths kappa theta sigma dt)) as [Hp|Hp].
  - right. split; [lia|]. split; [done|]. split; [by right|].
    destruct (generate_cir_ok mem n_paths n_steps init_state kappa theta
                sigma dt g x0 Hstart Hp) as (output & Hcall & Hwo & Hso & _).
    rewrite generate_cir_unfold, E0, Hs in Hcall.
    exists output. done.
  - left. split; [lia|]. split; [done|]. split; [done|]. f_equal.
    unfold stepped, range. rewrite Hs. cbn [fst snd].
    replace (Z.to_nat (n_steps - 1)) with (S (Z.to_nat (n_steps - 2)))
      by lia.
    cbn [seq for_each].
    rewrite (qe_step_mismatch (Z.to_nat n_paths) (Z.to_nat n_steps));
      [done|done|done|apply wf2_tabulate2|done|apply wf2_tabulate2|done| |done].
    lia.
Qed.
End Outcomes.

Section OutcomeTheorems.
Context {F : Type} `{Elem F} {G : Type} `{Generator F G}.

Ltac outcome_cases mem n_paths n_steps init_state kappa theta sigma dt g :=
  destruct (generate_cir_cases mem n_paths n_steps init_state kappa theta
              sigma dt g)
    as [(Hneg & E)
       |[(Hsz & Hinit & E)
        |(x0 & Hsz & Hx &
          [(Hn & E)
          |[(Hn & Hb & E)
           |[(Hn & Hb & Hp & E)
            |(Hn & Hb & Hp & output & E & Hw & Hs)]]])]];
  cbn [fst snd] in *; rewrite E; cbn [fst snd];
  try (apply init_tuple_empty in Hinit).

(** X1.  A call returns a grid if and only if both sizes are nonnegative,
    there is at least one step, [init_state] has an element 0 that broadcasts
    against the paths, and either there is exactly one step or all of kappa,
    theta, sigma and dt broadcast against the paths. *)
Theorem call_returns_iff (mem : nat -> nat -> F) n_paths n_steps
  (init_state : InitState F) (kappa theta sigma dt : TensorOrFloat F)
  (g : G) :
  (exists output,
     (generate_cir mem n_paths n_steps init_state kappa theta sigma dt g).2
       = Ok output) <->
  (0 <= n_paths /\ 1 <= n_steps)%Z /\
  exists x0,
    init_tuple init_state !! 0 = Some x0 /\
    broadcastable (Z.to_nat n_paths) x0 /\
    (n_steps = 1%Z \/ valid_params n_paths kappa theta sigma dt).
Proof.
  outcome_cases mem n_paths n_steps init_state kappa theta sigma dt g.
  all: split; [intros [o Ho]|intros ([Hn0 Hn1] & y0 & Hy & Hyb & Hyp)].
  all: try done.
  all: try lia.
  all: try (rewrite Hinit in Hy; done).
  all: try (rewrite Hx in Hy; injection Hy as <-).
  all: try tauto.
  - destruct Hyp; [lia|tauto].
  - split; [lia|]. exists x0. done.
  - exists output. done.
Qed.

(** X2.  Which exception a call raises: the negative-size error exactly when
    a size is negative; IndexError exactly when the sizes are nonnegative and
    [init_state] is empty or there is no step at all; ShapeMismatch exactly
    when there is a step, and [init_state[0]] does not broadcast against the
    paths or there are two steps or more and one of kappa, theta, sigma, dt
    does not. *)
Theorem raised_exception_iff (mem : nat -> nat -> F) n_paths n_steps
  (init_state : InitState F) (kappa theta sigma dt : TensorOrFloat F)
  (g : G) :
  let raised :=
    (generate_cir mem n_paths n_steps init_state kappa theta sigma dt g).2 in
  (raised = Raise NegativeDimension <-> (n_paths < 0 \/ n_steps < 0)%Z) /\
  (raised = Raise IndexError <->
   (0 <= n_paths /\ 0 <= n_steps)%Z /\
   (init_tuple init_state = [] \/ n_steps = 0%Z)) /\
  (raised = Raise ShapeMismatch <->
   (0 <= n_paths /\ 1 <= n_steps)%Z /\
   exists x0,
     init_tuple init_state !! 0 = Some x0 /\
     (~ broadcastable (Z.to_nat n_paths) x0 \/
      (2 <= n_steps)%Z /\ ~ valid_params n_paths kappa theta sigma dt)).
Proof.
  intros raised. subst raised.
  outcome_cases mem n_paths n_steps init_state kappa theta sigma dt g.
  all: split; [|split].
  all: split;
    [intros Hr
    |first [intros ([Hn0 Hn1] & y0 & Hy & [Hyb|[Hyn Hyp]])
           |intros ([Hn0 Hn1] & [Hy|Hy])
           |intros [Hn0|Hn0]]].
  all: try done.
  all: try lia.
  all: try (rewrite Hinit in Hy; done).
  all: try (rewrite Hy in Hx; done).
  all: try (rewrite Hx in Hy; injection Hy as <-).
  all: try tauto.
  all: try (split; [done|left; by apply init_tuple_empty]).
  all: try (split; [lia|]; exists x0; tauto).
  destruct Hp; [lia|tauto].
Qed.

(** X3.  What a call does to the generator.  If both sizes are nonnegative,
    there is at least one step and [init_state[0]] exists and broadcasts
    against the paths, the generator is left in the state after the normal and
    the uniform draw of the whole grid, also when the call then raises
    ShapeMismatch for kappa, theta, sigma or dt; in every other case the
    generator is left as it was found. *)
Theorem generator_after_call (mem : nat -> nat -> F) n_paths n_steps
  (init_state : InitState F) (kappa theta sigma dt : TensorOrFloat F)
  (g : G) :
  let call :=
    generate_cir mem n_paths n_steps init_state kappa theta sigma dt g in
  let reaches_draws :=
    (0 <= n_paths /\ 1 <= n_steps)%Z /\
    exists x0, init_tuple init_state !! 0 = Some x0 /\
               broadcastable (Z.to_nat n_paths) x0 in
  (reaches_draws /\
   call.1 = state_after_draws g (Z.to_nat n_paths, Z.to_nat n_steps)) \/
  (~ reaches_draws /\ call.1 = g).
Proof.
  intros call reaches_draws. subst call reaches_draws.
  outcome_cases mem n_paths n_steps init_state kappa theta sigma dt g.
  1-4: right; split; [|done]; intros ([Hn0 Hn1] & y0 & Hy & Hyb).
  all: try lia.
  all: try (rewrite Hinit in Hy; done).
  all: try (rewrite Hx in Hy; injection Hy as <-; tauto).
  all: left; split; [|done]; split; [lia|]; exists x0; done.
Qed.
End OutcomeTheorems.

(** ** The grid in closed form *)

Section Trajectory.
Context {F : Type} `{Elem F}.

Lemma spec_path_ext (kappa theta sigma dt x0 : F) (zs us zs' us' : nat -> F)
  t :
  (forall i, i < t -> zs i = zs' i /\ us i = us' i) ->
  spec_path kappa theta sigma dt x0 zs us t
  = spec_path kappa theta sigma dt x0 zs' us' t.
Proof.
  induction t as [|t IH]; intros Hd; [done|].
  cbn [spec_path]. rewrite IH by (intros i Hi; apply Hd; lia).
  destruct (Hd t ltac:(lia)) as [-> ->]. done.
Qed.

(** Grids of one shape with the same entries are the same grid. *)
Lemma grid_eq (x y : Tensor2 F) n t :
  wf2 x -> wf2 y -> t2_shape x = (n, t) -> t2_shape y = (n, t) ->
  (forall j i, j < n -> i < t -> cell x j i = cell y j i) -> x = y.
Proof.
  intros Hwx Hwy Hsx Hsy Hc. apply (agree_below_eq t).
  - split; [congruence|]. split; [done|]. split; [done|].
    intros j i Hi. destruct (decide (j < n)); [by apply Hc|].
    rewrite !cell_ge; [done|done|rewrite Hsy; simpl; lia|done|
                       rewrite Hsx; simpl; lia].
  - rewrite Hsx. done.
Qed.

Context {G : Type} `{Generator F G}.

(** Every entry of the grid of a call that returns. *)
Lemma generate_cir_cells (mem : nat -> nat -> F) n_paths n_steps
  (init_state : InitState F) (kappa theta sigma dt : TensorOrFloat F)
  (g : G) (x0 : Tensor F) :
  valid_start n_paths n_steps init_state x0 ->
  n_steps = 1%Z \/ valid_params n_paths kappa theta sigma dt ->
  let shape := (Z.to_nat n_paths, Z.to_nat n_steps) in
  exists output,
    generate_cir mem n_paths n_steps init_state kappa theta sigma dt g
      = (state_after_draws g shape, Ok output) /\
    wf2 output /\ t2_shape output = shape /\
    forall j t, j < shape.1 -> t < shape.2 ->
      cell output j t
      = Some (trajectory (as_tensor kappa) (as_tensor theta)
                (as_tensor sigma) (as_tensor dt) x0 (draws_randn g shape)
                (draws_rand g shape) j t).
Proof.
  intros Hstart Hp shape.
  assert (forall j, j < shape.1 -> at_path x0 j = Some (path_val x0 j))
    as Hx0.
  { intros j Hj. destruct Hstart as (_ & _ & _ & Hb).
    by apply (broadcastable_at_path (Z.to_nat n_paths)). }
  destruct Hp as [->|Hp].
  - rewrite generate_cir_unfold.
    destruct (started_ok mem _ _ _ _ Hstart) as (o0 & -> & Hw & Hs & Hc & _).
    exists o0. unfold stepped, range. cbn [seq Z.to_nat for_each].
    rewrite Hs. split; [done|]. split; [done|]. split; [done|].
    intros j t Hj Ht. cbn [fst snd] in Hj, Ht.
    replace t with 0 by (subst shape; simpl in Ht; lia).
    cbn [trajectory spec_path]. rewrite Hc by done. by apply Hx0.
  - destruct (generate_cir_ok mem _ _ _ kappa theta sigma dt g _ Hstart Hp)
      as (output & E & Hw & Hs & Hc & Hnext).
    exists output. split; [done|]. split; [done|]. split; [done|].
    subst shape. cbn [fst snd] in *.
    intros j t Hj Ht. induction t as [|t IH].
    + cbn [trajectory spec_path]. rewrite Hc by done. by apply Hx0.
    + replace (S t) with (t + 1) by lia. rewrite Hnext by (done || lia).
      unfold cell_val. rewrite IH by lia.
      replace (t + 1) with (S t) by lia. done.
Qed.
End Trajectory.

Section TrajectoryTheorems.
Context {F : Type} `{Elem F}.

(** X4.  The grid a call returns, in closed form: entry (j, t) is the
    transition law iterated t times from [init_state[0]] on path j, with the
    parameters of path j and the draws (j, 0), ..., (j, t - 1) of the two
    arrays.  With one step the parameters need not broadcast. *)
Theorem grid_in_closed_form {G : Type} `{Generator F G}
  (mem : nat -> nat -> F) n_paths n_steps (init_state : InitState F)
  (kappa theta sigma dt : TensorOrFloat F) (g : G) (x0 : Tensor F) :
  valid_start n_paths n_steps init_state x0 ->
  n_steps = 1%Z \/ valid_params n_paths kappa theta sigma dt ->
  (generate_cir mem n_paths n_steps init_state kappa theta sigma dt g).2
  = Ok (tabulate2 (Z.to_nat n_paths) (Z.to_nat n_steps)
          (trajectory (as_tensor kappa) (as_tensor theta) (as_tensor sigma)
             (as_tensor dt) x0
             (draws_randn g (Z.to_nat n_paths, Z.to_nat n_steps))
             (draws_rand g (Z.to_nat n_paths, Z.to_nat n_steps)))).
Proof.
  intros Hstart Hp.
  destruct (generate_cir_cells mem _ _ _ kappa theta sigma dt g _ Hstart Hp)
    as (output & -> & Hw & Hs & Hc).
  cbn [fst snd] in *. f_equal.
  apply (grid_eq _ _ (Z.to_nat n_paths) (Z.to_nat n_steps));
    [done|apply wf2_tabulate2|done|done|].
  intros j t Hj Ht. rewrite Hc, cell_tabulate2 by done. done.
Qed.

(** X5.  No entry looks ahead or aside.  Take two calls that return, of any
    sizes, arguments, fresh memory and generators, a path of each and a
    column t of both grids.  If the two paths have the same initial value and
    the same kappa, theta, sigma and dt, and the same draws at the steps
    before t, then the two grids hold the same entry at column t of these
    paths: the entry depends on nothing else. *)
Theorem entry_depends_on_own_past {G1 G2 : Type} `{Generator F G1}
  `{Generator F G2} (mem1 mem2 : nat -> nat -> F)
  n_paths1 n_steps1 n_paths2 n_steps2 (init_state1 init_state2 : InitState F)
  (kappa1 theta1 sigma1 dt1 kappa2 theta2 sigma2 dt2 : TensorOrFloat F)
  (g1 : G1) (g2 : G2) (x1 x2 : Tensor F) (j1 j2 t : nat) :
  let shape1 := (Z.to_nat n_paths1, Z.to_nat n_steps1) in
  let shape2 := (Z.to_nat n_paths2, Z.to_nat n_steps2) in
  valid_start n_paths1 n_steps1 init_state1 x1 ->
  valid_params n_paths1 kappa1 theta1 sigma1 dt1 ->
  valid_start n_paths2 n_steps2 init_state2 x2 ->
  valid_params n_paths2 kappa2 theta2 sigma2 dt2 ->
  j1 < shape1.1 -> j2 < shape2.1 -> t < shape1.2 -> t < shape2.2 ->
  path_val x1 j1 = path_val x2 j2 ->
  path_val (as_tensor kappa1) j1 = path_val (as_tensor kappa2) j2 ->
  path_val (as_tensor theta1) j1 = path_val (as_tensor theta2) j2 ->
  path_val (as_tensor sigma1) j1 = path_val (as_tensor sigma2) j2 ->
  path_val (as_tensor dt1) j1 = path_val (as_tensor dt2) j2 ->
  (forall i, i < t ->
     draws_randn g1 shape1 j1 i = draws_randn g2 shape2 j2 i /\
     draws_rand g1 shape1 j1 i = draws_rand g2 shape2 j2 i) ->
  exists output1 output2,
    (generate_cir mem1 n_paths1 n_steps1 init_state1 kappa1 theta1 sigma1 dt1
       g1).2 = Ok output1 /\
    (generate_cir mem2 n_paths2 n_steps2 init_state2 kappa2 theta2 sigma2 dt2
       g2).2 = Ok output2 /\
    is_Some (cell output1 j1 t) /\
    cell output1 j1 t = cell output2 j2 t.
Proof.
  intros shape1 shape2 Hs1 Hp1 Hs2 Hp2 Hj1 Hj2 Ht1 Ht2 Ex Ek Eth Esg Edt Hd.
  destruct (generate_cir_cells mem1 _ _ _ kappa1 theta1 sigma1 dt1 g1 _ Hs1
              (or_intror Hp1)) as (o1 & -> & _ & _ & Hc1).
  destruct (generate_cir_cells mem2 _ _ _ kappa2 theta2 sigma2 dt2 g2 _ Hs2
              (or_intror Hp2)) as (o2 & -> & _ & _ & Hc2).
  exists o1, o2. split; [done|]. split; [done|].
  rewrite Hc1, Hc2 by done. split; [done|]. f_equal.
  unfold trajectory. rewrite Ex, Ek, Eth, Esg, Edt.
  by apply spec_path_ext.
Qed.

(** X6.  Only the values on the paths count, not the shapes they come in: two
    calls of the same sizes on the same generator state whose [init_state[0]],
    kappa, theta, sigma and dt broadcast to the same value on every path (a
    float, a tensor of shape (), (1,) or (n_paths,)) give the same result and
    leave the generator in the same state, whatever the fresh memory holds. *)
Theorem same_values_same_call {G : Type} `{Generator F G}
  (mem mem' : nat -> nat -> F) n_paths n_steps
  (init_state init_state' : InitState F)
  (kappa theta sigma dt kappa' theta' sigma' dt' : TensorOrFloat F)
  (g : G) (x0 x0' : Tensor F) :
  (0 <= n_paths)%Z -> (1 <= n_steps)%Z ->
  init_tuple init_state !! 0 = Some x0 ->
  init_tuple init_state' !! 0 = Some x0' ->
  same_on_paths (Z.to_nat n_paths) x0 x0' ->
  same_on_paths (Z.to_nat n_paths) (as_tensor kappa) (as_tensor kappa') ->
  same_on_paths (Z.to_nat n_paths) (as_tensor theta) (as_tensor theta') ->
  same_on_paths (Z.to_nat n_paths) (as_tensor sigma) (as_tensor sigma') ->
  same_on_paths (Z.to_nat n_paths) (as_tensor dt) (as_tensor dt') ->
  generate_cir mem n_paths n_steps init_state kappa theta sigma dt g
  = generate_cir mem' n_paths n_steps init_state' kappa' theta' sigma' dt' g.
Proof.
  intros Hn Ht Hx Hx' (Hb & Hb' & Ex) (Hk & Hk' & Ek) (Hth & Hth' & Eth)
    (Hsg & Hsg' & Esg) (Hdt & Hdt' & Edt).
  destruct (generate_cir_cells mem n_paths n_steps init_state kappa theta
              sigma dt g x0) as (o & -> & Hw & Hs & Hc);
    [done|right; done|].
  destruct (generate_cir_cells mem' n_paths n_steps init_state' kappa' theta'
              sigma' dt' g x0') as (o' & -> & Hw' & Hs' & Hc');
    [done|right; done|].
  cbn [fst snd] in *. do 2 f_equal.
  apply (grid_eq _ _ (Z.to_nat n_paths) (Z.to_nat n_steps)); try done.
  intros j t Hj Hlt. rewrite Hc, Hc' by done.
  unfold trajectory, path_val.
  by rewrite (Ex j Hj), (Ek j Hj), (Eth j Hj), (Esg j Hj), (Edt j Hj).
Qed.
End TrajectoryTheorems.

(** X4 on [generate_cir(2, 3)] with the default parameters. *)
Lemma grid_in_closed_form_witness :
  (generate_cir ex_mem 2 3 ex_init ex_kappa ex_theta ex_sigma ex_dt ex_tape).2
  = Ok (tabulate2 2 3
          (trajectory (T0 (Fin 1)) (T0 (Fin 0.04)) (T0 (Fin 0.2))
             (T0 (Fin (1 / 250))) (T0 (Fin 0.04))
             (draws_randn ex_tape (2, 3)) (draws_rand ex_tape (2, 3)))).
Proof.
  exact (grid_in_closed_form ex_mem 2 3 ex_init ex_kappa ex_theta ex_sigma
           ex_dt ex_tape (T0 (Fin 0.04)) ex_valid_start
           (or_intror ex_valid_params)).
Defined.

Lemma ex_valid_start_path1 : valid_start 1 2 ex_init (T0 (Fin 0.04)).
Proof. repeat split; (lia || done). Defined.

Lemma ex_valid_params_path1 : valid_params 1 ex_kappa ex_theta ex_sigma ex_dt.
Proof. repeat split. Defined.

Lemma ex_same_past i :
  i < 1 ->
  draws_randn ex_tape (2, 3) 1 i = draws_randn ex_tape_path1 (1, 2) 0 i /\
  draws_rand ex_tape (2, 3) 1 i = draws_rand ex_tape_path1 (1, 2) 0 i.
Proof.
  intros Hi. destruct i as [|i]; [|lia]. split; reflexivity.
Defined.

(** X5 on path 1 of [generate_cir(2, 3)] and the one path of
    [generate_cir(1, 2)], whose tape replays the draws of that path at step
    0: the entries at column 1 are the same. *)
Lemma entry_depends_on_own_past_witness :
  exists output1 output2,
    (generate_cir ex_mem 2 3 ex_init ex_kappa ex_theta ex_sigma ex_dt
       ex_tape).2 = Ok output1 /\
    (generate_cir (fun _ _ => Fin 7) 1 2 ex_init ex_kappa ex_theta ex_sigma
       ex_dt ex_tape_path1).2 = Ok output2 /\
    is_Some (cell output1 1 1) /\
    cell output1 1 1 = cell output2 0 1.
Proof.
  exact (entry_depends_on_own_past ex_mem (fun _ _ => Fin 7) 2 3 1 2 ex_init
           ex_init ex_kappa ex_theta ex_sigma ex_dt ex_kappa ex_theta
           ex_sigma ex_dt ex_tape ex_tape_path1 (T0 (Fin 0.04))
           (T0 (Fin 0.04)) 1 0 1 ex_valid_start ex_valid_params
           ex_valid_start_path1 ex_valid_params_path1
           ltac:(cbn; lia) ltac:(cbn; lia) ltac:(cbn; lia) ltac:(cbn; lia)
           eq_refl eq_refl eq_refl eq_refl eq_refl ex_same_past).
Defined.

Lemma same_on_paths_refl {A} n (t : Tensor A) :
  broadcastable n t -> same_on_paths n t t.
Proof. intros Hb. split; [done|]. split; done. Defined.

Lemma ex_kappa_same :
  same_on_paths 2 (as_tensor ex_kappa) (as_tensor ex_kappa_filled).
Proof.
  split; [exact I|]. split; [left; reflexivity|].
  intros j Hj. destruct j as [|[|j]]; [reflexivity|reflexivity|lia].
Defined.

(** X6 on [generate_cir(2, 3)] with kappa the float 1.0 and with kappa the
    tensor [1.0, 1.0]. *)
Lemma same_values_same_call_witness :
  generate_cir ex_mem 2 3 ex_init ex_kappa ex_theta ex_sigma ex_dt ex_tape
  = generate_cir (fun _ _ => Fin 7) 2 3 ex_init ex_kappa_filled ex_theta
      ex_sigma ex_dt ex_tape.
Proof.
  exact (same_values_same_call ex_mem (fun _ _ => Fin 7) 2 3 ex_init ex_init
           ex_kappa ex_theta ex_sigma ex_dt ex_kappa_filled ex_theta ex_sigma
           ex_dt ex_tape (T0 (Fin 0.04)) (T0 (Fin 0.04))
           ltac:(lia) ltac:(lia) eq_refl eq_refl
           (same_on_paths_refl 2 (T0 (Fin 0.04)) I) ex_kappa_same
           (same_on_paths_refl 2 (as_tensor ex_theta) I)
           (same_on_paths_refl 2 (as_tensor ex_sigma) I)
           (same_on_paths_refl 2 (as_tensor ex_dt) I)).
Defined.

(** ** nan, kappa = 0 and psi <= 0 in exact arithmetic *)

Section SpecialValues.
Local Open Scope R_scope.

Lemma xsub_nan_r x : xsub x NaN = NaN.
Proof. by destruct x. Qed.

Lemma xdiv_nan_r x : xdiv x NaN = NaN.
Proof. by destruct x. Qed.

Lemma xle_nan_l x : xle NaN x = false.
Proof. done. Qed.

Lemma xdiv_fin_neg a b : b < 0 -> xdiv (Fin a) (Fin b) = Fin (a / b).
Proof. intros Hb. unfold xdiv. by rewrite (Rsign_neg b Hb). Qed.

Lemma xsqrt_neg a : a < 0 -> xsqrt (Fin a) = NaN.
Proof. intros Ha. unfold xsqrt. by rewrite (Rsign_neg a Ha). Qed.

(** Where psi is nan the step writes the zero of the high-variance branch:
    neither psi <= 1.5 nor U > p holds. *)
Lemma psi_nan_next kappa theta sigma dt v z u :
  spec_psi_of kappa theta sigma dt v = NaN ->
  spec_next kappa theta sigma dt v z u = Fin 0.
Proof.
  intros Hpsi. unfold spec_next, spec_select, spec_high, spec_p.
  rewrite Hpsi.
  cbn [f_lit f_add f_sub f_div f_le f_gt xreal_elem].
  rewrite xle_nan_l.
  change (xsub NaN ?x) with NaN. change (xdiv NaN ?x) with NaN.
  rewrite xgt_nan_r. by rewrite lit_0.
Qed.

(** A nan among kappa, theta, sigma, dt and the current value makes psi
    nan. *)
Lemma nan_input_psi kappa theta sigma dt v :
  kappa = NaN \/ theta = NaN \/ sigma = NaN \/ dt = NaN \/ v = NaN ->
  spec_psi_of kappa theta sigma dt v = NaN.
Proof.
  unfold spec_psi_of, spec_psi, spec_s2_of, spec_s2, spec_m_of, spec_m,
    spec_exp_term.
  cbn [f_add f_sub f_mul f_div f_neg f_sqr f_exp xreal_elem].
  intros [->|[->|[->|[->| ->]]]].
  - cbn [xneg xmul xexp]. rewrite !xmul_nan_r, !xadd_nan_r.
    cbn [xmul xadd]. apply xdiv_nan_r.
  - cbn [xadd]. cbn [xmul xadd]. apply xdiv_nan_r.
  - cbn [xmul]. rewrite !xmul_nan_r. cbn [xmul].
    change (xdiv NaN ?x) with NaN. cbn [xadd].
    change (xdiv NaN ?x) with NaN. done.
  - rewrite xmul_nan_r. cbn [xexp]. rewrite !xmul_nan_r, !xadd_nan_r.
    cbn [xmul xadd]. apply xdiv_nan_r.
  - change (xsub NaN ?x) with NaN. cbn [xmul]. rewrite xadd_nan_r.
    cbn [xmul xadd]. apply xdiv_nan_r.
Qed.

Lemma xmul_zero_div_zero x : xdiv (xmul x (Fin 0)) (Fin 0) = NaN.
Proof.
  destruct x as [r| | |].
  - cbn [xmul]. unfold xdiv. replace (r * 0) with 0 by ring.
    by rewrite !Rsign_zero.
  - cbn [xmul]. unfold xinf_scaled. by rewrite Rsign_zero.
  - cbn [xmul]. unfold xinf_scaled. by rewrite Rsign_zero.
  - done.
Qed.

(** With kappa = 0 the factor 1 - exp(-kappa dt) is 0 and the variance s2
    divides 0 (or nan) by 0: psi is nan. *)
Lemma kappa_zero_psi theta sigma dt v :
  spec_psi_of (Fin 0) theta sigma (Fin dt) v = NaN.
Proof.
  unfold spec_psi_of, spec_psi, spec_s2_of, spec_s2, spec_m_of, spec_m,
    spec_exp_term, spec_one.
  cbn [f_lit f_add f_sub f_mul f_div f_neg f_sqr f_exp xreal_elem
       xneg xmul xexp].
  rewrite lit_1. replace (- 0 * dt) with 0 by ring. rewrite exp_0.
  cbn [xsub xneg xadd]. replace (1 + - (1)) with 0 by ring.
  rewrite xmul_zero_div_zero. cbn [xadd].
  change (xdiv NaN ?x) with NaN. done.
Qed.

(** Where psi is a number <= 0 the step writes nan: psi <= 1.5 selects the
    low-variance value, in which 2 / psi is negative or infinite. *)
Lemma nonpositive_psi_select m psi z u :
  psi <= 0 -> spec_select m (Fin psi) z u = NaN.
Proof.
  intros Hpsi. unfold spec_select, spec_psi_crit.
  cbn [f_le f_lit xreal_elem].
  rewrite (proj2 (xle_fin psi (Q2R (3 # 2))))
    by (rewrite lit_psi_crit; lra).
  destruct (Rle_lt_or_eq_dec psi 0 Hpsi) as [Hneg| ->].
  - unfold spec_low, spec_a, spec_b, spec_b2, spec_one, spec_two.
    cbn [f_lit f_add f_sub f_mul f_div f_sqr f_sqrt xreal_elem].
    rewrite lit_1, lit_2.
    assert (2 / psi < 0) as Hx.
    { pose proof (div_mul 2 psi ltac:(lra)) as Ex.
      generalize dependent (2 / psi). intros x Ex. nra. }
    rewrite !(xdiv_fin_neg 2 psi) by done.
    rewrite (xsqrt_neg (2 / psi)) by done.
    cbn [xmul]. rewrite xadd_nan_r.
    change (xsqrt NaN) with NaN. cbn [xmul]. rewrite xadd_nan_r.
    rewrite xdiv_nan_r. done.
  - destruct m as [m| | |]; [apply low_at_zero_psi| | |].
    all: unfold spec_low, spec_a, spec_b, spec_b2, spec_one, spec_two;
      cbn [f_lit f_add f_sub f_mul f_div f_sqr f_sqrt xreal_elem];
      rewrite lit_1, lit_2; rewrite xdiv_pos_zero by lra;
      change (xsub PInf (Fin 1)) with PInf;
      change (xsqrt PInf) with PInf; cbn [xmul xadd];
      change (xsqrt PInf) with PInf; cbn [xmul xadd]; done.
Qed.
End SpecialValues.

Section SpecialValueTheorems.
Context {G : Type} `{Generator xreal G}.
Local Open Scope R_scope.

(** X7.  A nan is silently replaced by zero.  In a call that returns, if
    entry (j, i) is nan, or kappa, theta, sigma or dt is nan on path j, then
    entry (j, i + 1) is 0: psi is nan, neither [psi <= PSI_CRIT] nor [u > p]
    holds, and both [torch.where] take their second operand. *)
Theorem nan_becomes_zero (mem : nat -> nat -> xreal) n_paths n_steps
  (init_state : InitState xreal) (kappa theta sigma dt : TensorOrFloat xreal)
  (g : G) (x0 : Tensor xreal) :
  valid_start n_paths n_steps init_state x0 ->
  valid_params n_paths kappa theta sigma dt ->
  exists output,
    (generate_cir mem n_paths n_steps init_state kappa theta sigma dt g).2
      = Ok output /\
    forall j i,
      (j < Z.to_nat n_paths)%nat -> (i + 1 < Z.to_nat n_steps)%nat ->
      path_val (as_tensor kappa) j = NaN \/
      path_val (as_tensor theta) j = NaN \/
      path_val (as_tensor sigma) j = NaN \/
      path_val (as_tensor dt) j = NaN \/
      cell output j i = Some NaN ->
      cell output j (i + 1) = Some (Fin 0).
Proof.
  intros Hstart Hp.
  destruct (generate_cir_ok mem _ _ _ kappa theta sigma dt g _ Hstart Hp)
    as (output & -> & _ & _ & _ & Hnext).
  exists output. split; [done|]. intros j i Hj Hi Hnan.
  rewrite Hnext by done. f_equal. apply psi_nan_next, nan_input_psi.
  destruct Hnan as [?|[?|[?|[?|Hc]]]]; auto.
  do 4 right. unfold cell_val. by rewrite Hc.
Qed.

(** X8.  With kappa = 0 on a path (and a finite dt) every entry of the path
    after column 0 is 0, whatever theta, sigma, the initial value and the
    draws are: 1 - exp(-kappa dt) is 0, the variance s2 divides by kappa and
    is 0 / 0 = nan, so psi is nan. *)
Theorem kappa_zero_gives_zeros (mem : nat -> nat -> xreal) n_paths n_steps
  (init_state : InitState xreal) (kappa theta sigma dt : TensorOrFloat xreal)
  (g : G) (x0 : Tensor xreal) :
  valid_start n_paths n_steps init_state x0 ->
  valid_params n_paths kappa theta sigma dt ->
  exists output,
    (generate_cir mem n_paths n_steps init_state kappa theta sigma dt g).2
      = Ok output /\
    forall j i,
      (j < Z.to_nat n_paths)%nat -> (i + 1 < Z.to_nat n_steps)%nat ->
      path_val (as_tensor kappa) j = Fin 0 ->
      xfinite (path_val (as_tensor dt) j) ->
      cell output j (i + 1) = Some (Fin 0).
Proof.
  intros Hstart Hp.
  destruct (generate_cir_ok mem _ _ _ kappa theta sigma dt g _ Hstart Hp)
    as (output & -> & _ & _ & _ & Hnext).
  exists output. split; [done|]. intros j i Hj Hi Hk Hdt.
  rewrite Hnext by done. f_equal. apply psi_nan_next. rewrite Hk.
  destruct (path_val (as_tensor dt) j) as [d| | |]; try done.
  apply kappa_zero_psi.
Qed.

(** X9.  Where the psi of a step is a number <= 0 the step writes nan:
    [psi <= PSI_CRIT] selects the low-variance value, in which [2 / psi] is
    negative (its square root is nan) or infinite (a is 0 and (b + Z)^2 is
    infinite).  sigma = 0 and dt = 0 are such inputs. *)
Theorem nonpositive_psi_gives_nan (mem : nat -> nat -> xreal) n_paths n_steps
  (init_state : InitState xreal) (kappa theta sigma dt : TensorOrFloat xreal)
  (g : G) (x0 : Tensor xreal) :
  valid_start n_paths n_steps init_state x0 ->
  valid_params n_paths kappa theta sigma dt ->
  exists output,
    (generate_cir mem n_paths n_steps init_state kappa theta sigma dt g).2
      = Ok output /\
    forall j i psi,
      (j < Z.to_nat n_paths)%nat -> (i + 1 < Z.to_nat n_steps)%nat ->
      psi_at (as_tensor kappa) (as_tensor theta) (as_tensor sigma)
        (as_tensor dt) output j i = Fin psi ->
      psi <= 0 ->
      cell output j (i + 1) = Some NaN.
Proof.
  intros Hstart Hp.
  destruct (generate_cir_ok mem _ _ _ kappa theta sigma dt g _ Hstart Hp)
    as (output & -> & _ & _ & _ & Hnext).
  exists output. split; [done|].
  intros j i psi Hj Hi Hpsi Hle.
  rewrite Hnext by done. f_equal. unfold psi_at in Hpsi.
  unfold spec_next. rewrite Hpsi. by apply nonpositive_psi_select.
Qed.
End SpecialValueTheorems.

(** Column 0 of the grid of a call that returns. *)
Lemma first_column {G : Type} `{Generator xreal G}
  (mem : nat -> nat -> xreal) n_paths n_steps (init_state : InitState xreal)
  (kappa theta sigma dt : TensorOrFloat xreal) (g : G) (x0 : Tensor xreal)
  (output : Tensor2 xreal) :
  valid_start n_paths n_steps init_state x0 ->
  valid_params n_paths kappa theta sigma dt ->
  (generate_cir mem n_paths n_steps init_state kappa theta sigma dt g).2
    = Ok output ->
  forall j, j < Z.to_nat n_paths -> cell output j 0 = at_path x0 j.
Proof.
  intros Hstart Hp.
  destruct (generate_cir_ok mem _ _ _ kappa theta sigma dt g _ Hstart Hp)
    as (o & -> & _ & _ & Hc & _).
  cbn [snd]. intros [= <-]. done.
Qed.

(** With dt = 0 nothing moves: exp(-kappa dt) is 1, s2 and psi are 0. *)
Lemma dt_zero_psi (kappa theta sigma v : R) :
  (0 < kappa)%R ->
  spec_psi_of (Fin kappa) (Fin theta) (Fin sigma) (Fin 0) (Fin v) = Fin 0.
Proof.
  intros Hk. rewrite spec_psi_of_fin by done. f_equal.
  unfold R_psi, R_s2, R_m, R_exp_term.
  replace (- kappa * 0)%R with 0%R by ring. rewrite exp_0.
  unfold Rdiv. ring.
Qed.

(** X7 on [generate_cir(2, 3, theta=nan)]: every entry after column 0 is
    0. *)
Lemma nan_becomes_zero_witness :
  exists output,
    (generate_cir ex_mem 2 3 ex_init ex_kappa (PyFloat NaN) ex_sigma ex_dt
       ex_tape).2 = Ok output /\
    cell output 0 1 = Some (Fin 0) /\ cell output 1 2 = Some (Fin 0).
Proof.
  destruct (nan_becomes_zero ex_mem 2 3 ex_init ex_kappa (PyFloat NaN)
              ex_sigma ex_dt ex_tape (T0 (Fin 0.04)) ex_valid_start
              ltac:(repeat split)) as (output & E & Hzero).
  exists output. split; [exact E|].
  split; [apply (Hzero 0%nat 0%nat)|apply (Hzero 1%nat 1%nat)];
    (lia || (right; left; reflexivity)).
Defined.

(** X8 on [generate_cir(2, 3, kappa=0.0)]. *)
Lemma kappa_zero_gives_zeros_witness :
  exists output,
    (generate_cir ex_mem 2 3 ex_init (PyFloat (Fin 0)) ex_theta ex_sigma
       ex_dt ex_tape).2 = Ok output /\
    cell output 0 1 = Some (Fin 0) /\ cell output 1 2 = Some (Fin 0).
Proof.
  destruct (kappa_zero_gives_zeros ex_mem 2 3 ex_init (PyFloat (Fin 0))
              ex_theta ex_sigma ex_dt ex_tape (T0 (Fin 0.04)) ex_valid_start
              ltac:(repeat split)) as (output & E & Hzero).
  exists output. split; [exact E|].
  split; [apply (Hzero 0%nat 0%nat)|apply (Hzero 1%nat 1%nat)];
    (lia || reflexivity || exact I).
Defined.

(** X9 on [generate_cir(2, 3, dt=0.0)]: column 1 is nan. *)
Lemma nonpositive_psi_gives_nan_witness :
  exists output,
    (generate_cir ex_mem 2 3 ex_init ex_kappa ex_theta ex_sigma
       (PyFloat (Fin 0)) ex_tape).2 = Ok output /\
    cell output 0 1 = Some NaN /\ cell output 1 1 = Some NaN.
Proof.
  destruct (nonpositive_psi_gives_nan ex_mem 2 3 ex_init ex_kappa ex_theta
              ex_sigma (PyFloat (Fin 0)) ex_tape (T0 (Fin 0.04))
              ex_valid_start ltac:(repeat split))
    as (output & E & Hnan).
  pose proof (first_column ex_mem 2 3 ex_init ex_kappa ex_theta ex_sigma
                (PyFloat (Fin 0)) ex_tape (T0 (Fin 0.04)) output
                ex_valid_start ltac:(repeat split) E) as Hc.
  exists output. split; [exact E|].
  split; [apply (Hnan 0%nat 0%nat 0%R)|apply (Hnan 1%nat 0%nat 0%R)];
    try lia; try lra.
  all: unfold psi_at, cell_val; rewrite Hc by lia.
  all: apply dt_zero_psi; lra.
Defined.

(** ** Continuing a simulation *)

Section Continue.
Context {F : Type} `{Elem F}.

Lemma spec_path_shift (kappa theta sigma dt x0 : F) (zs us : nat -> F) s t :
  spec_path kappa theta sigma dt x0 zs us (s + t)
  = spec_path kappa theta sigma dt
      (spec_path kappa theta sigma dt x0 zs us s)
      (fun i => zs (s + i)) (fun i => us (s + i)) t.
Proof.
  induction t as [|t IH]; [by rewrite Nat.add_0_r|].
  rewrite Nat.add_succ_r. cbn [spec_path]. by rewrite IH.
Qed.

(** X15.  A simulation can be continued from any of its columns.  Take a
    call that returns the grid [output], one of its columns s, and a second
    call with the same parameters whose initial state is that column,
    [init_state=(output[:, s],)], and whose draws at step i are the draws of
    the first call at step s + i.  The second call returns the columns
    s, s + 1, ... of the first grid. *)
Theorem continue_from_column {G1 G2 : Type} `{Generator F G1}
  `{Generator F G2} (mem1 mem2 : nat -> nat -> F) n_paths n_steps n_steps'
  (init_state : InitState F) (kappa theta sigma dt : TensorOrFloat F)
  (g1 : G1) (g2 : G2) (x0 : Tensor F) (s : nat) :
  let shape := (Z.to_nat n_paths, Z.to_nat n_steps) in
  let shape' := (Z.to_nat n_paths, Z.to_nat n_steps') in
  valid_start n_paths n_steps init_state x0 ->
  valid_params n_paths kappa theta sigma dt ->
  (1 <= n_steps')%Z -> s + shape'.2 <= shape.2 ->
  (forall j i, j < shape.1 -> i + 1 < shape'.2 ->
     draws_randn g2 shape' j i = draws_randn g1 shape j (s + i) /\
     draws_rand g2 shape' j i = draws_rand g1 shape j (s + i)) ->
  exists output column output',
    (generate_cir mem1 n_paths n_steps init_state kappa theta sigma dt g1).2
      = Ok output /\
    col_get output s = Ok column /\
    (generate_cir mem2 n_paths n_steps' (Tuple [PyTensor column]) kappa theta
       sigma dt g2).2 = Ok output' /\
    forall j t, j < shape.1 -> t < shape'.2 ->
      is_Some (cell output' j t) /\
      cell output' j t = cell output j (s + t).
Proof.
  intros shape shape' Hstart Hp Ht' Hs Hd.
  destruct (generate_cir_cells mem1 _ _ _ kappa theta sigma dt g1 _ Hstart
              (or_intror Hp)) as (output & -> & Hw & Hsh & Hc).
  subst shape shape'. cbn [fst snd] in *.
  destruct (col_get_ok output s Hw) as (l & El & Hl & Hcol).
  { rewrite Hsh. simpl. lia. }
  rewrite Hsh in Hl. cbn [fst] in Hl.
  assert (valid_start n_paths n_steps' (Tuple [PyTensor (T1 l)]) (T1 l))
    as Hstart'.
  { destruct Hstart as (Hn & _). split; [done|]. split; [done|].
    split; [done|]. by left. }
  destruct (generate_cir_cells mem2 _ _ _ kappa theta sigma dt g2 _ Hstart'
              (or_intror Hp)) as (output' & E' & _ & _ & Hc').
  cbn [fst snd] in *.
  exists output, (T1 l), output'. split; [done|]. split; [done|].
  split; [by rewrite E'|]. intros j t Hj Ht.
  rewrite Hc' by done. split; [done|]. rewrite Hc by (done || lia).
  f_equal. unfold trajectory. rewrite spec_path_shift.
  assert (path_val (T1 l) j
          = spec_path (path_val (as_tensor kappa) j)
              (path_val (as_tensor theta) j) (path_val (as_tensor sigma) j)
              (path_val (as_tensor dt) j) (path_val x0 j)
              (draws_randn g1 (Z.to_nat n_paths, Z.to_nat n_steps) j)
              (draws_rand g1 (Z.to_nat n_paths, Z.to_nat n_steps) j) s)
    as ->.
  { unfold path_val at 1. rewrite at_path_T1.
    replace (if decide (length l = 1) then 0 else j) with j
      by (case_decide; lia).
    rewrite Hcol, Hc by (done || lia). done. }
  apply spec_path_ext. intros i Hi. apply Hd; [done|lia].
Qed.
End Continue.

Lemma ex_shifted_draws j i :
  j < 2 -> i + 1 < 2 ->
  draws_randn ex_tape_shifted (2, 2) j i = draws_randn ex_tape (2, 3) j (1 + i)
  /\ draws_rand ex_tape_shifted (2, 2) j i
     = draws_rand ex_tape (2, 3) j (1 + i).
Proof.
  intros Hj Hi.
  destruct j as [|[|j]]; [| |lia]; (destruct i as [|i]; [|lia]);
    split; reflexivity.
Defined.

(** X15 on [generate_cir(2, 3)] with the default parameters, continued from
    column 1 for two steps. *)
Lemma continue_from_column_witness :
  exists output column output',
    (generate_cir ex_mem 2 3 ex_init ex_kappa ex_theta ex_sigma ex_dt
       ex_tape).2 = Ok output /\
    col_get output 1 = Ok column /\
    (generate_cir ex_mem 2 2 (Tuple [PyTensor column]) ex_kappa ex_theta
       ex_sigma ex_dt ex_tape_shifted).2 = Ok output' /\
    forall j t, j < 2 -> t < 2 ->
      is_Some (cell output' j t) /\
      cell output' j t = cell output j (1 + t).
Proof.
  exact (continue_from_column ex_mem ex_mem 2 3 2 ex_init ex_kappa ex_theta
           ex_sigma ex_dt ex_tape ex_tape_shifted (T0 (Fin 0.04)) 1
           ex_valid_start ex_valid_params ltac:(lia) ltac:(cbn; lia)
           ex_shifted_draws).
Defined.
